(** * ExpenseSplitter: balances and settlement plan

    A shallow embedding of [ExpenseManager.calculate_balances] and
    [ExpenseManager.get_settlement_plan] of [ExpenseSplitter.py].

    Currency values ([REAL] columns, Python floats) are modelled as exact
    rationals [Q]; comparisons go through [Qle_bool], so they respect [Qeq].
    The three SQLite tables are lists of rows, a Python [dict] is an
    association list in insertion order (the order [dict.items()] yields),
    a [KeyError] is [None]. *)

From Stdlib Require Import QArith Qabs Lqa Lia String Sorted.
From stdpp Require Import base option list relations.

Local Open Scope Q_scope.

(** ** Numbers *)

(** The literal [0.01] of the settlement walk. *)
Definition epsilon : Q := 1 # 100.

(** [x < y] on currency values, as a boolean. *)
Definition Qltb (x y : Q) : bool := negb (Qle_bool y x).

(** [sum] of a list of currency values. *)
Definition Qsum (l : list Q) : Q := foldr Qplus 0 l.

(** ** Python dictionaries keyed by row ids *)

Module Dict.
Section Ops.
Context {V : Type}.

(** [d[k]], [None] standing for [KeyError]. *)
Fixpoint get (k : Z) (d : list (Z * V)) : option V :=
  match d with
  | [] => None
  | (k', v) :: r => if Z.eqb k k' then Some v else get k r
  end.

(** [d[k] = v]: replaces in place, or appends a new key. *)
Fixpoint set (k : Z) (v : V) (d : list (Z * V)) : list (Z * V) :=
  match d with
  | [] => [(k, v)]
  | (k', v') :: r => if Z.eqb k k' then (k', v) :: r else (k', v') :: set k v r
  end.

(** [d[k] = f (d[k])] on an existing key; [KeyError] when [k] is absent. *)
Fixpoint update (k : Z) (f : V -> V) (d : list (Z * V)) : option (list (Z * V)) :=
  match d with
  | [] => None
  | (k', v) :: r =>
      if Z.eqb k k' then Some ((k', f v) :: r)
      else match update k f r with
           | Some r' => Some ((k', v) :: r')
           | None => None
           end
  end.

Definition keys (d : list (Z * V)) : list Z := d.*1.
End Ops.
End Dict.

(** ** The database *)

(** A row of table [expense]. *)
Record expense_row := {
  e_id : Z;
  e_description : string;
  e_amount : Q;
  e_date : string;
  e_paid_by : Z
}.

(** A row of table [expense_split]. *)
Record split_row := {
  s_id : Z;
  s_expense_id : Z;
  s_person_id : Z;
  s_share_amount : Q
}.

(** The three tables; [person] holds [(id, name)] rows. *)
Record Database := {
  person : list (Z * string);
  expense : list expense_row;
  expense_split : list split_row
}.

(** [SELECT k, SUM(v) FROM rows GROUP BY k]: one row per distinct key, here
    in the order of first occurrence; the loops that read the result touch
    each key once, so the order of the groups does not matter to them. *)
Fixpoint group_add (k : Z) (v : Q) (g : list (Z * Q)) : list (Z * Q) :=
  match g with
  | [] => [(k, v)]
  | (k', s) :: r => if Z.eqb k k' then (k', s + v) :: r else (k', s) :: group_add k v r
  end.

Definition group_sum (rows : list (Z * Q)) : list (Z * Q) :=
  fold_left (fun g row => group_add (fst row) (snd row) g) rows [].

(** ** calculate_balances *)

(** The value stored per person: [{'name': ..., 'balance': ...}]. *)
Record entry := { name : string; balance : Q }.

Abbreviation balances_t := (list (Z * entry)).

(** [balances[person_id] = {'name': person_name, 'balance': 0}] for each person. *)
Definition init_balances (persons : list (Z * string)) : balances_t :=
  fold_left (fun b p => Dict.set (fst p) {| name := snd p; balance := 0 |} b) persons [].

Definition add_to_balance (delta : Q) (e : entry) : entry :=
  {| name := name e; balance := balance e + delta |}.

Definition sub_from_balance (delta : Q) (e : entry) : entry :=
  {| name := name e; balance := balance e - delta |}.

(** [for k, total in rows: balances[k]['balance'] op= total]. *)
Fixpoint apply_rows (op : Q -> entry -> entry) (rows : list (Z * Q))
    (b : balances_t) : option balances_t :=
  match rows with
  | [] => Some b
  | (k, total) :: r =>
      match Dict.update k (op total) b with
      | Some b' => apply_rows op r b'
      | None => None
      end
  end.

Definition payments (db : Database) : list (Z * Q) :=
  group_sum ((fun e => (e_paid_by e, e_amount e)) <$> expense db).

Definition shares (db : Database) : list (Z * Q) :=
  group_sum ((fun s => (s_person_id s, s_share_amount s)) <$> expense_split db).

Definition calculate_balances (db : Database) : option balances_t :=
  match apply_rows add_to_balance (payments db) (init_balances (person db)) with
  | Some b => apply_rows sub_from_balance (shares db) b
  | None => None
  end.

(** ** get_settlement_plan *)

(** [(person_id, name, amount)]. *)
Abbreviation party := (Z * string * Q)%type.

(** [(debtor_id, debtor_name, creditor_id, creditor_name, amount)]. *)
Abbreviation transaction := (Z * string * Z * string * Q)%type.

Definition p_id (p : party) : Z := fst (fst p).
Definition p_name (p : party) : string := snd (fst p).
Definition p_amount (p : party) : Q := snd p.

Definition t_debtor (t : transaction) : Z := fst (fst (fst (fst t))).
Definition t_creditor (t : transaction) : Z := snd (fst (fst t)).
Definition t_amount (t : transaction) : Q := snd t.

(** The [if data['balance'] < 0] branch of the partition loop. *)
Fixpoint debtors_of (items : balances_t) : list party :=
  match items with
  | [] => []
  | (pid, data) :: rest =>
      if Qltb (balance data) 0
      then (pid, name data, Qabs (balance data)) :: debtors_of rest
      else debtors_of rest
  end.

(** The [elif data['balance'] > 0] branch of the partition loop. *)
Fixpoint creditors_of (items : balances_t) : list party :=
  match items with
  | [] => []
  | (pid, data) :: rest =>
      if Qltb (balance data) 0 then creditors_of rest
      else if Qltb 0 (balance data)
      then (pid, name data, balance data) :: creditors_of rest
      else creditors_of rest
  end.

(** [l.sort(key=lambda x: x[2], reverse=True)]: descending by amount and
    stable, equal amounts keep their relative order. *)
Fixpoint insert_desc (x : party) (l : list party) : list party :=
  match l with
  | [] => [x]
  | y :: r => if Qle_bool (p_amount y) (p_amount x) then x :: y :: r
              else y :: insert_desc x r
  end.

Definition sort_desc (l : list party) : list party := foldr insert_desc [] l.

(** The variables of the settlement walk. *)
Record walk := {
  debtors : list party;
  creditors : list party;
  i : nat;
  j : nat;
  transactions : list transaction
}.

(** One iteration of the [while] loop; [None] when the loop condition
    [i < len(debtors) and j < len(creditors)] is false. *)
Definition step (s : walk) : option walk :=
  match debtors s !! i s, creditors s !! j s with
  | Some (debtor_id, debtor_name, debt), Some (creditor_id, creditor_name, credit) =>
      if Qltb (Qabs (debt - credit)) epsilon then
        Some {| debtors := debtors s;
                creditors := creditors s;
                i := S (i s);
                j := S (j s);
                transactions := transactions s ++
                  [(debtor_id, debtor_name, creditor_id, creditor_name, debt)] |}
      else if Qltb debt credit then
        Some {| debtors := debtors s;
                creditors := <[j s := (creditor_id, creditor_name, credit - debt)]> (creditors s);
                i := S (i s);
                j := j s;
                transactions := transactions s ++
                  [(debtor_id, debtor_name, creditor_id, creditor_name, debt)] |}
      else
        Some {| debtors := <[i s := (debtor_id, debtor_name, debt - credit)]> (debtors s);
                creditors := creditors s;
                i := i s;
                j := S (j s);
                transactions := transactions s ++
                  [(debtor_id, debtor_name, creditor_id, creditor_name, credit)] |}
  | _, _ => None
  end.

(** The [while] loop, bounded by [fuel] iterations. *)
Fixpoint run (fuel : nat) (s : walk) : walk :=
  match fuel with
  | O => s
  | S n => match step s with
           | Some s' => run n s'
           | None => s
           end
  end.

Definition start (ds cs : list party) : walk :=
  {| debtors := ds; creditors := cs; i := 0; j := 0; transactions := [] |}.

(** The planner on a balance mapping. *)
Definition settle (balances : balances_t) : walk :=
  let ds := sort_desc (debtors_of balances) in
  let cs := sort_desc (creditors_of balances) in
  run (length ds + length cs) (start ds cs).

Definition plan_settlement (balances : balances_t) : list transaction :=
  transactions (settle balances).

Definition get_settlement_plan (db : Database) : option (list transaction) :=
  match calculate_balances db with
  | Some balances => Some (plan_settlement balances)
  | None => None
  end.

(** ** Scenario A of the specification *)

Definition scenario_A : Database :=
  {| person := [(1%Z, "Alice"%string); (2%Z, "Bob"%string); (3%Z, "Carol"%string)];
     expense := [ {| e_id := 1; e_description := "Dinner"; e_amount := 30;
                     e_date := "2024-01-01"; e_paid_by := 1 |} ];
     expense_split :=
       [ {| s_id := 1; s_expense_id := 1; s_person_id := 1; s_share_amount := 10 |};
         {| s_id := 2; s_expense_id := 1; s_person_id := 2; s_share_amount := 10 |};
         {| s_id := 3; s_expense_id := 1; s_person_id := 3; s_share_amount := 10 |} ] |}.

(** ** Quantities the properties are stated with *)

(** A natural number as a currency factor. *)
Definition Qnat (n : nat) : Q := inject_Z (Z.of_nat n).

(** Sum of the amounts of a list of debtors or creditors. *)
Definition amounts (l : list party) : Q := Qsum (map p_amount l).

(** Sum of the amounts of a list of transactions. *)
Definition total (txs : list transaction) : Q := Qsum (map t_amount txs).

(** What person [p] pays over a list of transactions. *)
Definition outgoing (p : Z) (txs : list transaction) : Q :=
  total (filter (fun t => t_debtor t = p) txs).

(** What person [p] receives over a list of transactions. *)
Definition incoming (p : Z) (txs : list transaction) : Q :=
  total (filter (fun t => t_creditor t = p) txs).

(** Sum of all signed balances of a mapping. *)
Definition sum_balances (b : balances_t) : Q :=
  Qsum (map (fun x => balance (snd x)) b).

(** Sum of the strictly positive balances of a mapping. *)
Definition sum_positive (b : balances_t) : Q :=
  Qsum (map (fun x => if Qltb 0 (balance (snd x)) then balance (snd x) else 0) b).

(** Sum of the magnitudes of the strictly negative balances. *)
Definition sum_negative (b : balances_t) : Q :=
  Qsum (map (fun x => if Qltb (balance (snd x)) 0 then - balance (snd x) else 0) b).

Definition positive_amounts (l : list party) : Prop :=
  Forall (fun p => 0 < p_amount p) l.

(** The transition relation of the walk. *)
Definition step_rel (s s' : walk) : Prop := step s = Some s'.

(** Iterations left at most: the distance of the cursors to the ends. *)
Definition measure (s : walk) : nat :=
  (length (debtors s) - i s) + (length (creditors s) - j s).

(** The three branches of an iteration, as a relation. *)
Inductive step_spec (s : walk) : walk -> Prop :=
| step_equal did dn debt cid cn credit :
    debtors s !! i s = Some (did, dn, debt) ->
    creditors s !! j s = Some (cid, cn, credit) ->
    Qabs (debt - credit) < epsilon ->
    step_spec s {| debtors := debtors s; creditors := creditors s;
                   i := S (i s); j := S (j s);
                   transactions := transactions s ++ [(did, dn, cid, cn, debt)] |}
| step_less did dn debt cid cn credit :
    debtors s !! i s = Some (did, dn, debt) ->
    creditors s !! j s = Some (cid, cn, credit) ->
    epsilon <= Qabs (debt - credit) ->
    debt < credit ->
    step_spec s {| debtors := debtors s;
                   creditors := <[j s := (cid, cn, credit - debt)]> (creditors s);
                   i := S (i s); j := j s;
                   transactions := transactions s ++ [(did, dn, cid, cn, debt)] |}
| step_more did dn debt cid cn credit :
    debtors s !! i s = Some (did, dn, debt) ->
    creditors s !! j s = Some (cid, cn, credit) ->
    epsilon <= Qabs (debt - credit) ->
    credit <= debt ->
    step_spec s {| debtors := <[i s := (did, dn, debt - credit)]> (debtors s);
                   creditors := creditors s;
                   i := i s; j := S (j s);
                   transactions := transactions s ++ [(did, dn, cid, cn, credit)] |}.

(** What every state of a walk started on [ds] and [cs] satisfies. *)
Record walk_inv (ds cs : list party) (s : walk) : Prop := {
  inv_dkeys : (debtors s).*1 = ds.*1;
  inv_ckeys : (creditors s).*1 = cs.*1;
  inv_dpos : positive_amounts (debtors s);
  inv_cpos : positive_amounts (creditors s);
  inv_tpos : Forall (fun t => 0 < t_amount t) (transactions s);
  inv_ile : (i s <= length ds)%nat;
  inv_jle : (j s <= length cs)%nat;
  inv_debt : total (transactions s) + amounts (drop (i s) (debtors s)) == amounts ds;
  inv_credit :
    Qabs (total (transactions s) + amounts (drop (j s) (creditors s)) - amounts cs)
    <= epsilon * Qnat (j s)
}.

(** The person ids of a list of debtors or creditors. *)
Definition ids (l : list party) : list Z := p_id <$> l.

(** The account of every debtor during the walk: what they have paid plus
    what they still owe (nothing once the cursor has passed them) is their
    original debt. *)
Definition debtor_account (ds : list party) (s : walk) : Prop :=
  forall (k : nat) (p : Z) (n : string) (m : Q),
    ds !! k = Some (p, n, m) ->
    exists r, debtors s !! k = Some (p, n, r) /\
      outgoing p (transactions s) + (if decide (k < i s)%nat then 0 else r) == m.

(** The account of every creditor during the walk: a creditor the cursor
    has passed has received their credit up to [epsilon]; for the others,
    what they have received plus what is still due is their original
    credit. *)
Definition creditor_account (cs : list party) (s : walk) : Prop :=
  forall (k : nat) (p : Z) (n : string) (m : Q),
    cs !! k = Some (p, n, m) ->
    exists r, creditors s !! k = Some (p, n, r) /\
      if decide (k < j s)%nat
      then Qabs (incoming p (transactions s) - m) < epsilon
      else incoming p (transactions s) + r == m.

(** The sum of the values of the rows with key [k]. *)
Definition row_total (rows : list (Z * Q)) (k : Z) : Q :=
  Qsum (map snd (filter (fun r => fst r = k) rows)).

(** Sum of the amounts of the expenses person [p] paid. *)
Definition paid_total (db : Database) (p : Z) : Q :=
  Qsum (map e_amount (filter (fun e => e_paid_by e = p) (expense db))).

(** Sum of the split shares of person [p] across all expenses. *)
Definition share_total (db : Database) (p : Z) : Q :=
  Qsum (map s_share_amount (filter (fun s => s_person_id s = p) (expense_split db))).

(** Sum of the split shares recorded for the expense with id [eid]. *)
Definition split_total (db : Database) (eid : Z) : Q :=
  Qsum (map s_share_amount (filter (fun s => s_expense_id s = eid) (expense_split db))).

(** The entry a person starts with. *)
Definition fresh_entry (pn : Z * string) : Z * entry :=
  (fst pn, {| name := snd pn; balance := 0 |}).

(** The constraints the schema declares and the balance computation relies
    on: [person.id] is a primary key, [expense.paid_by] and
    [expense_split.person_id] reference [person(id)]. *)
Record persons_known (db : Database) : Prop := {
  person_ids_unique : NoDup (person db).*1;
  payer_known : forall e, e ∈ expense db -> e_paid_by e ∈ (person db).*1;
  sharer_known : forall s, s ∈ expense_split db -> s_person_id s ∈ (person db).*1
}.

(** [expense.id] is a primary key and [expense_split.expense_id] references
    [expense(id)]: every split belongs to exactly one expense. *)
Record splits_owned (db : Database) : Prop := {
  expense_ids_unique : NoDup (e_id <$> expense db);
  split_expense_known :
    forall s, s ∈ expense_split db -> s_expense_id s ∈ (e_id <$> expense db)
}.

(** ** The tables behind the connection *)

(** Names are compared as SQLite compares [TEXT]: byte by byte. *)
#[local] Instance string_eq_decision : EqDecision string := string_dec.

(** The state the managers work on: the three tables and, per table, the
    largest row id handed out so far ([sqlite_sequence], kept because the
    ids are [AUTOINCREMENT]). The connection is opened by
    [sqlite3.connect] and no [PRAGMA foreign_keys] is ever issued, so the
    [REFERENCES] clauses of the schema are not enforced: deleting a row
    neither fails nor cascades. Row ids are unbounded integers here. *)
Record Store := {
  tables : Database;
  person_seq : Z;
  expense_seq : Z;
  split_seq : Z
}.

(** The id an [AUTOINCREMENT] column gives the next row: one more than
    the largest id the table holds or ever held. *)
Definition next_rowid (seq : Z) (ids : list Z) : Z := (foldr Z.max seq ids + 1)%Z.

(** The database file as [create_tables] first makes it. *)
Definition empty_store : Store :=
  {| tables := {| person := []; expense := []; expense_split := [] |};
     person_seq := 0; expense_seq := 0; split_seq := 0 |}.

Module PersonManager.

(** [INSERT INTO person (name)]: refused with [IntegrityError] when the
    name is taken ([UNIQUE]), and then nothing changes. *)
Definition add_person (new_name : string) (st : Store) : bool * Store :=
  if decide (new_name ∈ (person (tables st)).*2) then (false, st)
  else
    let pid := next_rowid (person_seq st) (person (tables st)).*1 in
    (true,
     {| tables := {| person := person (tables st) ++ [(pid, new_name)];
                     expense := expense (tables st);
                     expense_split := expense_split (tables st) |};
        person_seq := pid;
        expense_seq := expense_seq st;
        split_seq := split_seq st |}).

(** [SELECT id, name FROM person WHERE id = ?] and [fetchone()]. *)
Definition get_person_by_id (person_id : Z) (st : Store) : option (Z * string) :=
  head (filter (fun p => fst p = person_id) (person (tables st))).

(** [UPDATE person SET name = ? WHERE id = ?]: refused with
    [IntegrityError] when the row exists and another row has the name. *)
Definition update_person (person_id : Z) (new_name : string) (st : Store)
    : bool * Store :=
  let persons := person (tables st) in
  let hit := existsb (fun p => Z.eqb (fst p) person_id) persons in
  let clash :=
    existsb (fun p => negb (Z.eqb (fst p) person_id) && String.eqb (snd p) new_name)
            persons in
  if hit && clash then (false, st)
  else
    (true,
     {| tables := {| person := (fun p => if Z.eqb (fst p) person_id
                                         then (fst p, new_name) else p) <$> persons;
                     expense := expense (tables st);
                     expense_split := expense_split (tables st) |};
        person_seq := person_seq st;
        expense_seq := expense_seq st;
        split_seq := split_seq st |}).

(** [DELETE FROM person WHERE id = ?]. *)
Definition delete_person (person_id : Z) (st : Store) : Store :=
  {| tables := {| person := filter (fun p => fst p <> person_id) (person (tables st));
                  expense := expense (tables st);
                  expense_split := expense_split (tables st) |};
     person_seq := person_seq st;
     expense_seq := expense_seq st;
     split_seq := split_seq st |}.

End PersonManager.

Module ExpenseManager.

(** One [INSERT INTO expense_split] of the loop over [splits.items()]. *)
Definition insert_split (expense_id : Z) (acc : list split_row * Z) (sp : Z * Q)
    : list split_row * Z :=
  let sid := next_rowid (snd acc) (s_id <$> fst acc) in
  (fst acc ++ [ {| s_id := sid; s_expense_id := expense_id;
                   s_person_id := fst sp; s_share_amount := snd sp |} ],
   sid).

Definition insert_splits (expense_id : Z) (splits : list (Z * Q))
    (rows : list split_row) (seq : Z) : list split_row * Z :=
  fold_left (insert_split expense_id) splits (rows, seq).

(** [add_expense]: the expense row, then one split row per item of the
    [splits] dictionary, under the id [cursor.lastrowid]. With values of
    the column types no statement fails, and the result is [True]. *)
Definition add_expense (description : string) (amount : Q) (date : string)
    (paid_by : Z) (splits : list (Z * Q)) (st : Store) : bool * Store :=
  let expense_id := next_rowid (expense_seq st) (e_id <$> expense (tables st)) in
  let inserted :=
    insert_splits expense_id splits (expense_split (tables st)) (split_seq st) in
  (true,
   {| tables := {| person := person (tables st);
                   expense := expense (tables st) ++
                     [ {| e_id := expense_id; e_description := description;
                          e_amount := amount; e_date := date;
                          e_paid_by := paid_by |} ];
                   expense_split := fst inserted |};
      person_seq := person_seq st;
      expense_seq := expense_id;
      split_seq := snd inserted |}).

(** The rows of [expense e JOIN person p ON e.paid_by = p.id]. *)
Definition expense_with_payer (db : Database)
    : list (Z * string * Q * string * Z * string) :=
  e ← expense db;
  p ← filter (fun p => fst p = e_paid_by e) (person db);
  [(e_id e, e_description e, e_amount e, e_date e, e_paid_by e, snd p)].

(** [get_expense_by_id]: the joined row with that id, [fetchone()]. *)
Definition get_expense_by_id (expense_id : Z) (st : Store)
    : option (Z * string * Q * string * Z * string) :=
  head (filter (fun r => fst (fst (fst (fst (fst r)))) = expense_id)
               (expense_with_payer (tables st))).

(** [get_expense_splits]: the rows of
    [expense_split es JOIN person p ON es.person_id = p.id] of one expense,
    as [(id, expense_id, person_id, name, share_amount)]. *)
Definition get_expense_splits (expense_id : Z) (st : Store)
    : list (Z * Z * Z * string * Q) :=
  es ← filter (fun es => s_expense_id es = expense_id) (expense_split (tables st));
  p ← filter (fun p => fst p = s_person_id es) (person (tables st));
  [(s_id es, s_expense_id es, s_person_id es, snd p, s_share_amount es)].

(** [update_expense]: rewrite the expense row, delete its split rows,
    insert the new ones. *)
Definition update_expense (expense_id : Z) (description : string) (amount : Q)
    (date : string) (paid_by : Z) (splits : list (Z * Q)) (st : Store)
    : bool * Store :=
  let kept :=
    filter (fun es => s_expense_id es <> expense_id) (expense_split (tables st)) in
  let inserted := insert_splits expense_id splits kept (split_seq st) in
  (true,
   {| tables := {| person := person (tables st);
                   expense := (fun e => if Z.eqb (e_id e) expense_id
                                        then {| e_id := e_id e;
                                                e_description := description;
                                                e_amount := amount; e_date := date;
                                                e_paid_by := paid_by |}
                                        else e) <$> expense (tables st);
                   expense_split := fst inserted |};
      person_seq := person_seq st;
      expense_seq := expense_seq st;
      split_seq := snd inserted |}).

(** [delete_expense]: [DELETE FROM expense WHERE id = ?]; the split rows
    stay, the cascade of the schema not being enforced. *)
Definition delete_expense (expense_id : Z) (st : Store) : bool * Store :=
  (true,
   {| tables := {| person := person (tables st);
                   expense := filter (fun e => e_id e <> expense_id) (expense (tables st));
                   expense_split := expense_split (tables st) |};
      person_seq := person_seq st;
      expense_seq := expense_seq st;
      split_seq := split_seq st |}).

End ExpenseManager.

(** ** The add-expense form *)

Module Form.

Inductive split_method := Equally | Custom_amounts | Custom_percentages.

(** What the widgets of the form hold when it is submitted; the per-person
    inputs are keyed by person id. *)
Record input := {
  description : string;
  amount : Q;
  date : string;
  paid_by : Z;
  method : split_method;
  involved_persons : list Z;
  share_of : Z -> Q;
  percentage_of : Z -> Q
}.

(** ["Equally"]: the amount divided by the number of persons involved. *)
Definition equal_splits (amount : Q) (involved : list Z) : list (Z * Q) :=
  match involved with
  | [] => []
  | _ => let equal_share := amount / Qnat (length involved) in
         fold_left (fun splits pid => Dict.set pid equal_share splits) involved []
  end.

(** ["Custom amounts"]: the persons with a share above 0. *)
Definition amount_splits (persons : list (Z * string)) (share_of : Z -> Q)
    : list (Z * Q) :=
  fold_left (fun splits p =>
               let share := share_of (fst p) in
               if Qltb 0 share then Dict.set (fst p) share splits else splits)
            persons [].

(** ["Custom percentages"]: the persons with a percentage above 0, each
    with that percentage of the amount. *)
Definition percentage_splits (persons : list (Z * string)) (amount : Q)
    (percentage_of : Z -> Q) : list (Z * Q) :=
  fold_left (fun splits p =>
               let percentage := percentage_of (fst p) in
               if Qltb 0 percentage
               then Dict.set (fst p) (amount * (percentage / 100)) splits
               else splits)
            persons [].

Definition splits_of (persons : list (Z * string)) (inp : input) : list (Z * Q) :=
  match method inp with
  | Equally => equal_splits (amount inp) (involved_persons inp)
  | Custom_amounts => amount_splits persons (share_of inp)
  | Custom_percentages => percentage_splits persons (amount inp) (percentage_of inp)
  end.

(** [sum(splits.values())]. *)
Definition sum_values (splits : list (Z * Q)) : Q := fold_left Qplus splits.*2 0.

Definition is_custom (m : split_method) : bool :=
  match m with Equally => false | _ => true end.

Inductive result :=
| No_persons
| Rejected (message : string)
| Added
| Failed.

(** The handler of the submit button of [show_add_expense], on the
    persons [get_all_persons] returned; without persons the page shows a
    warning and no form. *)
Definition submit (persons : list (Z * string)) (inp : input) (st : Store)
    : result * Store :=
  let splits := splits_of persons inp in
  if bool_decide (persons = []) then (No_persons, st)
  else if String.eqb (description inp) EmptyString then
    (Rejected "Please enter a description.", st)
  else if Qle_bool (amount inp) 0 then
    (Rejected "Amount must be greater than zero.", st)
  else if bool_decide (splits = []) then
    (Rejected "Please split the expense among at least one person.", st)
  else if is_custom (method inp)
          && Qltb epsilon (Qabs (sum_values splits - amount inp)) then
    (Rejected "The total split amount must equal the expense amount.", st)
  else
    let r := ExpenseManager.add_expense (description inp) (amount inp) (date inp)
               (paid_by inp) splits st in
    if fst r then (Added, snd r) else (Failed, snd r).



End Form.

(** What every operation of the managers keeps: primary keys are unique,
    names are unique, no expense id exceeds the last one handed out, and
    split rows refer only to expense ids that were handed out. *)
Record store_ok (st : Store) : Prop := {
  ok_person_ids : NoDup (person (tables st)).*1;
  ok_person_names : NoDup (person (tables st)).*2;
  ok_expense_ids : NoDup (e_id <$> expense (tables st));
  ok_split_ids : NoDup (s_id <$> expense_split (tables st));
  ok_expense_seq : forall e, e ∈ expense (tables st) -> (e_id e <= expense_seq st)%Z;
  ok_split_seq : forall r, r ∈ expense_split (tables st) -> (s_id r <= split_seq st)%Z;
  ok_split_refs :
    forall r, r ∈ expense_split (tables st) -> (s_expense_id r <= expense_seq st)%Z
}.

(** The names a transaction carries. *)
Definition t_debtor_name (t : transaction) : string := snd (fst (fst (fst t))).
Definition t_creditor_name (t : transaction) : string := snd (fst t).

(** The columns of a row [get_expense_splits] returns. *)
Definition row_person (r : Z * Z * Z * string * Q) : Z := snd (fst (fst r)).
Definition row_name (r : Z * Z * Z * string * Q) : string := snd (fst r).
Definition row_share (r : Z * Z * Z * string * Q) : Q := snd r.

(** ** Concrete inputs *)

(** Scenario A as the database file holds it after its three persons and
    its expense were added. *)
Definition store_A : Store :=
  {| tables := scenario_A; person_seq := 3; expense_seq := 1; split_seq := 3 |}.

Definition entry_of (n : string) (q : Q) : entry := {| name := n; balance := q |}.

(** The balances of scenario A: Alice is owed 20, Bob and Carol owe 10. *)
Definition balances_A : balances_t :=
  [ (1%Z, entry_of "Alice" 20); (2%Z, entry_of "Bob" (-10));
    (3%Z, entry_of "Carol" (-10)) ].

(** Two balances within [epsilon] of 0: A owes 0.005, B is owed 0.005. *)
Definition near_zero_balances : balances_t :=
  [ (1%Z, entry_of "A" (- (5 # 1000))); (2%Z, entry_of "B" (5 # 1000)) ].

(** A settled person next to a debt of 7. *)
Definition balances_with_zero : balances_t :=
  [ (1%Z, entry_of "X" 7); (2%Z, entry_of "Y" 0); (3%Z, entry_of "Z" (-7)) ].

(** Credits 10 and 10 against debts 9.991, 9.991 and 0.018: the signed
    balances sum to 0. *)
Definition drifting_balances : balances_t :=
  [ (1%Z, entry_of "A" 10);
    (2%Z, entry_of "B" 10);
    (3%Z, entry_of "P" (- (9991 # 1000)));
    (4%Z, entry_of "Q" (- (9991 # 1000)));
    (5%Z, entry_of "R" (- (18 # 1000))) ].

(** ** Further quantities *)

(** Descending order of amounts, as the sort leaves the lists. *)
Definition amount_ge (x y : party) : Prop := p_amount y <= p_amount x.

(** Equality of currency values is decidable. *)
#[local] Instance Qeq_decision (x y : Q) : Decision (x == y) := Qeq_dec x y.

(** The parties of a list whose amount is [q], in the order of the list. *)
Definition with_amount (q : Q) (l : list party) : list party :=
  filter (fun x => p_amount x == q) l.




(** ** Basic facts *)

Lemma Qltb_true (x y : Q) : Qltb x y = true <-> x < y.
Proof.
  unfold Qltb. rewrite negb_true_iff. split.
  - intros H. apply Qnot_le_lt. intros Hle. apply Qle_bool_iff in Hle. congruence.
  - intros H. destruct (Qle_bool y x) eqn:E; [|reflexivity].
    apply Qle_bool_iff in E. lra.
Qed.

Lemma Qltb_false (x y : Q) : Qltb x y = false <-> y <= x.
Proof.
  unfold Qltb. rewrite negb_false_iff. apply Qle_bool_iff.
Qed.

Lemma Qnat_S (n : nat) : Qnat (S n) == Qnat n + 1.
Proof.
  unfold Qnat. rewrite Nat2Z.inj_succ, <- Z.add_1_r, inject_Z_plus. reflexivity.
Qed.

Lemma Qnat_nonneg (n : nat) : 0 <= Qnat n.
Proof.
  unfold Qnat. change 0 with (inject_Z 0). rewrite <- Zle_Qle. lia.
Qed.

Lemma Qnat_le (n m : nat) : (n <= m)%nat -> Qnat n <= Qnat m.
Proof.
  intros H. unfold Qnat. rewrite <- Zle_Qle. lia.
Qed.

Lemma Qsum_app (l1 l2 : list Q) : Qsum (l1 ++ l2) == Qsum l1 + Qsum l2.
Proof.
  induction l1 as [|x l1 IH].
  - change (Qsum ([] ++ l2)) with (Qsum l2). change (Qsum []) with 0. lra.
  - change (Qsum ((x :: l1) ++ l2)) with (x + Qsum (l1 ++ l2)).
    change (Qsum (x :: l1)) with (x + Qsum l1). lra.
Qed.

Lemma total_snoc (txs : list transaction) (t : transaction) :
  total (txs ++ [t]) == total txs + t_amount t.
Proof.
  unfold total. rewrite map_app, Qsum_app.
  change (Qsum (map t_amount [t])) with (t_amount t + 0). lra.
Qed.

Lemma amounts_cons (x : party) (l : list party) :
  amounts (x :: l) = p_amount x + amounts l.
Proof. reflexivity. Qed.

(** ** One iteration *)

Lemma step_inv (s s' : walk) : step s = Some s' -> step_spec s s'.
Proof.
  unfold step. intros H.
  destruct (debtors s !! i s) as [[[did dn] debt]|] eqn:Hd; [|discriminate].
  destruct (creditors s !! j s) as [[[cid cn] credit]|] eqn:Hc; [|discriminate].
  destruct (Qltb (Qabs (debt - credit)) epsilon) eqn:E1.
  - inversion H; subst. apply Qltb_true in E1. eapply step_equal; eauto.
  - apply Qltb_false in E1.
    destruct (Qltb debt credit) eqn:E2; inversion H; subst.
    + apply Qltb_true in E2. eapply step_less; eauto.
    + apply Qltb_false in E2. eapply step_more; eauto.
Qed.

Lemma step_None (s : walk) :
  step s = None <->
  ~ ((i s < length (debtors s))%nat /\ (j s < length (creditors s))%nat).
Proof.
  unfold step. split.
  - intros H [Hi Hj].
    destruct (debtors s !! i s) as [[[did dn] debt]|] eqn:Hd;
      [|apply lookup_ge_None in Hd; lia].
    destruct (creditors s !! j s) as [[[cid cn] credit]|] eqn:Hc;
      [|apply lookup_ge_None in Hc; lia].
    destruct (Qltb (Qabs (debt - credit)) epsilon); [discriminate|].
    destruct (Qltb debt credit); discriminate.
  - intros H.
    destruct (debtors s !! i s) as [[[did dn] debt]|] eqn:Hd; [|reflexivity].
    destruct (creditors s !! j s) as [[[cid cn] credit]|] eqn:Hc; [|reflexivity].
    exfalso. apply H. split; eapply lookup_lt_Some; eauto.
Qed.

Lemma step_advances (s s' : walk) :
  step s = Some s' ->
  (i s < length (debtors s))%nat /\ (j s < length (creditors s))%nat /\
  (i s <= i s')%nat /\ (j s <= j s')%nat /\ (i s + j s < i s' + j s')%nat /\
  length (debtors s') = length (debtors s) /\
  length (creditors s') = length (creditors s).
Proof.
  intros H. apply step_inv in H.
  destruct H as [? ? ? ? ? ? Hd Hc _|? ? ? ? ? ? Hd Hc _ _|? ? ? ? ? ? Hd Hc _ _];
    apply lookup_lt_Some in Hd; apply lookup_lt_Some in Hc; simpl;
    rewrite ?length_insert; repeat split; lia.
Qed.

Lemma step_measure (s s' : walk) : step s = Some s' -> (measure s' < measure s)%nat.
Proof.
  intros H. apply step_inv in H. unfold measure.
  destruct H as [? ? ? ? ? ? Hd Hc _|? ? ? ? ? ? Hd Hc _ _|? ? ? ? ? ? Hd Hc _ _];
    apply lookup_lt_Some in Hd; apply lookup_lt_Some in Hc; simpl;
    rewrite ?length_insert; lia.
Qed.

(** ** The loop *)

Lemma run_reach (n : nat) (s : walk) : rtc step_rel s (run n s).
Proof.
  revert s. induction n as [|n IH]; intros s; simpl.
  - apply rtc_refl.
  - destruct (step s) as [s'|] eqn:E.
    + eapply rtc_l; [exact E | apply IH].
    + apply rtc_refl.
Qed.

Lemma run_done (n : nat) (s : walk) :
  (measure s <= n)%nat -> step (run n s) = None.
Proof.
  revert s. induction n as [|n IH]; intros s Hm; simpl.
  - apply step_None. unfold measure in Hm. lia.
  - destruct (step s) as [s'|] eqn:E; [|exact E].
    apply IH. apply step_measure in E. lia.
Qed.

Lemma run_stable (n m : nat) (s : walk) :
  step (run n s) = None -> (n <= m)%nat -> run m s = run n s.
Proof.
  revert m s. induction n as [|n IH]; intros m s Hn Hle; simpl in *.
  - destruct m; simpl; [reflexivity|]. rewrite Hn. reflexivity.
  - destruct m as [|m]; [lia|]. simpl.
    destruct (step s) as [s'|] eqn:E; [|reflexivity].
    apply IH; [exact Hn | lia].
Qed.

(** ** Absolute values *)

Lemma Qabs_cases (x : Q) : (0 <= x /\ Qabs x == x) \/ (x <= 0 /\ Qabs x == - x).
Proof.
  destruct (Qlt_le_dec x 0) as [H|H].
  - right. split; [lra|]. apply Qabs_neg. lra.
  - left. split; [exact H|]. apply Qabs_pos. exact H.
Qed.

(** Linear arithmetic over [Q] with absolute values and [epsilon]. *)
Ltac qabs_lra :=
  repeat match goal with
  | |- context [Qabs ?x] =>
      destruct (Qabs_cases x) as [[? ?]|[? ?]];
      let a := fresh "a" in set (a := Qabs x) in *; clearbody a
  | H : context [Qabs ?x] |- _ =>
      destruct (Qabs_cases x) as [[? ?]|[? ?]];
      let a := fresh "a" in set (a := Qabs x) in *; clearbody a
  end;
  unfold epsilon in *; lra.

(** ** Lists updated at the cursor *)

Lemma amounts_drop (l : list party) (k : nat) (x : party) :
  l !! k = Some x -> amounts (drop k l) = p_amount x + amounts (drop (S k) l).
Proof. intros H. rewrite (drop_S _ _ _ H). reflexivity. Qed.

Lemma amounts_drop_insert (l : list party) (k : nat) (x y : party) :
  l !! k = Some x ->
  amounts (drop k (<[k := y]> l)) = p_amount y + amounts (drop (S k) l).
Proof.
  intros H.
  assert (Hk : (k < length l)%nat) by (eapply lookup_lt_Some; eauto).
  rewrite (drop_S _ y k) by (apply list_lookup_insert_eq; exact Hk).
  rewrite drop_insert_lt by lia. reflexivity.
Qed.

Lemma keys_insert (l : list party) (k : nat) (a : Z * string) (q q' : Q) :
  l !! k = Some (a, q) -> (<[k := (a, q')]> l).*1 = l.*1.
Proof.
  intros H. rewrite list_fmap_insert. simpl.
  apply list_insert_id. rewrite list_lookup_fmap, H. reflexivity.
Qed.

Lemma amounts_nonneg (l : list party) : positive_amounts l -> 0 <= amounts l.
Proof.
  induction 1 as [|x l Hx _ IH].
  - change (amounts []) with 0. lra.
  - rewrite amounts_cons. lra.
Qed.

Lemma amounts_elem (l : list party) (x : party) :
  positive_amounts l -> x ∈ l -> p_amount x <= amounts l.
Proof.
  intros Hpos Hin. induction Hin as [x l|x y l _ IH].
  - apply Forall_cons in Hpos as [_ Hl]. apply amounts_nonneg in Hl.
    rewrite amounts_cons. lra.
  - apply Forall_cons in Hpos as [Hy Hl]. specialize (IH Hl).
    rewrite amounts_cons. lra.
Qed.

(** ** The invariant of the walk *)

Lemma walk_inv_start (ds cs : list party) :
  positive_amounts ds -> positive_amounts cs -> walk_inv ds cs (start ds cs).
Proof.
  intros Hd Hc. split; cbn [debtors creditors i j transactions start]; rewrite ?drop_0; try done; try lia.
  - change (total []) with 0. lra.
  - change (total []) with 0. change (Qnat 0) with 0. qabs_lra.
Qed.

Lemma walk_inv_step (ds cs : list party) (s s' : walk) :
  walk_inv ds cs s -> step s = Some s' -> walk_inv ds cs s'.
Proof.
  intros [Hdk Hck Hdp Hcp Htp Hi Hj Hdebt Hcredit] Hstep.
  pose proof (step_advances _ _ Hstep) as (Hil & Hjl & _).
  assert (Hlen_d : length (debtors s) = length ds)
    by (rewrite <- (length_fmap fst (debtors s)), Hdk, length_fmap; reflexivity).
  assert (Hlen_c : length (creditors s) = length cs)
    by (rewrite <- (length_fmap fst (creditors s)), Hck, length_fmap; reflexivity).
  apply step_inv in Hstep.
  destruct Hstep as [did dn debt cid cn credit Hd Hc Heq
                    |did dn debt cid cn credit Hd Hc Hne Hlt
                    |did dn debt cid cn credit Hd Hc Hne Hge];
    pose proof (Forall_lookup_1 _ _ _ _ Hdp Hd) as Hdebt_pos;
    pose proof (Forall_lookup_1 _ _ _ _ Hcp Hc) as Hcredit_pos;
    pose proof (amounts_drop _ _ _ Hd) as Ed;
    pose proof (amounts_drop _ _ _ Hc) as Ec;
    unfold p_amount in Hdebt_pos, Hcredit_pos, Ed, Ec; simpl in Hdebt_pos, Hcredit_pos, Ed, Ec.
  - pose proof (total_snoc (transactions s) (did, dn, cid, cn, debt)) as Et.
    pose proof (Qnat_S (j s)) as En.
    unfold t_amount in Et; simpl in Et.
    split; cbn [debtors creditors i j transactions]; try done; try lia.
    + apply Forall_app; split; [exact Htp|]. repeat constructor. exact Hdebt_pos.
    + rewrite Ed in Hdebt. lra.
    + rewrite Ec in Hcredit. qabs_lra.
  - pose proof (total_snoc (transactions s) (did, dn, cid, cn, debt)) as Et.
    unfold t_amount in Et; simpl in Et.
    pose proof (amounts_drop_insert _ _ _ (cid, cn, credit - debt) Hc) as Ec'.
    unfold p_amount in Ec'; simpl in Ec'.
    split; cbn [debtors creditors i j transactions]; try done; try lia.
    + rewrite <- Hck. eapply keys_insert. exact Hc.
    + apply Forall_insert; [exact Hcp|]. unfold p_amount; simpl. lra.
    + apply Forall_app; split; [exact Htp|]. repeat constructor. exact Hdebt_pos.
    + rewrite Ed in Hdebt. lra.
    + rewrite Ec', Ec in *. qabs_lra.
  - pose proof (total_snoc (transactions s) (did, dn, cid, cn, credit)) as Et.
    pose proof (Qnat_S (j s)) as En.
    unfold t_amount in Et; simpl in Et.
    pose proof (amounts_drop_insert _ _ _ (did, dn, debt - credit) Hd) as Ed'.
    unfold p_amount in Ed'; simpl in Ed'.
    split; cbn [debtors creditors i j transactions]; try done; try lia.
    + rewrite <- Hdk. eapply keys_insert. exact Hd.
    + apply Forall_insert; [exact Hdp|]. unfold p_amount; simpl. qabs_lra.
    + apply Forall_app; split; [exact Htp|]. repeat constructor. exact Hcredit_pos.
    + rewrite Ed', Ed in *. lra.
    + rewrite Ec in Hcredit. qabs_lra.
Qed.

Lemma walk_inv_reach (ds cs : list party) (s : walk) :
  positive_amounts ds -> positive_amounts cs ->
  rtc step_rel (start ds cs) s -> walk_inv ds cs s.
Proof.
  intros Hd Hc Hr.
  refine (rtc_ind_r (walk_inv ds cs) _ _ _ _ Hr).
  - apply walk_inv_start; assumption.
  - intros y z _ Hyz IH. eapply walk_inv_step; eauto.
Qed.

(** ** Partition and sort *)

Lemma debtors_of_positive (b : balances_t) : positive_amounts (debtors_of b).
Proof.
  induction b as [|[pid data] b IH]; cbn [debtors_of]; [constructor|].
  destruct (Qltb (balance data) 0) eqn:E; [|exact IH].
  apply Qltb_true in E. constructor; [|exact IH].
  unfold p_amount; cbn [snd]. qabs_lra.
Qed.

Lemma creditors_of_positive (b : balances_t) : positive_amounts (creditors_of b).
Proof.
  induction b as [|[pid data] b IH]; cbn [creditors_of]; [constructor|].
  destruct (Qltb (balance data) 0); [exact IH|].
  destruct (Qltb 0 (balance data)) eqn:E; [|exact IH].
  apply Qltb_true in E. constructor; [exact E | exact IH].
Qed.

Lemma insert_desc_perm (x : party) (l : list party) : insert_desc x l ≡ₚ x :: l.
Proof.
  induction l as [|y l IH]; cbn [insert_desc]; [reflexivity|].
  destruct (Qle_bool (p_amount y) (p_amount x)); [reflexivity|].
  rewrite IH. apply Permutation_swap.
Qed.

Lemma sort_desc_perm (l : list party) : sort_desc l ≡ₚ l.
Proof.
  induction l as [|x l IH]; [reflexivity|].
  change (sort_desc (x :: l)) with (insert_desc x (sort_desc l)).
  rewrite insert_desc_perm, IH. reflexivity.
Qed.

Lemma amounts_perm (l l' : list party) : l ≡ₚ l' -> amounts l == amounts l'.
Proof.
  induction 1 as [|x l l' _ IH|x y l|l l' l'' _ IH1 _ IH2].
  - reflexivity.
  - rewrite !amounts_cons. lra.
  - rewrite !amounts_cons. lra.
  - lra.
Qed.

Lemma sort_desc_positive (l : list party) :
  positive_amounts l -> positive_amounts (sort_desc l).
Proof.
  unfold positive_amounts. rewrite !Forall_forall.
  intros H x Hx. apply H. rewrite <- (sort_desc_perm l). exact Hx.
Qed.

Lemma amounts_debtors_of (b : balances_t) : amounts (debtors_of b) == sum_negative b.
Proof.
  induction b as [|[pid data] b IH]; [reflexivity|].
  change (sum_negative ((pid, data) :: b))
    with ((if Qltb (balance data) 0 then - balance data else 0) + sum_negative b).
  cbn [debtors_of].
  destruct (Qltb (balance data) 0) eqn:E.
  - apply Qltb_true in E. rewrite amounts_cons. unfold p_amount; cbn [snd]. qabs_lra.
  - lra.
Qed.

Lemma amounts_creditors_of (b : balances_t) : amounts (creditors_of b) == sum_positive b.
Proof.
  induction b as [|[pid data] b IH]; [reflexivity|].
  change (sum_positive ((pid, data) :: b))
    with ((if Qltb 0 (balance data) then balance data else 0) + sum_positive b).
  cbn [creditors_of].
  destruct (Qltb (balance data) 0) eqn:E1.
  - apply Qltb_true in E1.
    destruct (Qltb 0 (balance data)) eqn:E2; [apply Qltb_true in E2; lra | lra].
  - destruct (Qltb 0 (balance data)) eqn:E2.
    + rewrite amounts_cons. unfold p_amount; cbn [snd]. lra.
    + lra.
Qed.

Lemma sum_balances_split (b : balances_t) :
  sum_balances b == sum_positive b - sum_negative b.
Proof.
  induction b as [|[pid data] b IH]; [reflexivity|].
  change (sum_positive ((pid, data) :: b))
    with ((if Qltb 0 (balance data) then balance data else 0) + sum_positive b).
  change (sum_negative ((pid, data) :: b))
    with ((if Qltb (balance data) 0 then - balance data else 0) + sum_negative b).
  change (sum_balances ((pid, data) :: b)) with (balance data + sum_balances b).
  destruct (Qltb (balance data) 0) eqn:E1; destruct (Qltb 0 (balance data)) eqn:E2;
    try apply Qltb_true in E1; try apply Qltb_true in E2;
    try apply Qltb_false in E1; try apply Qltb_false in E2; lra.
Qed.

(** ** The finished walk *)

Lemma settle_reach (b : balances_t) :
  rtc step_rel (start (sort_desc (debtors_of b)) (sort_desc (creditors_of b))) (settle b).
Proof. apply run_reach. Qed.

Lemma settle_done (b : balances_t) : step (settle b) = None.
Proof. unfold settle. apply run_done. unfold measure, start; cbn. lia. Qed.

Lemma settle_inv (b : balances_t) :
  walk_inv (sort_desc (debtors_of b)) (sort_desc (creditors_of b)) (settle b).
Proof.
  apply walk_inv_reach.
  - apply sort_desc_positive, debtors_of_positive.
  - apply sort_desc_positive, creditors_of_positive.
  - apply settle_reach.
Qed.

Lemma walk_inv_lengths (ds cs : list party) (s : walk) :
  walk_inv ds cs s ->
  length (debtors s) = length ds /\ length (creditors s) = length cs.
Proof.
  intros [Hdk Hck _ _ _ _ _ _ _]. split.
  - rewrite <- (length_fmap fst (debtors s)), Hdk, length_fmap. reflexivity.
  - rewrite <- (length_fmap fst (creditors s)), Hck, length_fmap. reflexivity.
Qed.

Lemma amounts_drop_all (l : list party) (k : nat) :
  (length l <= k)%nat -> amounts (drop k l) = 0.
Proof. intros H. rewrite drop_ge by exact H. reflexivity. Qed.

Lemma amounts_drop_nonneg (l : list party) (k : nat) :
  positive_amounts l -> 0 <= amounts (drop k l).
Proof. intros H. apply amounts_nonneg. apply Forall_drop. exact H. Qed.

(** The totals a finished walk leaves: what was emitted never exceeds the
    debts; it is all the debts when a creditor is left at the cursor, and
    otherwise misses the credits by at most [epsilon] per creditor. *)
Lemma finished_totals (ds cs : list party) (s : walk) :
  walk_inv ds cs s -> step s = None ->
  total (transactions s) <= amounts ds /\
  ((total (transactions s) == amounts ds /\ (0 < length cs)%nat) \/
   Qabs (total (transactions s) - amounts cs) <= epsilon * Qnat (length cs)).
Proof.
  intros Hinv Hdone.
  destruct (walk_inv_lengths _ _ _ Hinv) as [Hld Hlc].
  destruct Hinv as [_ _ Hdp Hcp _ Hi Hj Hdebt Hcredit].
  pose proof (amounts_drop_nonneg _ (i s) Hdp) as Hrd.
  split; [lra|].
  apply step_None in Hdone.
  destruct (decide (j s < length (creditors s))%nat) as [Hjl|Hjl].
  - left. rewrite amounts_drop_all in Hdebt by lia. split; [lra | lia].
  - right. rewrite amounts_drop_all in Hcredit by lia.
    assert (Hq : Qnat (j s) <= Qnat (length cs)) by (apply Qnat_le; lia).
    qabs_lra.
Qed.

Lemma sorted_debtors_amounts (b : balances_t) :
  amounts (sort_desc (debtors_of b)) == sum_negative b.
Proof. rewrite (amounts_perm _ _ (sort_desc_perm _)). apply amounts_debtors_of. Qed.

Lemma sorted_creditors_amounts (b : balances_t) :
  amounts (sort_desc (creditors_of b)) == sum_positive b.
Proof. rewrite (amounts_perm _ _ (sort_desc_perm _)). apply amounts_creditors_of. Qed.

Lemma sort_desc_length (l : list party) : length (sort_desc l) = length l.
Proof. apply Permutation_length, sort_desc_perm. Qed.

(** ** C1: the total of the plan *)

(** C1, as stated, fails: with credits 10, 10 and debts 9.991, 9.991, 0.018
    the balances sum to 0, both near-equal matches emit 9.991, the last
    debtor is dropped, and the plan totals 19.982 against credits of 20. *)
Lemma C1_counterexample :
  sum_balances drifting_balances == 0 /\
  total (plan_settlement drifting_balances) == 19982 # 1000 /\
  sum_positive drifting_balances == 20 /\
  ~ Qabs (total (plan_settlement drifting_balances) - sum_positive drifting_balances)
    <= epsilon.
Proof.
  repeat split; try (vm_compute; reflexivity).
  intros H. apply Qle_bool_iff in H. vm_compute in H. discriminate.
Qed.

(** C1, amended: when the signed balances sum to within [epsilon] of 0, the
    total of the emitted transactions is within [epsilon] times the number
    of creditors of the sum of the strictly positive balances, and exceeds
    that sum by at most [epsilon]. *)
Theorem C1_total_within_epsilon_per_creditor (balances : balances_t) :
  Qabs (sum_balances balances) <= epsilon ->
  Qabs (total (plan_settlement balances) - sum_positive balances)
    <= epsilon * Qnat (length (creditors_of balances)) /\
  total (plan_settlement balances) <= sum_positive balances + epsilon.
Proof.
  intros Hsum.
  destruct (finished_totals _ _ _ (settle_inv balances) (settle_done balances))
    as [Hle Hcases].
  fold (plan_settlement balances) in Hle, Hcases.
  rewrite sort_desc_length in Hcases.
  pose proof (sorted_debtors_amounts balances) as Ed.
  pose proof (sorted_creditors_amounts balances) as Ec.
  pose proof (sum_balances_split balances) as Es.
  split; [|qabs_lra].
  destruct Hcases as [[Heq Hpos]|Hnear].
  - assert (Hq : Qnat 1 <= Qnat (length (creditors_of balances)))
      by (apply Qnat_le; lia).
    change (Qnat 1) with 1 in Hq. qabs_lra.
  - qabs_lra.
Qed.

Lemma C1_total_within_epsilon_per_creditor_witness :
  Qabs (sum_balances drifting_balances) <= epsilon /\
  Qabs (total (plan_settlement drifting_balances) - sum_positive drifting_balances)
    <= epsilon * Qnat (length (creditors_of drifting_balances)).
Proof.
  assert (H : Qabs (sum_balances drifting_balances) <= epsilon)
    by (apply Qle_bool_iff; vm_compute; reflexivity).
  split; [exact H|].
  exact (proj1 (C1_total_within_epsilon_per_creditor drifting_balances H)).
Defined.

(** ** Dictionaries and the partition *)

Lemma ids_keys (l : list party) : ids l = (l.*1).*1.
Proof. unfold ids. rewrite <- list_fmap_compose. reflexivity. Qed.

Lemma get_elem (b : balances_t) (p : Z) (e : entry) :
  Dict.get p b = Some e -> (p, e) ∈ b.
Proof.
  induction b as [|[k v] b IH]; cbn [Dict.get]; [discriminate|].
  destruct (Z.eqb_spec p k) as [->|Hne].
  - intros [= ->]. apply list_elem_of_here.
  - intros H. apply list_elem_of_further, IH, H.
Qed.

Lemma elem_get (b : balances_t) (p : Z) (e : entry) :
  NoDup (Dict.keys b) -> (p, e) ∈ b -> Dict.get p b = Some e.
Proof.
  unfold Dict.keys.
  induction b as [|[k v] b IH]; intros Hnd Hin; [inversion Hin|].
  cbn [Dict.get]. apply NoDup_cons in Hnd as [Hk Hnd].
  apply elem_of_cons in Hin as [[= -> ->]|Hin].
  - rewrite Z.eqb_refl. reflexivity.
  - destruct (Z.eqb_spec p k) as [->|Hne]; [|apply IH; assumption].
    exfalso. apply Hk. apply list_elem_of_fmap. exists (k, e). split; [reflexivity|exact Hin].
Qed.

Lemma debtors_of_elem (b : balances_t) (x : party) :
  x ∈ debtors_of b <->
  exists e, (p_id x, e) ∈ b /\ balance e < 0 /\
            p_name x = name e /\ p_amount x = Qabs (balance e).
Proof.
  induction b as [|[k v] b IH]; cbn [debtors_of].
  - split; [intros H; inversion H | intros (e & H & _); inversion H].
  - destruct (Qltb (balance v) 0) eqn:E.
    + apply Qltb_true in E. rewrite elem_of_cons, IH. split.
      * intros [->|(e & Hin & Hrest)].
        -- exists v. split; [apply list_elem_of_here | auto].
        -- exists e. split; [apply list_elem_of_further, Hin | exact Hrest].
      * intros (e & Hin & Hlt & Hn & Ha).
        apply elem_of_cons in Hin as [[= Hk ->]|Hin].
        -- left. destruct x as [[xi xn] xa]. cbn in *. congruence.
        -- right. exists e. auto.
    + apply Qltb_false in E. rewrite IH. split.
      * intros (e & Hin & Hrest). exists e.
        split; [apply list_elem_of_further, Hin | exact Hrest].
      * intros (e & Hin & Hlt & Hrest).
        apply elem_of_cons in Hin as [[= Hk ->]|Hin]; [lra|].
        exists e. auto.
Qed.

Lemma creditors_of_elem (b : balances_t) (x : party) :
  x ∈ creditors_of b <->
  exists e, (p_id x, e) ∈ b /\ 0 < balance e /\
            p_name x = name e /\ p_amount x = balance e.
Proof.
  induction b as [|[k v] b IH]; cbn [creditors_of].
  - split; [intros H; inversion H | intros (e & H & _); inversion H].
  - destruct (Qltb (balance v) 0) eqn:E1; [|destruct (Qltb 0 (balance v)) eqn:E2].
    + apply Qltb_true in E1. rewrite IH. split.
      * intros (e & Hin & Hrest). exists e.
        split; [apply list_elem_of_further, Hin | exact Hrest].
      * intros (e & Hin & Hlt & Hrest).
        apply elem_of_cons in Hin as [[= Hk ->]|Hin]; [lra|].
        exists e. auto.
    + apply Qltb_true in E2. rewrite elem_of_cons, IH. split.
      * intros [->|(e & Hin & Hrest)].
        -- exists v. split; [apply list_elem_of_here | auto].
        -- exists e. split; [apply list_elem_of_further, Hin | exact Hrest].
      * intros (e & Hin & Hlt & Hn & Ha).
        apply elem_of_cons in Hin as [[= Hk ->]|Hin].
        -- left. destruct x as [[xi xn] xa]. cbn in *. congruence.
        -- right. exists e. auto.
    + apply Qltb_false in E2. rewrite IH. split.
      * intros (e & Hin & Hrest). exists e.
        split; [apply list_elem_of_further, Hin | exact Hrest].
      * intros (e & Hin & Hlt & Hrest).
        apply elem_of_cons in Hin as [[= Hk ->]|Hin]; [lra|].
        exists e. auto.
Qed.

Lemma ids_debtors_of_keys (b : balances_t) (p : Z) :
  p ∈ ids (debtors_of b) -> p ∈ Dict.keys b.
Proof.
  unfold ids, Dict.keys. rewrite !list_elem_of_fmap.
  intros (x & -> & Hx). apply debtors_of_elem in Hx as (e & Hin & _).
  exists (p_id x, e). split; [reflexivity | exact Hin].
Qed.

Lemma ids_creditors_of_keys (b : balances_t) (p : Z) :
  p ∈ ids (creditors_of b) -> p ∈ Dict.keys b.
Proof.
  unfold ids, Dict.keys. rewrite !list_elem_of_fmap.
  intros (x & -> & Hx). apply creditors_of_elem in Hx as (e & Hin & _).
  exists (p_id x, e). split; [reflexivity | exact Hin].
Qed.

Lemma ids_debtors_of_NoDup (b : balances_t) :
  NoDup (Dict.keys b) -> NoDup (ids (debtors_of b)).
Proof.
  induction b as [|[k v] b IH]; intros Hnd; [constructor|].
  apply NoDup_cons in Hnd as [Hk Hnd]. cbn [debtors_of].
  destruct (Qltb (balance v) 0); [|apply IH, Hnd].
  apply NoDup_cons. split; [|apply IH, Hnd].
  intros Hin. apply Hk. apply ids_debtors_of_keys, Hin.
Qed.

Lemma ids_creditors_of_NoDup (b : balances_t) :
  NoDup (Dict.keys b) -> NoDup (ids (creditors_of b)).
Proof.
  induction b as [|[k v] b IH]; intros Hnd; [constructor|].
  apply NoDup_cons in Hnd as [Hk Hnd]. cbn [creditors_of].
  destruct (Qltb (balance v) 0); [apply IH, Hnd|].
  destruct (Qltb 0 (balance v)); [|apply IH, Hnd].
  apply NoDup_cons. split; [|apply IH, Hnd].
  intros Hin. apply Hk. apply ids_creditors_of_keys, Hin.
Qed.

Lemma ids_sort_desc (l : list party) : ids (sort_desc l) ≡ₚ ids l.
Proof. unfold ids. rewrite sort_desc_perm. reflexivity. Qed.

(** A debtor id of the partition is a person with a negative balance. *)
Lemma debtor_id_balance (b : balances_t) (p : Z) :
  NoDup (Dict.keys b) -> p ∈ ids (sort_desc (debtors_of b)) ->
  exists e, Dict.get p b = Some e /\ balance e < 0.
Proof.
  intros Hnd Hin. rewrite ids_sort_desc in Hin.
  apply list_elem_of_fmap in Hin as (x & -> & Hx).
  apply debtors_of_elem in Hx as (e & Hin & Hlt & _).
  exists e. split; [apply elem_get; assumption | exact Hlt].
Qed.

(** A creditor id of the partition is a person with a positive balance. *)
Lemma creditor_id_balance (b : balances_t) (p : Z) :
  NoDup (Dict.keys b) -> p ∈ ids (sort_desc (creditors_of b)) ->
  exists e, Dict.get p b = Some e /\ 0 < balance e.
Proof.
  intros Hnd Hin. rewrite ids_sort_desc in Hin.
  apply list_elem_of_fmap in Hin as (x & -> & Hx).
  apply creditors_of_elem in Hx as (e & Hin & Hlt & _).
  exists e. split; [apply elem_get; assumption | exact Hlt].
Qed.

(** ** Who the emitted transactions name *)

Lemma elem_of_drop_lookup {A : Type} (l : list A) (n k : nat) (x : A) :
  l !! k = Some x -> (n <= k)%nat -> x ∈ drop n l.
Proof.
  intros H Hle. apply (list_elem_of_lookup_2 _ (k - n)).
  rewrite lookup_drop. replace (n + (k - n))%nat with k by lia. exact H.
Qed.

Lemma elem_of_drop_weaken {A : Type} (l : list A) (n m : nat) (x : A) :
  x ∈ drop m l -> (n <= m)%nat -> x ∈ drop n l.
Proof.
  intros H Hle. apply list_elem_of_lookup_1 in H as [k Hk].
  rewrite lookup_drop in Hk. eapply elem_of_drop_lookup; [exact Hk | lia].
Qed.

Lemma step_emits (s s' : walk) :
  step s = Some s' ->
  ids (debtors s') = ids (debtors s) /\ ids (creditors s') = ids (creditors s) /\
  exists t, transactions s' = transactions s ++ [t] /\
            ids (debtors s) !! i s = Some (t_debtor t) /\
            ids (creditors s) !! j s = Some (t_creditor t).
Proof.
  intros H. apply step_inv in H. rewrite !ids_keys.
  destruct H as [did dn debt cid cn credit Hd Hc _
                |did dn debt cid cn credit Hd Hc _ _
                |did dn debt cid cn credit Hd Hc _ _];
    cbn [debtors creditors i j transactions];
    rewrite ?(keys_insert _ _ _ _ _ Hd), ?(keys_insert _ _ _ _ _ Hc);
    (split; [reflexivity|]); (split; [reflexivity|]);
    eexists; (split; [reflexivity|]);
    rewrite !list_lookup_fmap, Hd, Hc; split; reflexivity.
Qed.

(** Everything emitted from state [s] on is between a debtor at or after
    cursor [i] and a creditor at or after cursor [j]. *)
Lemma reach_later (s s' : walk) :
  rtc step_rel s s' ->
  ids (debtors s') = ids (debtors s) /\ ids (creditors s') = ids (creditors s) /\
  (i s <= i s')%nat /\ (j s <= j s')%nat /\
  exists later, transactions s' = transactions s ++ later /\
    Forall (fun t => t_debtor t ∈ drop (i s) (ids (debtors s)) /\
                     t_creditor t ∈ drop (j s) (ids (creditors s))) later.
Proof.
  intros Hr.
  refine (rtc_ind_r (fun s' => _) s _ _ s' Hr); cbn beta.
  - repeat split; try lia. exists []. rewrite app_nil_r. split; [reflexivity|constructor].
  - intros y z _ Hyz (Hd & Hc & Hi & Hj & later & Ht & Hall).
    destruct (step_emits _ _ Hyz) as (Hd' & Hc' & t & Ht' & Htd & Htc).
    destruct (step_advances _ _ Hyz) as (_ & _ & Hi' & Hj' & _).
    repeat split; try congruence; try lia.
    exists (later ++ [t]). split.
    + rewrite Ht', Ht, app_assoc. reflexivity.
    + apply Forall_app. split; [exact Hall|]. repeat constructor.
      * rewrite Hd in Htd. eapply elem_of_drop_lookup; eauto.
      * rewrite Hc in Htc. eapply elem_of_drop_lookup; eauto.
Qed.

(** The walk is deterministic: a finished state is reached from every
    state on the way. *)
Lemma reach_finished (x y z : walk) :
  rtc step_rel x y -> rtc step_rel x z -> step z = None -> rtc step_rel y z.
Proof.
  intros Hxy. revert z. induction Hxy as [x|x x1 y Hx _ IH]; intros z Hxz Hz.
  - exact Hxz.
  - apply IH; [|exact Hz]. apply rtc_inv in Hxz as [->|(x1' & Hx' & Hrest)].
    + unfold step_rel in Hx. congruence.
    + unfold step_rel in Hx, Hx'. congruence.
Qed.

Lemma plan_parties (b : balances_t) (t : transaction) :
  t ∈ plan_settlement b ->
  t_debtor t ∈ ids (sort_desc (debtors_of b)) /\
  t_creditor t ∈ ids (sort_desc (creditors_of b)).
Proof.
  intros Hin.
  destruct (reach_later _ _ (settle_reach b)) as (_ & _ & _ & _ & later & Ht & Hall).
  cbn [start transactions debtors creditors i j] in Ht, Hall.
  rewrite !drop_0 in Hall. rewrite app_nil_l in Ht.
  unfold plan_settlement in Hin. rewrite Ht in Hin.
  rewrite Forall_forall in Hall. apply Hall, Hin.
Qed.

(** ** C7: amounts are positive *)

(** C7: every transaction of the plan has a strictly positive amount. *)
Theorem C7_amounts_positive (balances : balances_t) (t : transaction) :
  t ∈ plan_settlement balances -> 0 < t_amount t.
Proof.
  intros Hin. pose proof (inv_tpos _ _ _ (settle_inv balances)) as H.
  rewrite Forall_forall in H. apply H, Hin.
Qed.

Lemma C7_amounts_positive_witness :
  (2%Z, "Bob"%string, 1%Z, "Alice"%string, 10) ∈ plan_settlement balances_A /\
  0 < 10.
Proof.
  assert (H : (2%Z, "Bob"%string, 1%Z, "Alice"%string, 10) ∈ plan_settlement balances_A)
    by (vm_compute; apply list_elem_of_here).
  split; [exact H|]. exact (C7_amounts_positive _ _ H).
Defined.

(** ** C10: debtor and creditor differ *)

(** C10: in a plan computed from a dictionary of balances, the debtor of
    every transaction has a strictly negative balance, the creditor a
    strictly positive one, and the two are different persons. *)
Theorem C10_debtor_creditor_distinct (balances : balances_t) (t : transaction) :
  NoDup (Dict.keys balances) ->
  t ∈ plan_settlement balances ->
  (exists e, Dict.get (t_debtor t) balances = Some e /\ balance e < 0) /\
  (exists e, Dict.get (t_creditor t) balances = Some e /\ 0 < balance e) /\
  t_debtor t <> t_creditor t.
Proof.
  intros Hnd Hin. apply plan_parties in Hin as [Hd Hc].
  destruct (debtor_id_balance _ _ Hnd Hd) as (ed & Hgd & Hlt).
  destruct (creditor_id_balance _ _ Hnd Hc) as (ec & Hgc & Hgt).
  split; [eauto|]. split; [eauto|].
  intros Heq. rewrite Heq in Hgd. rewrite Hgd in Hgc. injection Hgc as ->. lra.
Qed.

Lemma balances_A_NoDup : NoDup (Dict.keys balances_A).
Proof. apply (bool_decide_unpack _). vm_compute. reflexivity. Defined.

Lemma C10_debtor_creditor_distinct_witness :
  NoDup (Dict.keys balances_A) /\
  (3%Z, "Carol"%string, 1%Z, "Alice"%string, 10) ∈ plan_settlement balances_A /\
  3%Z <> 1%Z.
Proof.
  assert (H : (3%Z, "Carol"%string, 1%Z, "Alice"%string, 10) ∈ plan_settlement balances_A)
    by (vm_compute; apply list_elem_of_further, list_elem_of_here).
  split; [exact balances_A_NoDup|]. split; [exact H|].
  exact (proj2 (proj2 (C10_debtor_creditor_distinct _ _ balances_A_NoDup H))).
Defined.

(** ** C3: settled persons *)

(** C3, as stated, fails: the partition compares with 0, not with
    [epsilon]. A balance of -0.005 is within [epsilon] of 0, yet its owner
    is a debtor and the plan has them pay 0.005. *)
Lemma C3_counterexample :
  NoDup (Dict.keys near_zero_balances) /\
  Dict.get 1%Z near_zero_balances = Some (entry_of "A" (- (5 # 1000))) /\
  Qabs (balance (entry_of "A" (- (5 # 1000)))) < epsilon /\
  1%Z ∈ ids (debtors_of near_zero_balances) /\
  plan_settlement near_zero_balances =
    [(1%Z, "A"%string, 2%Z, "B"%string, 5 # 1000)].
Proof.
  split; [apply (bool_decide_unpack _); vm_compute; reflexivity|].
  split; [reflexivity|].
  split; [apply Qltb_true; vm_compute; reflexivity|].
  split; [vm_compute; apply list_elem_of_here|].
  vm_compute. reflexivity.
Qed.

(** C3, amended: a person whose balance is exactly 0 is in neither the
    debtor list nor the creditor list, and no transaction of the plan
    names them as debtor or as creditor. *)
Theorem C3_zero_balance_unreferenced (balances : balances_t) (p : Z) (e : entry) :
  NoDup (Dict.keys balances) ->
  Dict.get p balances = Some e ->
  balance e == 0 ->
  (p ∉ ids (debtors_of balances)) /\
  (p ∉ ids (creditors_of balances)) /\
  forall t, t ∈ plan_settlement balances -> t_debtor t <> p /\ t_creditor t <> p.
Proof.
  intros Hnd Hget Hzero.
  assert (Hd : p ∉ ids (sort_desc (debtors_of balances))).
  { intros Hin. destruct (debtor_id_balance _ _ Hnd Hin) as (e' & Hg & Hlt).
    rewrite Hget in Hg. injection Hg as <-. lra. }
  assert (Hc : p ∉ ids (sort_desc (creditors_of balances))).
  { intros Hin. destruct (creditor_id_balance _ _ Hnd Hin) as (e' & Hg & Hgt).
    rewrite Hget in Hg. injection Hg as <-. lra. }
  split; [rewrite <- ids_sort_desc; exact Hd|].
  split; [rewrite <- ids_sort_desc; exact Hc|].
  intros t Hin. apply plan_parties in Hin as [Htd Htc].
  split; intros <-; [apply Hd, Htd | apply Hc, Htc].
Qed.

Lemma C3_zero_balance_unreferenced_witness :
  NoDup (Dict.keys balances_with_zero) /\
  Dict.get 2%Z balances_with_zero = Some (entry_of "Y" 0) /\
  balance (entry_of "Y" 0) == 0 /\
  (2%Z ∉ ids (debtors_of balances_with_zero)) /\
  (2%Z ∉ ids (creditors_of balances_with_zero)).
Proof.
  assert (Hnd : NoDup (Dict.keys balances_with_zero))
    by (apply (bool_decide_unpack _); vm_compute; reflexivity).
  assert (Hget : Dict.get 2%Z balances_with_zero = Some (entry_of "Y" 0))
    by reflexivity.
  assert (Hz : balance (entry_of "Y" 0) == 0) by reflexivity.
  split; [exact Hnd|]. split; [exact Hget|]. split; [exact Hz|].
  pose proof (C3_zero_balance_unreferenced _ _ _ Hnd Hget Hz) as (H1 & H2 & _).
  split; [exact H1 | exact H2].
Defined.

(** ** C8: the near-equal branch *)

Lemma NoDup_not_later {A : Type} (l : list A) (k : nat) (x : A) :
  NoDup l -> l !! k = Some x -> x ∉ drop (S k) l.
Proof.
  intros Hnd Hk Hin. apply list_elem_of_lookup_1 in Hin as [n Hn].
  rewrite lookup_drop in Hn.
  pose proof (NoDup_lookup _ _ _ _ Hnd Hk Hn). lia.
Qed.

(** C8: at any state of the walk where the current debt and the current
    credit differ by less than [epsilon], the iteration emits the single
    transaction of the debtor's remaining amount, advances both cursors and
    leaves both lists as they are; the rest of the plan names neither that
    debtor as payer nor that creditor as recipient. *)
Theorem C8_near_equal_settles_both (balances : balances_t) (s : walk)
    (did : Z) (dn : string) (debt : Q) (cid : Z) (cn : string) (credit : Q) :
  NoDup (Dict.keys balances) ->
  rtc step_rel
    (start (sort_desc (debtors_of balances)) (sort_desc (creditors_of balances))) s ->
  debtors s !! i s = Some (did, dn, debt) ->
  creditors s !! j s = Some (cid, cn, credit) ->
  Qabs (debt - credit) < epsilon ->
  exists s',
    step s = Some s' /\
    transactions s' = transactions s ++ [(did, dn, cid, cn, debt)] /\
    i s' = S (i s) /\ j s' = S (j s) /\
    debtors s' = debtors s /\ creditors s' = creditors s /\
    exists later,
      plan_settlement balances = transactions s ++ [(did, dn, cid, cn, debt)] ++ later /\
      forall t, t ∈ later -> t_debtor t <> did /\ t_creditor t <> cid.
Proof.
  intros Hnd Hreach Hd Hc Hnear.
  assert (Hstep : step s =
    Some {| debtors := debtors s; creditors := creditors s;
            i := S (i s); j := S (j s);
            transactions := transactions s ++ [(did, dn, cid, cn, debt)] |}).
  { unfold step. rewrite Hd, Hc.
    apply Qltb_true in Hnear. rewrite Hnear. reflexivity. }
  eexists. split; [exact Hstep|]. cbn [debtors creditors i j transactions].
  repeat (split; [reflexivity|]).
  assert (Hrest : rtc step_rel
    {| debtors := debtors s; creditors := creditors s;
       i := S (i s); j := S (j s);
       transactions := transactions s ++ [(did, dn, cid, cn, debt)] |} (settle balances)).
  { eapply reach_finished; [|apply settle_reach|apply settle_done].
    eapply rtc_r; [exact Hreach | exact Hstep]. }
  destruct (reach_later _ _ Hrest) as (_ & _ & _ & _ & later & Ht & Hall).
  cbn [debtors creditors i j transactions] in Ht, Hall.
  exists later. split.
  - unfold plan_settlement. rewrite Ht, <- app_assoc. reflexivity.
  - destruct (reach_later _ _ Hreach) as (Hids_d & Hids_c & _).
    cbn [start debtors creditors] in Hids_d, Hids_c.
    assert (Hnd_d : NoDup (ids (debtors s))).
    { rewrite Hids_d, ids_sort_desc. apply ids_debtors_of_NoDup, Hnd. }
    assert (Hnd_c : NoDup (ids (creditors s))).
    { rewrite Hids_c, ids_sort_desc. apply ids_creditors_of_NoDup, Hnd. }
    assert (Hdi : ids (debtors s) !! i s = Some did)
      by (unfold ids; rewrite list_lookup_fmap, Hd; reflexivity).
    assert (Hcj : ids (creditors s) !! j s = Some cid)
      by (unfold ids; rewrite list_lookup_fmap, Hc; reflexivity).
    rewrite Forall_forall in Hall.
    intros t Hin. destruct (Hall t Hin) as [Htd Htc].
    split; intros Heq; rewrite Heq in *.
    + exact (NoDup_not_later _ _ _ Hnd_d Hdi Htd).
    + exact (NoDup_not_later _ _ _ Hnd_c Hcj Htc).
Qed.

Lemma drifting_balances_NoDup : NoDup (Dict.keys drifting_balances).
Proof. apply (bool_decide_unpack _). vm_compute. reflexivity. Defined.

Lemma C8_near_equal_settles_both_witness :
  Qabs ((9991 # 1000) - 10) < epsilon /\
  exists s',
    step (start (sort_desc (debtors_of drifting_balances))
                (sort_desc (creditors_of drifting_balances))) = Some s' /\
    transactions s' = [(3%Z, "P"%string, 1%Z, "A"%string, 9991 # 1000)] /\
    i s' = 1%nat /\ j s' = 1%nat.
Proof.
  assert (Hnear : Qabs ((9991 # 1000) - 10) < epsilon)
    by (apply Qltb_true; vm_compute; reflexivity).
  split; [exact Hnear|].
  destruct (C8_near_equal_settles_both drifting_balances
              (start (sort_desc (debtors_of drifting_balances))
                     (sort_desc (creditors_of drifting_balances)))
              3%Z "P"%string (9991 # 1000) 1%Z "A"%string 10
              drifting_balances_NoDup (rtc_refl _ _) eq_refl eq_refl Hnear)
    as (s' & Hstep & Ht & Hi & Hj & _).
  exists s'. repeat split; assumption.
Defined.

(** ** Per-person accounts *)

Lemma total_app (a b : list transaction) : total (a ++ b) == total a + total b.
Proof. unfold total. rewrite map_app. apply Qsum_app. Qed.

Lemma outgoing_snoc (p : Z) (txs : list transaction) (t : transaction) :
  outgoing p (txs ++ [t]) ==
  outgoing p txs + (if decide (t_debtor t = p) then t_amount t else 0).
Proof.
  unfold outgoing. rewrite filter_app, total_app, filter_cons, filter_nil.
  destruct (decide (t_debtor t = p)).
  - change (total [t]) with (t_amount t + 0). lra.
  - change (total []) with 0. lra.
Qed.

Lemma incoming_snoc (p : Z) (txs : list transaction) (t : transaction) :
  incoming p (txs ++ [t]) ==
  incoming p txs + (if decide (t_creditor t = p) then t_amount t else 0).
Proof.
  unfold incoming. rewrite filter_app, total_app, filter_cons, filter_nil.
  destruct (decide (t_creditor t = p)).
  - change (total [t]) with (t_amount t + 0). lra.
  - change (total []) with 0. lra.
Qed.

Lemma ids_lookup (l : list party) (k : nat) (p : Z) (n : string) (q : Q) :
  l !! k = Some (p, n, q) -> ids l !! k = Some p.
Proof. intros H. unfold ids. rewrite list_lookup_fmap, H. reflexivity. Qed.

(** Two positions of a list with distinct ids hold different persons. *)
Lemma other_position (l l' : list party) (k k' : nat)
    (p p' : Z) (n n' : string) (q q' : Q) :
  NoDup (ids l) -> l'.*1 = l.*1 ->
  l !! k = Some (p, n, q) -> l' !! k' = Some (p', n', q') ->
  k <> k' -> p' <> p.
Proof.
  intros Hnd Hkeys Hk Hk' Hne ->.
  apply ids_lookup in Hk, Hk'.
  rewrite ids_keys, Hkeys, <- ids_keys in Hk'.
  apply Hne. eapply NoDup_lookup; eauto.
Qed.

Ltac decide_cursor :=
  repeat match goal with
  | H : context [decide (?a < ?b)%nat] |- _ => destruct (decide (a < b)%nat); try lia
  | |- context [decide (?a < ?b)%nat] => destruct (decide (a < b)%nat); try lia
  end.

Lemma debtor_account_step (ds cs : list party) (s s' : walk) :
  NoDup (ids ds) -> walk_inv ds cs s -> debtor_account ds s ->
  step s = Some s' -> debtor_account ds s'.
Proof.
  intros Hnd Hinv Hacc Hstep k p n m Hk.
  destruct (Hacc k p n m Hk) as (r & Hr & Hsum).
  pose proof (inv_dkeys _ _ _ Hinv) as Hkeys.
  apply step_inv in Hstep.
  destruct Hstep as [did dn debt cid cn credit Hd Hc _
                    |did dn debt cid cn credit Hd Hc _ _
                    |did dn debt cid cn credit Hd Hc _ _];
    cbn [debtors creditors i j transactions];
    match goal with
    | |- context [transactions s ++ [?t]] =>
        pose proof (outgoing_snoc p (transactions s) t) as Eo
    end;
    cbn [t_debtor t_amount fst snd] in Eo;
    (destruct (decide (k = i s)) as [->|Hne];
     [ rewrite Hd in Hr; injection Hr as <- <- <-;
       rewrite decide_True in Eo by reflexivity
     | rewrite decide_False in Eo
         by (eapply (other_position ds (debtors s)); eauto) ]).
  - exists debt. split; [exact Hd|]. decide_cursor. lra.
  - exists r. split; [exact Hr|]. decide_cursor; lra.
  - exists debt. split; [exact Hd|]. decide_cursor. lra.
  - exists r. split; [exact Hr|]. decide_cursor; lra.
  - exists (debt - credit). split.
    + apply list_lookup_insert_eq. eapply lookup_lt_Some; eauto.
    + decide_cursor. lra.
  - exists r. split.
    + rewrite list_lookup_insert_ne by congruence. exact Hr.
    + decide_cursor; lra.
Qed.

Lemma creditor_account_step (ds cs : list party) (s s' : walk) :
  NoDup (ids cs) -> walk_inv ds cs s -> creditor_account cs s ->
  step s = Some s' -> creditor_account cs s'.
Proof.
  intros Hnd Hinv Hacc Hstep k p n m Hk.
  destruct (Hacc k p n m Hk) as (r & Hr & Hsum).
  pose proof (inv_ckeys _ _ _ Hinv) as Hkeys.
  apply step_inv in Hstep.
  destruct Hstep as [did dn debt cid cn credit Hd Hc Hnear
                    |did dn debt cid cn credit Hd Hc _ _
                    |did dn debt cid cn credit Hd Hc _ _];
    cbn [debtors creditors i j transactions];
    match goal with
    | |- context [transactions s ++ [?t]] =>
        pose proof (incoming_snoc p (transactions s) t) as Eo
    end;
    cbn [t_creditor t_amount fst snd] in Eo;
    (destruct (decide (k = j s)) as [->|Hne];
     [ rewrite Hc in Hr; injection Hr as <- <- <-;
       rewrite decide_True in Eo by reflexivity
     | rewrite decide_False in Eo
         by (eapply (other_position cs (creditors s)); eauto) ]).
  - exists credit. split; [exact Hc|]. decide_cursor. qabs_lra.
  - exists r. split; [exact Hr|]. decide_cursor; qabs_lra.
  - exists (credit - debt). split.
    + apply list_lookup_insert_eq. eapply lookup_lt_Some; eauto.
    + decide_cursor. lra.
  - exists r. split.
    + rewrite list_lookup_insert_ne by congruence. exact Hr.
    + decide_cursor; qabs_lra.
  - exists credit. split; [exact Hc|]. decide_cursor. qabs_lra.
  - exists r. split; [exact Hr|]. decide_cursor; qabs_lra.
Qed.

Lemma accounts_start (ds cs : list party) :
  debtor_account ds (start ds cs) /\ creditor_account cs (start ds cs).
Proof.
  split; intros k p n m Hk; exists m; cbn [start debtors creditors i j transactions];
    (split; [exact Hk|]); decide_cursor.
  - change (outgoing p []) with 0. lra.
  - change (incoming p []) with 0. lra.
Qed.

Lemma accounts_reach (ds cs : list party) (s : walk) :
  positive_amounts ds -> positive_amounts cs ->
  NoDup (ids ds) -> NoDup (ids cs) ->
  rtc step_rel (start ds cs) s ->
  walk_inv ds cs s /\ debtor_account ds s /\ creditor_account cs s.
Proof.
  intros Hdp Hcp Hnd Hnc Hr.
  refine (rtc_ind_r (fun s => _) _ _ _ s Hr); cbn beta.
  - split; [apply walk_inv_start; assumption | apply accounts_start].
  - intros y z _ Hyz (Hinv & Hda & Hca). split; [|split].
    + eapply walk_inv_step; eauto.
    + eapply debtor_account_step; eauto.
    + eapply creditor_account_step; eauto.
Qed.

Lemma settle_accounts (b : balances_t) :
  NoDup (Dict.keys b) ->
  debtor_account (sort_desc (debtors_of b)) (settle b) /\
  creditor_account (sort_desc (creditors_of b)) (settle b).
Proof.
  intros Hnd. eapply accounts_reach.
  - apply sort_desc_positive, debtors_of_positive.
  - apply sort_desc_positive, creditors_of_positive.
  - rewrite ids_sort_desc. apply ids_debtors_of_NoDup, Hnd.
  - rewrite ids_sort_desc. apply ids_creditors_of_NoDup, Hnd.
  - apply settle_reach.
Qed.

Lemma debtor_position (b : balances_t) (p : Z) (e : entry) :
  Dict.get p b = Some e -> balance e < 0 ->
  exists k, sort_desc (debtors_of b) !! k = Some (p, name e, Qabs (balance e)).
Proof.
  intros Hget Hlt. apply list_elem_of_lookup_1.
  rewrite sort_desc_perm. apply debtors_of_elem.
  exists e. cbn. split; [apply get_elem, Hget | auto].
Qed.

Lemma creditor_position (b : balances_t) (p : Z) (e : entry) :
  Dict.get p b = Some e -> 0 < balance e ->
  exists k, sort_desc (creditors_of b) !! k = Some (p, name e, balance e).
Proof.
  intros Hget Hlt. apply list_elem_of_lookup_1.
  rewrite sort_desc_perm. apply creditors_of_elem.
  exists e. cbn. split; [apply get_elem, Hget | auto].
Qed.

Lemma remaining_bound (l : list party) (c k : nat) (x : party) :
  positive_amounts l -> l !! k = Some x -> (c <= k)%nat ->
  0 < p_amount x /\ p_amount x <= amounts (drop c l).
Proof.
  intros Hpos Hk Hle. split.
  - exact (Forall_lookup_1 _ _ _ _ Hpos Hk).
  - apply amounts_elem; [apply Forall_drop, Hpos|].
    eapply elem_of_drop_lookup; eauto.
Qed.

(** ** C4: what each person pays and receives *)

(** C4, as stated, fails: on the balances that sum to 0 with debts 9.991,
    9.991 and 0.018 against credits 10 and 10, the debtor of 0.018 is
    never reached and pays nothing. *)
Lemma C4_counterexample :
  sum_balances drifting_balances == 0 /\
  Dict.get 5%Z drifting_balances = Some (entry_of "R" (- (18 # 1000))) /\
  outgoing 5%Z (plan_settlement drifting_balances) == 0 /\
  ~ Qabs (outgoing 5%Z (plan_settlement drifting_balances) - (18 # 1000)) <= epsilon.
Proof.
  split; [vm_compute; reflexivity|].
  split; [reflexivity|].
  split; [vm_compute; reflexivity|].
  intros H. apply Qle_bool_iff in H. vm_compute in H. discriminate.
Qed.

(** C4, amended: when the signed balances of a dictionary sum to within
    [epsilon] of 0, a debtor pays in total no more than the magnitude of
    their balance and at most [epsilon] times (number of creditors + 1)
    less, and a creditor receives in total their balance up to [epsilon]
    times (number of creditors + 1). *)
Theorem C4_accounts_within_tolerance (balances : balances_t) (p : Z) (e : entry) :
  NoDup (Dict.keys balances) ->
  Qabs (sum_balances balances) <= epsilon ->
  Dict.get p balances = Some e ->
  (balance e < 0 ->
   outgoing p (plan_settlement balances) <= - balance e /\
   - balance e - outgoing p (plan_settlement balances)
     <= epsilon * Qnat (S (length (creditors_of balances)))) /\
  (0 < balance e ->
   Qabs (incoming p (plan_settlement balances) - balance e)
     <= epsilon * Qnat (S (length (creditors_of balances)))).
Proof.
  intros Hnd Hsum Hget.
  destruct (settle_accounts balances Hnd) as [Hda Hca].
  pose proof (settle_inv balances) as Hinv.
  destruct (walk_inv_lengths _ _ _ Hinv) as [Hld Hlc].
  pose proof (settle_done balances) as Hdone. apply step_None in Hdone.
  destruct Hinv as [_ _ Hdp Hcp _ Hi Hj Hdebt Hcredit].
  fold (plan_settlement balances) in Hdebt, Hcredit.
  rewrite sort_desc_length in Hj, Hlc.
  pose proof (sorted_debtors_amounts balances) as Ed.
  pose proof (sorted_creditors_amounts balances) as Ec.
  pose proof (sum_balances_split balances) as Es.
  pose proof (Qnat_S (length (creditors_of balances))) as En.
  pose proof (Qnat_nonneg (length (creditors_of balances))) as En0.
  assert (Hq : Qnat (j (settle balances)) <= Qnat (length (creditors_of balances)))
    by (apply Qnat_le; lia).
  pose proof (amounts_drop_nonneg _ (i (settle balances)) Hdp) as Hrd.
  pose proof (amounts_drop_nonneg _ (j (settle balances)) Hcp) as Hrc.
  split; intros Hsign.
  - destruct (debtor_position _ _ _ Hget Hsign) as [k Hk].
    destruct (Hda _ _ _ _ Hk) as (r & Hr & Hacc).
    fold (plan_settlement balances) in Hacc.
    destruct (decide (k < i (settle balances))%nat) as [Hlt|Hge].
    + split; qabs_lra.
    + destruct (remaining_bound _ (i (settle balances)) _ _ Hdp Hr) as [Hr0 Hrle];
        [lia|]. unfold p_amount in Hr0, Hrle; cbn [snd] in Hr0, Hrle.
      assert (Hjl : (length (creditors (settle balances)) <= j (settle balances))%nat).
      { apply lookup_lt_Some in Hr. lia. }
      rewrite (amounts_drop_all _ _ Hjl) in Hcredit.
      split; qabs_lra.
  - destruct (creditor_position _ _ _ Hget Hsign) as [k Hk].
    destruct (Hca _ _ _ _ Hk) as (r & Hr & Hacc).
    fold (plan_settlement balances) in Hacc.
    destruct (decide (k < j (settle balances))%nat) as [Hlt|Hge].
    + qabs_lra.
    + destruct (remaining_bound _ (j (settle balances)) _ _ Hcp Hr) as [Hr0 Hrle];
        [lia|]. unfold p_amount in Hr0, Hrle; cbn [snd] in Hr0, Hrle.
      assert (Hil : (length (debtors (settle balances)) <= i (settle balances))%nat).
      { apply lookup_lt_Some in Hr. lia. }
      rewrite (amounts_drop_all _ _ Hil) in Hdebt.
      qabs_lra.
Qed.

Lemma C4_accounts_within_tolerance_witness :
  NoDup (Dict.keys drifting_balances) /\
  Qabs (sum_balances drifting_balances) <= epsilon /\
  Dict.get 5%Z drifting_balances = Some (entry_of "R" (- (18 # 1000))) /\
  balance (entry_of "R" (- (18 # 1000))) < 0 /\
  - balance (entry_of "R" (- (18 # 1000)))
    - outgoing 5%Z (plan_settlement drifting_balances)
    <= epsilon * Qnat (S (length (creditors_of drifting_balances))).
Proof.
  assert (Hnd : NoDup (Dict.keys drifting_balances))
    by (apply (bool_decide_unpack _); vm_compute; reflexivity).
  assert (Hsum : Qabs (sum_balances drifting_balances) <= epsilon)
    by (apply Qle_bool_iff; vm_compute; reflexivity).
  assert (Hget : Dict.get 5%Z drifting_balances = Some (entry_of "R" (- (18 # 1000))))
    by reflexivity.
  assert (Hneg : balance (entry_of "R" (- (18 # 1000))) < 0)
    by (apply Qltb_true; vm_compute; reflexivity).
  repeat (split; [assumption|]).
  exact (proj2 (proj1 (C4_accounts_within_tolerance _ _ _ Hnd Hsum Hget) Hneg)).
Defined.

(** ** Dictionary operations *)

Section DictFacts.
Context {V : Type}.
Implicit Types (d : list (Z * V)) (k p : Z) (v : V).

Lemma get_None d k : Dict.get k d = None <-> k ∉ Dict.keys d.
Proof.
  unfold Dict.keys. induction d as [|[k' v'] d IH]; cbn [Dict.get fmap list_fmap fst].
  - split; [intros _ H; inversion H | reflexivity].
  - rewrite not_elem_of_cons. destruct (Z.eqb_spec k k') as [->|Hne].
    + split; [discriminate | intros [H _]; congruence].
    + rewrite IH. tauto.
Qed.

Lemma get_Some_keys d k v : Dict.get k d = Some v -> k ∈ Dict.keys d.
Proof.
  intros H. destruct (decide (k ∈ Dict.keys d)) as [Hin|Hnin]; [exact Hin|].
  apply get_None in Hnin. congruence.
Qed.

Lemma set_fresh d k v : k ∉ Dict.keys d -> Dict.set k v d = d ++ [(k, v)].
Proof.
  unfold Dict.keys. induction d as [|[k' v'] d IH]; cbn [Dict.set fmap list_fmap fst].
  - reflexivity.
  - rewrite not_elem_of_cons. intros [Hne Hnin].
    destruct (Z.eqb_spec k k') as [->|_]; [congruence|].
    rewrite IH by exact Hnin. reflexivity.
Qed.

Lemma update_spec d k (f : V -> V) :
  k ∈ Dict.keys d ->
  exists d', Dict.update k f d = Some d' /\ Dict.keys d' = Dict.keys d /\
    forall p, Dict.get p d' =
              if decide (p = k) then f <$> Dict.get p d else Dict.get p d.
Proof.
  unfold Dict.keys.
  induction d as [|[k' v'] d IH]; cbn [Dict.update fmap list_fmap fst];
    [intros H; inversion H|].
  rewrite elem_of_cons. intros Hin.
  destruct (Z.eqb_spec k k') as [->|Hne].
  - eexists. split; [reflexivity|]. split; [reflexivity|].
    intros p. cbn [Dict.get]. destruct (Z.eqb_spec p k') as [->|Hp].
    + rewrite decide_True by reflexivity. reflexivity.
    + rewrite decide_False by exact Hp. reflexivity.
  - destruct Hin as [->|Hin]; [congruence|].
    destruct (IH Hin) as (d' & Hu & Hk & Hg). rewrite Hu.
    eexists. split; [reflexivity|]. split; [cbn; rewrite Hk; reflexivity|].
    intros p. cbn [Dict.get]. destruct (Z.eqb_spec p k') as [->|Hp].
    + rewrite decide_False by congruence. reflexivity.
    + apply Hg.
Qed.
End DictFacts.

(** ** GROUP BY *)

Lemma group_add_get (k : Z) (v : Q) (g : list (Z * Q)) (p : Z) :
  Dict.get p (group_add k v g) =
  if decide (p = k)
  then Some (match Dict.get k g with Some s => s + v | None => v end)
  else Dict.get p g.
Proof.
  induction g as [|[k' s] g IH]; cbn [group_add Dict.get].
  - destruct (Z.eqb_spec p k) as [->|Hne].
    + rewrite decide_True by reflexivity. reflexivity.
    + rewrite decide_False by exact Hne. reflexivity.
  - destruct (Z.eqb_spec k k') as [->|Hkk]; cbn [Dict.get].
    + destruct (Z.eqb_spec p k') as [->|Hp].
      * rewrite decide_True by reflexivity. reflexivity.
      * rewrite decide_False by exact Hp. reflexivity.
    + destruct (Z.eqb_spec p k') as [->|Hp].
      * rewrite decide_False by congruence. reflexivity.
      * exact IH.
Qed.

Lemma group_add_keys (k : Z) (v : Q) (g : list (Z * Q)) (x : Z) :
  x ∈ Dict.keys (group_add k v g) <-> x = k \/ x ∈ Dict.keys g.
Proof.
  unfold Dict.keys.
  induction g as [|[k' s] g IH]; cbn [group_add fmap list_fmap fst].
  - rewrite elem_of_cons. reflexivity.
  - destruct (Z.eqb_spec k k') as [->|Hkk]; cbn [fmap list_fmap fst].
    + rewrite !elem_of_cons. tauto.
    + rewrite !elem_of_cons, IH. tauto.
Qed.

Lemma group_add_NoDup (k : Z) (v : Q) (g : list (Z * Q)) :
  NoDup (Dict.keys g) -> NoDup (Dict.keys (group_add k v g)).
Proof.
  induction g as [|[k' s] g IH]; cbn [group_add]; intros Hnd.
  - apply NoDup_singleton.
  - destruct (Z.eqb_spec k k') as [->|Hkk]; [exact Hnd|].
    unfold Dict.keys in *. cbn [fmap list_fmap fst] in *.
    apply NoDup_cons in Hnd as [Hk' Hnd]. apply NoDup_cons. split; [|apply IH, Hnd].
    intros Hin. apply (group_add_keys k v g k') in Hin as [->|Hin]; [congruence|].
    apply Hk', Hin.
Qed.

Lemma group_sum_snoc (rows : list (Z * Q)) (r : Z * Q) :
  group_sum (rows ++ [r]) = group_add (fst r) (snd r) (group_sum rows).
Proof. unfold group_sum. rewrite fold_left_app. reflexivity. Qed.

Lemma group_sum_NoDup (rows : list (Z * Q)) : NoDup (Dict.keys (group_sum rows)).
Proof.
  induction rows as [|r rows IH] using rev_ind.
  - constructor.
  - rewrite group_sum_snoc. apply group_add_NoDup, IH.
Qed.

Lemma group_sum_keys (rows : list (Z * Q)) (k : Z) :
  k ∈ Dict.keys (group_sum rows) <-> k ∈ rows.*1.
Proof.
  induction rows as [|r rows IH] using rev_ind.
  - reflexivity.
  - rewrite group_sum_snoc, group_add_keys, IH, fmap_app, elem_of_app.
    cbn [fmap list_fmap]. rewrite elem_of_cons, elem_of_nil. tauto.
Qed.

Lemma row_total_snoc (rows : list (Z * Q)) (r : Z * Q) (k : Z) :
  row_total (rows ++ [r]) k ==
  row_total rows k + (if decide (fst r = k) then snd r else 0).
Proof.
  unfold row_total. rewrite filter_app, map_app, Qsum_app, filter_cons, filter_nil.
  destruct (decide (fst r = k)).
  - change (Qsum (map snd [r])) with (snd r + 0). lra.
  - change (Qsum (map snd [])) with 0. lra.
Qed.

(** Each group carries the sum of its rows. *)
Lemma group_sum_get (rows : list (Z * Q)) (k : Z) :
  match Dict.get k (group_sum rows) with
  | Some t => t == row_total rows k
  | None => row_total rows k == 0
  end.
Proof.
  induction rows as [|r rows IH] using rev_ind.
  - reflexivity.
  - rewrite group_sum_snoc, group_add_get.
    pose proof (row_total_snoc rows r k) as E.
    destruct (decide (k = fst r)) as [->|Hne].
    + rewrite decide_True in E by reflexivity.
      destruct (Dict.get (fst r) (group_sum rows)); lra.
    + rewrite decide_False in E by congruence.
      destruct (Dict.get k (group_sum rows)); lra.
Qed.

(** ** calculate_balances: the three loops *)

Lemma init_balances_fold (persons : list (Z * string)) (acc : balances_t) :
  NoDup (Dict.keys acc ++ persons.*1) ->
  fold_left (fun b p => Dict.set (fst p) {| name := snd p; balance := 0 |} b) persons acc
  = acc ++ (fresh_entry <$> persons).
Proof.
  revert acc. induction persons as [|[p n] persons IH]; intros acc Hnd.
  - cbn. rewrite app_nil_r. reflexivity.
  - cbn [fold_left fmap list_fmap fst snd] in *.
    assert (Hfresh : p ∉ Dict.keys acc).
    { apply NoDup_app in Hnd as (_ & Hdis & _). intros Hin.
      apply (Hdis p Hin). apply list_elem_of_here. }
    rewrite (set_fresh _ _ _ Hfresh), IH.
    + rewrite <- app_assoc. reflexivity.
    + unfold Dict.keys in *. rewrite fmap_app, <- app_assoc. exact Hnd.
Qed.

Lemma init_balances_fresh (persons : list (Z * string)) :
  NoDup persons.*1 -> init_balances persons = fresh_entry <$> persons.
Proof. intros Hnd. unfold init_balances. rewrite init_balances_fold; [reflexivity | exact Hnd]. Qed.

Lemma init_balances_keys (persons : list (Z * string)) :
  NoDup persons.*1 -> Dict.keys (init_balances persons) = persons.*1.
Proof.
  intros Hnd. rewrite (init_balances_fresh _ Hnd). unfold Dict.keys.
  rewrite <- list_fmap_compose. reflexivity.
Qed.

Lemma init_balances_get (persons : list (Z * string)) (p : Z) (n : string) :
  NoDup persons.*1 -> (p, n) ∈ persons ->
  Dict.get p (init_balances persons) = Some {| name := n; balance := 0 |}.
Proof.
  intros Hnd Hin. apply elem_get.
  - rewrite init_balances_keys; assumption.
  - rewrite (init_balances_fresh _ Hnd). apply list_elem_of_fmap.
    exists (p, n). split; [reflexivity | exact Hin].
Qed.

(** The loop over grouped rows succeeds when every key is a known person
    and then applies each group's total once, to that person's entry. *)
Lemma apply_rows_spec (op : Q -> entry -> entry) (rows : list (Z * Q)) (b : balances_t) :
  NoDup (Dict.keys rows) ->
  (forall k, k ∈ Dict.keys rows -> k ∈ Dict.keys b) ->
  exists b', apply_rows op rows b = Some b' /\ Dict.keys b' = Dict.keys b /\
    forall p, Dict.get p b' =
      (fun e => match Dict.get p rows with Some t => op t e | None => e end)
        <$> Dict.get p b.
Proof.
  revert b. induction rows as [|[k t] rows IH]; intros b Hnd Hknown.
  - exists b. split; [reflexivity|]. split; [reflexivity|].
    intros p. cbn [Dict.get]. destruct (Dict.get p b); reflexivity.
  - unfold Dict.keys in Hnd, Hknown. cbn [fmap list_fmap fst] in Hnd, Hknown.
    apply NoDup_cons in Hnd as [Hk Hnd].
    destruct (update_spec b k (op t)) as (b1 & Hu & Hkeys1 & Hget1).
    { apply Hknown, list_elem_of_here. }
    destruct (IH b1 Hnd) as (b' & Ha & Hkeys' & Hget').
    { intros x Hx. rewrite Hkeys1. apply Hknown, list_elem_of_further, Hx. }
    exists b'. cbn [apply_rows]. rewrite Hu. split; [exact Ha|].
    split; [congruence|].
    intros p. rewrite Hget', Hget1. cbn [Dict.get].
    destruct (Z.eqb_spec p k) as [->|Hp].
    + rewrite decide_True by reflexivity.
      apply get_None in Hk. rewrite Hk.
      destruct (Dict.get k b); reflexivity.
    + rewrite decide_False by exact Hp. reflexivity.
Qed.

Lemma payments_known (db : Database) (k : Z) :
  persons_known db -> k ∈ Dict.keys (payments db) -> k ∈ (person db).*1.
Proof.
  intros Hdb Hin. unfold payments in Hin. apply (proj1 (group_sum_keys _ _)) in Hin.
  rewrite <- list_fmap_compose in Hin.
  apply list_elem_of_fmap in Hin as (e & -> & He). apply (payer_known _ Hdb), He.
Qed.

Lemma shares_known (db : Database) (k : Z) :
  persons_known db -> k ∈ Dict.keys (shares db) -> k ∈ (person db).*1.
Proof.
  intros Hdb Hin. unfold shares in Hin. apply (proj1 (group_sum_keys _ _)) in Hin.
  rewrite <- list_fmap_compose in Hin.
  apply list_elem_of_fmap in Hin as (e & -> & He). apply (sharer_known _ Hdb), He.
Qed.

Lemma row_total_fmap {A : Type} (key : A -> Z) (val : A -> Q) (l : list A) (k : Z) :
  row_total ((fun x => (key x, val x)) <$> l) k
  = Qsum (map val (filter (fun x => key x = k) l)).
Proof.
  unfold row_total. induction l as [|x l IH]; [reflexivity|].
  cbn [fmap list_fmap]. rewrite !filter_cons. cbn [fst].
  destruct (decide (key x = k)); [|exact IH].
  cbn [map snd]. unfold Qsum in *. cbn [foldr]. rewrite IH. reflexivity.
Qed.

Lemma payments_get (db : Database) (p : Z) :
  match Dict.get p (payments db) with
  | Some t => t == paid_total db p
  | None => paid_total db p == 0
  end.
Proof.
  unfold payments, paid_total.
  rewrite <- (row_total_fmap e_paid_by e_amount). apply group_sum_get.
Qed.

Lemma shares_get (db : Database) (p : Z) :
  match Dict.get p (shares db) with
  | Some t => t == share_total db p
  | None => share_total db p == 0
  end.
Proof.
  unfold shares, share_total.
  rewrite <- (row_total_fmap s_person_id s_share_amount). apply group_sum_get.
Qed.

Lemma payments_absent (db : Database) (p : Z) :
  (forall e, e ∈ expense db -> e_paid_by e <> p) -> Dict.get p (payments db) = None.
Proof.
  intros H. apply get_None. intros Hin. apply (proj1 (group_sum_keys _ _)) in Hin.
  rewrite <- list_fmap_compose in Hin.
  apply list_elem_of_fmap in Hin as (e & Hp & He). exact (H e He (eq_sym Hp)).
Qed.

Lemma shares_absent (db : Database) (p : Z) :
  (forall s, s ∈ expense_split db -> s_person_id s <> p) -> Dict.get p (shares db) = None.
Proof.
  intros H. apply get_None. intros Hin. apply (proj1 (group_sum_keys _ _)) in Hin.
  rewrite <- list_fmap_compose in Hin.
  apply list_elem_of_fmap in Hin as (e & Hp & He). exact (H e He (eq_sym Hp)).
Qed.

(** What [calculate_balances] returns on a database that keeps its keys. *)
Lemma calculate_balances_spec (db : Database) :
  persons_known db ->
  exists b, calculate_balances db = Some b /\
    Dict.keys b = (person db).*1 /\
    forall p n, (p, n) ∈ person db ->
      Dict.get p b = Some
        (let e0 := {| name := n; balance := 0 |} in
         let e1 := match Dict.get p (payments db) with
                   | Some t => add_to_balance t e0 | None => e0 end in
         match Dict.get p (shares db) with
         | Some t => sub_from_balance t e1 | None => e1 end).
Proof.
  intros Hdb. pose proof (person_ids_unique _ Hdb) as Hnd.
  destruct (apply_rows_spec add_to_balance (payments db) (init_balances (person db)))
    as (b1 & H1 & Hk1 & Hg1).
  { apply group_sum_NoDup. }
  { intros k Hk. rewrite init_balances_keys by exact Hnd.
    apply payments_known; assumption. }
  destruct (apply_rows_spec sub_from_balance (shares db) b1) as (b2 & H2 & Hk2 & Hg2).
  { apply group_sum_NoDup. }
  { intros k Hk. rewrite Hk1, init_balances_keys by exact Hnd.
    apply shares_known; assumption. }
  exists b2. unfold calculate_balances. rewrite H1. split; [exact H2|].
  split; [rewrite Hk2, Hk1; apply init_balances_keys, Hnd|].
  intros p n Hin. rewrite Hg2, Hg1, (init_balances_get _ _ _ Hnd Hin). reflexivity.
Qed.

(** ** C2: the balance of each person *)

(** C2: on a database whose person ids are unique and whose expenses and
    splits reference known persons, [calculate_balances] returns a
    dictionary with exactly the known persons as keys; each person's entry
    carries their name and, as balance, what they paid minus their shares;
    a person in no expense and no split has balance 0. *)
Theorem C2_balance_is_paid_minus_shares (db : Database) :
  persons_known db ->
  exists b, calculate_balances db = Some b /\
    NoDup (Dict.keys b) /\
    Dict.keys b = (person db).*1 /\
    forall p n, (p, n) ∈ person db ->
      exists e, Dict.get p b = Some e /\ name e = n /\
        balance e == paid_total db p - share_total db p /\
        ((forall x, x ∈ expense db -> e_paid_by x <> p) ->
         (forall x, x ∈ expense_split db -> s_person_id x <> p) ->
         balance e = 0).
Proof.
  intros Hdb. destruct (calculate_balances_spec db Hdb) as (b & Hb & Hkeys & Hget).
  exists b. split; [exact Hb|].
  split; [rewrite Hkeys; apply (person_ids_unique _ Hdb)|].
  split; [exact Hkeys|].
  intros p n Hin. eexists. split; [apply Hget, Hin|].
  pose proof (payments_get db p) as Hp. pose proof (shares_get db p) as Hs.
  cbn zeta. split; [|split].
  - destruct (Dict.get p (payments db)), (Dict.get p (shares db)); reflexivity.
  - destruct (Dict.get p (payments db)), (Dict.get p (shares db));
      cbn [sub_from_balance add_to_balance balance]; lra.
  - intros Hno_e Hno_s.
    rewrite (payments_absent _ _ Hno_e), (shares_absent _ _ Hno_s). reflexivity.
Qed.

Lemma scenario_A_known : persons_known scenario_A.
Proof.
  split.
  - apply (bool_decide_unpack _). vm_compute. reflexivity.
  - apply Forall_forall. repeat constructor;
      apply (bool_decide_unpack _); vm_compute; reflexivity.
  - apply Forall_forall. repeat constructor;
      apply (bool_decide_unpack _); vm_compute; reflexivity.
Defined.

Lemma C2_balance_is_paid_minus_shares_witness :
  persons_known scenario_A /\
  exists b, calculate_balances scenario_A = Some b /\
            Dict.keys b = [1%Z; 2%Z; 3%Z].
Proof.
  split; [exact scenario_A_known|].
  destruct (C2_balance_is_paid_minus_shares scenario_A scenario_A_known)
    as (b & Hb & _ & Hk & _).
  exists b. split; [exact Hb | exact Hk].
Defined.

(** ** C6: termination and totality *)

(** C6: every iteration of the walk moves at least one cursor forward and
    none backward, the loop condition fails exactly when a cursor has
    reached the end of its list, so from any two lists the loop has
    stopped after at most [len(debtors) + len(creditors)] iterations; and
    on a database whose expenses and splits reference known persons,
    neither [calculate_balances] nor [get_settlement_plan] raises. *)
Theorem C6_walk_terminates_no_exception (db : Database) :
  persons_known db ->
  (forall s s', step s = Some s' ->
     (i s <= i s')%nat /\ (j s <= j s')%nat /\ (i s + j s < i s' + j s')%nat /\
     length (debtors s') = length (debtors s) /\
     length (creditors s') = length (creditors s)) /\
  (forall s, step s = None <->
     ~ ((i s < length (debtors s))%nat /\ (j s < length (creditors s))%nat)) /\
  (forall ds cs,
     step (run (length ds + length cs) (start ds cs)) = None /\
     forall more, (length ds + length cs <= more)%nat ->
       run more (start ds cs) = run (length ds + length cs) (start ds cs)) /\
  (forall balances, step (settle balances) = None) /\
  exists balances,
    calculate_balances db = Some balances /\
    get_settlement_plan db = Some (plan_settlement balances).
Proof.
  intros Hdb. split; [|split; [|split; [|split]]].
  - intros s s' Hstep.
    destruct (step_advances _ _ Hstep) as (_ & _ & H). exact H.
  - apply step_None.
  - intros ds cs.
    assert (Hdone : step (run (length ds + length cs) (start ds cs)) = None).
    { apply run_done. unfold measure, start; cbn. lia. }
    split; [exact Hdone|]. intros more Hmore. apply run_stable; assumption.
  - apply settle_done.
  - destruct (calculate_balances_spec db Hdb) as (b & Hb & _).
    exists b. split; [exact Hb|]. unfold get_settlement_plan. rewrite Hb. reflexivity.
Qed.

Lemma C6_walk_terminates_no_exception_witness :
  persons_known scenario_A /\
  exists balances,
    calculate_balances scenario_A = Some balances /\
    get_settlement_plan scenario_A = Some (plan_settlement balances).
Proof.
  split; [exact scenario_A_known|].
  exact (proj2 (proj2 (proj2 (proj2
    (C6_walk_terminates_no_exception scenario_A scenario_A_known))))).
Defined.

(** ** C9: scenario A *)

(** C9: with Alice, Bob and Carol and one expense of 30 paid by Alice and
    split 10 each, the balances are Alice +20, Bob -10, Carol -10, and the
    plan is: Bob pays Alice 10, then Carol pays Alice 10. *)
Theorem C9_scenario_A :
  calculate_balances scenario_A =
    Some [ (1%Z, {| name := "Alice"; balance := 20 |});
           (2%Z, {| name := "Bob"; balance := -10 |});
           (3%Z, {| name := "Carol"; balance := -10 |}) ] /\
  get_settlement_plan scenario_A =
    Some [ (2%Z, "Bob"%string, 1%Z, "Alice"%string, 10);
           (3%Z, "Carol"%string, 1%Z, "Alice"%string, 10) ].
Proof. split; vm_compute; reflexivity. Qed.

(** Scenario C: with credits 5 and 5 the stable sort keeps X before Y, and
    the debtor of 10 pays them in that order. *)
Example scenario_C_plan :
  plan_settlement [ (1%Z, entry_of "X" 5); (2%Z, entry_of "Y" 5);
                    (3%Z, entry_of "Z" (-10)) ]
  = [ (3%Z, "Z"%string, 1%Z, "X"%string, 5);
      (3%Z, "Z"%string, 2%Z, "Y"%string, 5) ].
Proof. vm_compute. reflexivity. Qed.

(** The sort is descending and keeps equal amounts in their order. *)
Example sort_desc_stable :
  sort_desc [ (1%Z, "a"%string, 3); (2%Z, "b"%string, 5);
              (3%Z, "c"%string, 5); (4%Z, "d"%string, 1) ]
  = [ (2%Z, "b"%string, 5); (3%Z, "c"%string, 5);
      (1%Z, "a"%string, 3); (4%Z, "d"%string, 1) ].
Proof. vm_compute. reflexivity. Qed.

(** ** C5: balances sum to zero *)

Lemma Qsum_ext {A : Type} (f g : A -> Q) (l : list A) :
  (forall x, x ∈ l -> f x == g x) -> Qsum (map f l) == Qsum (map g l).
Proof.
  induction l as [|x l IH]; intros H; [reflexivity|].
  change (Qsum (map f (x :: l))) with (f x + Qsum (map f l)).
  change (Qsum (map g (x :: l))) with (g x + Qsum (map g l)).
  rewrite (H x) by apply list_elem_of_here.
  rewrite IH; [reflexivity|]. intros y Hy. apply H, list_elem_of_further, Hy.
Qed.

Lemma Qsum_plus {A : Type} (f g : A -> Q) (l : list A) :
  Qsum (map (fun x => f x + g x) l) == Qsum (map f l) + Qsum (map g l).
Proof.
  induction l as [|x l IH]; [reflexivity|].
  change (Qsum (map (fun x => f x + g x) (x :: l)))
    with (f x + g x + Qsum (map (fun x => f x + g x) l)).
  change (Qsum (map f (x :: l))) with (f x + Qsum (map f l)).
  change (Qsum (map g (x :: l))) with (g x + Qsum (map g l)).
  lra.
Qed.

Lemma Qsum_zero {A : Type} (l : list A) : Qsum (map (fun _ => 0) l) == 0.
Proof.
  induction l as [|y l IH]; [reflexivity|].
  change (Qsum (map (fun _ : A => 0) (y :: l))) with (0 + Qsum (map (fun _ : A => 0) l)).
  lra.
Qed.

Lemma Qsum_indicator (k : Z) (v : Q) (l : list Z) :
  NoDup l -> k ∈ l ->
  Qsum (map (fun x => if decide (k = x) then v else 0) l) == v.
Proof.
  induction l as [|x l IH]; intros Hnd Hin; [inversion Hin|].
  apply NoDup_cons in Hnd as [Hx Hnd].
  change (Qsum (map (fun x => if decide (k = x) then v else 0) (x :: l)))
    with ((if decide (k = x) then v else 0)
          + Qsum (map (fun x => if decide (k = x) then v else 0) l)).
  destruct (decide (k = x)) as [->|Hne].
  - rewrite (Qsum_ext (fun y => if decide (x = y) then v else 0) (fun _ => 0)).
    + rewrite Qsum_zero. lra.
    + intros y Hy. destruct (decide (x = y)) as [->|_]; [contradiction | reflexivity].
  - apply elem_of_cons in Hin as [->|Hin]; [congruence|].
    rewrite (IH Hnd Hin). lra.
Qed.

(** Summing the shares split by split, or expense by expense. *)
Lemma regroup_splits (splits : list split_row) (es : list Z) :
  NoDup es -> (forall s, s ∈ splits -> s_expense_id s ∈ es) ->
  Qsum (map s_share_amount splits) ==
  Qsum (map (fun eid =>
    Qsum (map s_share_amount (filter (fun s => s_expense_id s = eid) splits))) es).
Proof.
  intros Hnd. induction splits as [|s splits IH]; intros Hall.
  - rewrite (Qsum_ext
      (fun eid => Qsum (map s_share_amount
         (filter (fun s => s_expense_id s = eid) [])))
      (fun _ => 0)) by (intros; reflexivity).
    rewrite Qsum_zero. reflexivity.
  - change (Qsum (map s_share_amount (s :: splits)))
      with (s_share_amount s + Qsum (map s_share_amount splits)).
    rewrite IH by (intros x Hx; apply Hall, list_elem_of_further, Hx).
    rewrite (Qsum_ext
      (fun eid => Qsum (map s_share_amount
         (filter (fun s0 => s_expense_id s0 = eid) (s :: splits))))
      (fun eid => (if decide (s_expense_id s = eid) then s_share_amount s else 0)
         + Qsum (map s_share_amount
             (filter (fun s0 => s_expense_id s0 = eid) splits)))).
    + rewrite Qsum_plus, Qsum_indicator;
        [reflexivity | exact Hnd | apply Hall, list_elem_of_here].
    + intros eid _. rewrite filter_cons.
      destruct (decide (s_expense_id s = eid)).
      * reflexivity.
      * lra.
Qed.

Lemma sum_update (f : entry -> entry) (c : Q) (k : Z) (b b' : balances_t) :
  (forall e, balance (f e) == balance e + c) ->
  Dict.update k f b = Some b' -> sum_balances b' == sum_balances b + c.
Proof.
  intros Hf. revert b'. induction b as [|[k' v] b IH]; intros b' Hu;
    cbn [Dict.update] in Hu; [discriminate|].
  destruct (Z.eqb k k').
  - injection Hu as <-.
    change (sum_balances ((k', f v) :: b)) with (balance (f v) + sum_balances b).
    change (sum_balances ((k', v) :: b)) with (balance v + sum_balances b).
    rewrite Hf. lra.
  - destruct (Dict.update k f b) as [r|]; [|discriminate]. injection Hu as <-.
    change (sum_balances ((k', v) :: r)) with (balance v + sum_balances r).
    change (sum_balances ((k', v) :: b)) with (balance v + sum_balances b).
    rewrite (IH r eq_refl). lra.
Qed.

Lemma apply_rows_sum (op : Q -> entry -> entry) (sgn : Q -> Q)
    (rows : list (Z * Q)) (b b' : balances_t) :
  (forall t e, balance (op t e) == balance e + sgn t) ->
  apply_rows op rows b = Some b' ->
  sum_balances b' == sum_balances b + Qsum (map (fun r => sgn (snd r)) rows).
Proof.
  intros Hop. revert b. induction rows as [|[k t] rows IH]; intros b Ha;
    cbn [apply_rows] in Ha.
  - injection Ha as <-. change (Qsum (map (fun r => sgn (snd r)) [])) with 0. lra.
  - destruct (Dict.update k (op t) b) as [b1|] eqn:Hu; [|discriminate].
    change (Qsum (map (fun r => sgn (snd r)) ((k, t) :: rows)))
      with (sgn t + Qsum (map (fun r : Z * Q => sgn (snd r)) rows)).
    rewrite (IH _ Ha), (sum_update _ (sgn t) _ _ _ (Hop t) Hu). lra.
Qed.

Lemma group_add_total (k : Z) (v : Q) (g : list (Z * Q)) :
  Qsum (map snd (group_add k v g)) == Qsum (map snd g) + v.
Proof.
  induction g as [|[k' s] g IH]; cbn [group_add].
  - change (Qsum (map snd [(k, v)])) with (v + 0).
    change (Qsum (map snd (@nil (Z * Q)))) with 0. lra.
  - change (Qsum (map snd ((k', s) :: g))) with (s + Qsum (map snd g)).
    destruct (Z.eqb k k').
    + change (Qsum (map snd ((k', s + v) :: g))) with (s + v + Qsum (map snd g)). lra.
    + change (Qsum (map snd ((k', s) :: group_add k v g)))
        with (s + Qsum (map snd (group_add k v g))).
      rewrite IH. lra.
Qed.

Lemma group_sum_total (rows : list (Z * Q)) :
  Qsum (map snd (group_sum rows)) == Qsum (map snd rows).
Proof.
  induction rows as [|r rows IH] using rev_ind; [reflexivity|].
  rewrite group_sum_snoc, group_add_total, IH, map_app, Qsum_app.
  change (Qsum (map snd [r])) with (snd r + 0). lra.
Qed.

Lemma Qsum_opp {A : Type} (f : A -> Q) (l : list A) :
  Qsum (map (fun x => - f x) l) == - Qsum (map f l).
Proof.
  induction l as [|x l IH]; [reflexivity|].
  change (Qsum (map (fun x => - f x) (x :: l)))
    with (- f x + Qsum (map (fun x => - f x) l)).
  change (Qsum (map f (x :: l))) with (f x + Qsum (map f l)).
  lra.
Qed.

Lemma Qsum_rows {A : Type} (key : A -> Z) (val : A -> Q) (l : list A) :
  Qsum (map snd ((fun x => (key x, val x)) <$> l)) = Qsum (map val l).
Proof.
  induction l as [|x l IH]; [reflexivity|].
  cbn [fmap list_fmap map snd]. unfold Qsum in *. cbn [foldr]. rewrite IH. reflexivity.
Qed.

Lemma set_settled (k : Z) (e : entry) (b : balances_t) :
  balance e = 0 ->
  Forall (fun x => balance (snd x) = 0) b ->
  Forall (fun x => balance (snd x) = 0) (Dict.set k e b).
Proof.
  intros He. induction 1 as [|[k' v] b Hv Hb IH]; cbn [Dict.set].
  - repeat constructor. exact He.
  - destruct (Z.eqb k k'); constructor; cbn [snd] in *; assumption.
Qed.

Lemma init_balances_settled (persons : list (Z * string)) :
  Forall (fun x => balance (snd x) = 0) (init_balances persons).
Proof.
  unfold init_balances.
  assert (H : Forall (fun x : Z * entry => balance (snd x) = 0) []) by constructor.
  revert H. generalize (@nil (Z * entry)).
  induction persons as [|p persons IH]; intros acc Hacc; cbn [fold_left].
  - exact Hacc.
  - apply IH, set_settled; [reflexivity | exact Hacc].
Qed.

Lemma sum_balances_settled (b : balances_t) :
  Forall (fun x => balance (snd x) = 0) b -> sum_balances b == 0.
Proof.
  induction 1 as [|[k v] b Hv _ IH]; [reflexivity|].
  change (sum_balances ((k, v) :: b)) with (balance v + sum_balances b).
  cbn [snd] in Hv. rewrite Hv, IH. lra.
Qed.

(** What comes in is what was paid, what goes out is what was shared. *)
Lemma calculate_balances_sum (db : Database) (b : balances_t) :
  calculate_balances db = Some b ->
  sum_balances b ==
  Qsum (map e_amount (expense db)) - Qsum (map s_share_amount (expense_split db)).
Proof.
  unfold calculate_balances. intros H.
  destruct (apply_rows add_to_balance (payments db) (init_balances (person db)))
    as [b1|] eqn:H1; [|discriminate].
  rewrite (apply_rows_sum sub_from_balance (fun t => - t) _ _ _
             ltac:(intros; cbn; lra) H).
  rewrite (apply_rows_sum add_to_balance (fun t => t) _ _ _
             ltac:(intros; cbn; lra) H1).
  rewrite (sum_balances_settled _ (init_balances_settled _)).
  rewrite (Qsum_opp snd).
  change (Qsum (map (fun r : Z * Q => snd r) (payments db)))
    with (Qsum (map snd (payments db))).
  unfold payments, shares. rewrite !group_sum_total, !Qsum_rows. lra.
Qed.

(** C5: on a database that keeps its keys, if the shares of every expense
    sum exactly to its amount, then the balances [calculate_balances]
    returns sum exactly to 0. *)
Theorem C5_balances_sum_to_zero (db : Database) :
  persons_known db ->
  splits_owned db ->
  (forall e, e ∈ expense db -> split_total db (e_id e) == e_amount e) ->
  exists b, calculate_balances db = Some b /\ sum_balances b == 0.
Proof.
  intros Hdb Hown Hsplit.
  destruct (calculate_balances_spec db Hdb) as (b & Hb & _).
  exists b. split; [exact Hb|].
  rewrite (calculate_balances_sum _ _ Hb).
  rewrite (regroup_splits _ _ (expense_ids_unique _ Hown) (split_expense_known _ Hown)).
  fold (split_total db).
  assert (E : Qsum (map (split_total db) (e_id <$> expense db))
              == Qsum (map e_amount (expense db))).
  { clear -Hsplit. induction (expense db) as [|e l IH]; [reflexivity|].
    cbn [fmap list_fmap].
    change (Qsum (map (split_total db) (e_id e :: (e_id <$> l))))
      with (split_total db (e_id e) + Qsum (map (split_total db) (e_id <$> l))).
    change (Qsum (map e_amount (e :: l))) with (e_amount e + Qsum (map e_amount l)).
    rewrite (Hsplit e) by apply list_elem_of_here.
    rewrite IH; [reflexivity|]. intros x Hx. apply Hsplit, list_elem_of_further, Hx. }
  change (fun eid : Z =>
    Qsum (map s_share_amount
      (filter (fun s : split_row => s_expense_id s = eid) (expense_split db))))
    with (split_total db).
  rewrite E. lra.
Qed.

Lemma C5_balances_sum_to_zero_witness :
  persons_known scenario_A /\ splits_owned scenario_A /\
  exists b, calculate_balances scenario_A = Some b /\ sum_balances b == 0.
Proof.
  assert (Hown : splits_owned scenario_A).
  { split.
    - apply (bool_decide_unpack _). vm_compute. reflexivity.
    - apply Forall_forall. repeat constructor;
        apply (bool_decide_unpack _); vm_compute; reflexivity. }
  assert (Hsplit : forall e, e ∈ expense scenario_A ->
                     split_total scenario_A (e_id e) == e_amount e).
  { apply Forall_forall. repeat constructor. }
  split; [exact scenario_A_known|]. split; [exact Hown|].
  exact (C5_balances_sum_to_zero scenario_A scenario_A_known Hown Hsplit).
Defined.

(** ** When calculate_balances raises *)

Lemma set_keys {V : Type} (k : Z) (v : V) (d : list (Z * V)) (x : Z) :
  x ∈ Dict.keys (Dict.set k v d) <-> x = k \/ x ∈ Dict.keys d.
Proof.
  unfold Dict.keys. induction d as [|[k' v'] d IH]; cbn [Dict.set fmap list_fmap fst].
  - rewrite elem_of_cons. reflexivity.
  - destruct (Z.eqb_spec k k') as [->|Hne]; cbn [fmap list_fmap fst].
    + rewrite !elem_of_cons. tauto.
    + rewrite !elem_of_cons, IH. tauto.
Qed.

Lemma init_balances_known (persons : list (Z * string)) (x : Z) :
  x ∈ Dict.keys (init_balances persons) <-> x ∈ persons.*1.
Proof.
  unfold init_balances.
  assert (H : forall acc : balances_t,
    x ∈ Dict.keys (fold_left
      (fun b p => Dict.set (fst p) {| name := snd p; balance := 0 |} b) persons acc)
    <-> x ∈ Dict.keys acc \/ x ∈ persons.*1).
  { induction persons as [|[p n] persons IH]; intros acc; cbn [fold_left fmap list_fmap fst snd].
    - rewrite elem_of_nil. tauto.
    - rewrite IH, set_keys, elem_of_cons. tauto. }
  rewrite H. unfold Dict.keys. cbn. rewrite elem_of_nil. tauto.
Qed.

Lemma update_None {V : Type} (k : Z) (f : V -> V) (d : list (Z * V)) :
  k ∉ Dict.keys d -> Dict.update k f d = None.
Proof.
  unfold Dict.keys. induction d as [|[k' v'] d IH]; cbn [Dict.update fmap list_fmap fst].
  - reflexivity.
  - rewrite not_elem_of_cons. intros [Hne Hnin].
    destruct (Z.eqb_spec k k') as [->|_]; [congruence|].
    rewrite IH by exact Hnin. reflexivity.
Qed.

(** The loop over grouped rows never adds or removes a key, and it returns
    only if every key it meets is in the dictionary. *)
Lemma apply_rows_inv (op : Q -> entry -> entry) (rows : list (Z * Q)) (b b' : balances_t) :
  apply_rows op rows b = Some b' ->
  Dict.keys b' = Dict.keys b /\ forall k, k ∈ Dict.keys rows -> k ∈ Dict.keys b.
Proof.
  revert b. induction rows as [|[k t] rows IH]; intros b H; cbn [apply_rows] in H.
  - injection H as <-. split; [reflexivity | intros k Hk; inversion Hk].
  - destruct (decide (k ∈ Dict.keys b)) as [Hin|Hnin];
      [|rewrite (update_None _ _ _ Hnin) in H; discriminate].
    destruct (update_spec b k (op t) Hin) as (b1 & Hu & Hk1 & _).
    rewrite Hu in H. destruct (IH _ H) as [Hk' Hall]. split; [congruence|].
    intros x Hx. unfold Dict.keys in Hx. cbn [fmap list_fmap fst] in Hx.
    apply elem_of_cons in Hx as [->|Hx]; [exact Hin|].
    rewrite <- Hk1. apply Hall, Hx.
Qed.

(** Conversely it returns whenever every key is in the dictionary. *)
Lemma apply_rows_total (op : Q -> entry -> entry) (rows : list (Z * Q)) (b : balances_t) :
  (forall k, k ∈ Dict.keys rows -> k ∈ Dict.keys b) ->
  exists b', apply_rows op rows b = Some b'.
Proof.
  revert b. induction rows as [|[k t] rows IH]; intros b Hall; cbn [apply_rows].
  - exists b. reflexivity.
  - destruct (update_spec b k (op t)) as (b1 & Hu & Hk1 & _);
      [apply Hall, list_elem_of_here|].
    rewrite Hu. apply IH. intros x Hx. rewrite Hk1.
    apply Hall, list_elem_of_further, Hx.
Qed.

Lemma payments_keys (db : Database) (k : Z) :
  k ∈ Dict.keys (payments db) <-> exists e, e ∈ expense db /\ e_paid_by e = k.
Proof.
  unfold payments. rewrite group_sum_keys, <- list_fmap_compose, list_elem_of_fmap.
  split; intros (e & H1 & H2); exists e; cbn in *; auto.
Qed.

Lemma shares_keys (db : Database) (k : Z) :
  k ∈ Dict.keys (shares db) <-> exists s, s ∈ expense_split db /\ s_person_id s = k.
Proof.
  unfold shares. rewrite group_sum_keys, <- list_fmap_compose, list_elem_of_fmap.
  split; intros (e & H1 & H2); exists e; cbn in *; auto.
Qed.

(** When the balance computation returns, in terms of the rows. *)
Lemma balances_defined_iff (db : Database) :
  (exists b, calculate_balances db = Some b) <->
  (forall e, e ∈ expense db -> e_paid_by e ∈ (person db).*1) /\
  (forall s, s ∈ expense_split db -> s_person_id s ∈ (person db).*1).
Proof.
  unfold calculate_balances. split.
  - intros (b & Hb).
    destruct (apply_rows add_to_balance (payments db) (init_balances (person db)))
      as [b1|] eqn:H1; [|discriminate].
    destruct (apply_rows_inv _ _ _ _ H1) as [Hk1 Hpay].
    destruct (apply_rows_inv _ _ _ _ Hb) as [_ Hsh].
    split.
    + intros e He. apply init_balances_known, Hpay, payments_keys. eauto.
    + intros sp Hs. apply init_balances_known. rewrite <- Hk1.
      apply Hsh, shares_keys. eauto.
  - intros [Hpay Hsh].
    destruct (apply_rows_total add_to_balance (payments db)
                (init_balances (person db))) as (b1 & H1).
    { intros k Hk. apply payments_keys in Hk as (e & He & <-).
      apply init_balances_known, Hpay, He. }
    rewrite H1. destruct (apply_rows_inv _ _ _ _ H1) as [Hk1 _].
    apply apply_rows_total.
    intros k Hk. apply shares_keys in Hk as (sp & Hs & <-).
    rewrite Hk1. apply init_balances_known, Hsh, Hs.
Qed.

(** X1: [calculate_balances] returns a dictionary exactly when every payer
    of an expense and every person of a split is a row of [person];
    otherwise [balances[...]] raises [KeyError]. *)
Theorem calculate_balances_returns_iff (db : Database) :
  (exists b, calculate_balances db = Some b) <->
  (forall e, e ∈ expense db -> e_paid_by e ∈ (person db).*1) /\
  (forall s, s ∈ expense_split db -> s_person_id s ∈ (person db).*1).
Proof. exact (balances_defined_iff db). Qed.

(** ** How many transactions a plan has *)

Lemma step_one_more (s s' : walk) :
  step s = Some s' -> length (transactions s') = S (length (transactions s)).
Proof.
  intros H. destruct (step_emits _ _ H) as (_ & _ & t & Ht & _).
  rewrite Ht, length_app. cbn. lia.
Qed.

(** Along a walk at most one transaction is emitted per cursor move, and
    their number stays below the number of parties. *)
Lemma reach_count (ds cs : list party) (s : walk) :
  rtc step_rel (start ds cs) s ->
  length (debtors s) = length ds /\ length (creditors s) = length cs /\
  (length (transactions s) <= i s + j s)%nat /\
  (transactions s = [] \/
   (length (transactions s) + 1 <= length ds + length cs)%nat).
Proof.
  intros Hr. refine (rtc_ind_r (fun s => _) _ _ _ s Hr); cbn beta.
  - cbn. repeat split; auto.
  - intros y z _ Hyz (Hld & Hlc & Hle & Hcount).
    destruct (step_advances _ _ Hyz) as (Hi & Hj & _ & _ & Hij & Hld' & Hlc').
    pose proof (step_one_more _ _ Hyz) as Hlen.
    split; [congruence|]. split; [congruence|]. split; [lia|]. right. lia.
Qed.

Lemma partition_length (b : balances_t) :
  (length (debtors_of b) + length (creditors_of b) <= length b)%nat.
Proof.
  induction b as [|[pid data] b IH]; cbn [debtors_of creditors_of]; [cbn; lia|].
  destruct (Qltb (balance data) 0); [cbn [length]; lia|].
  destruct (Qltb 0 (balance data)); cbn [length]; lia.
Qed.

(** X2: a plan has fewer transactions than there are persons with a
    non-zero balance (none when there are no such persons), hence fewer
    than there are persons. *)
Theorem plan_length_bound (balances : balances_t) :
  (length (plan_settlement balances)
   <= pred (length (debtors_of balances) + length (creditors_of balances)))%nat /\
  (length (plan_settlement balances) <= pred (length balances))%nat.
Proof.
  destruct (reach_count _ _ _ (settle_reach balances)) as (_ & _ & _ & Hcount).
  rewrite !sort_desc_length in Hcount. fold (plan_settlement balances) in Hcount.
  pose proof (partition_length balances) as Hp.
  destruct Hcount as [Hnil|Hle]; [rewrite Hnil; cbn; lia | lia].
Qed.

Lemma sort_desc_nil (l : list party) : sort_desc l = [] <-> l = [].
Proof.
  split; [|intros ->; reflexivity].
  intros H. apply length_zero_iff_nil. rewrite <- sort_desc_length, H. reflexivity.
Qed.

(** X3: the plan is empty exactly when nobody owes or nobody is owed. *)
Theorem plan_empty_iff (balances : balances_t) :
  plan_settlement balances = [] <->
  debtors_of balances = [] \/ creditors_of balances = [].
Proof.
  unfold plan_settlement, settle.
  set (ds := sort_desc (debtors_of balances)).
  set (cs := sort_desc (creditors_of balances)).
  rewrite <- (sort_desc_nil (debtors_of balances)), <- (sort_desc_nil (creditors_of balances)).
  fold ds cs. split.
  - intros Hnil.
    destruct ds as [|d ds']; [left; reflexivity|].
    destruct cs as [|c cs']; [right; reflexivity|]. exfalso.
    destruct (step (start (d :: ds') (c :: cs'))) as [s1|] eqn:Hstep.
    + cbn [length Nat.add run] in Hnil. rewrite Hstep in Hnil.
      destruct (reach_later _ _ (run_reach (length ds' + S (length cs')) s1))
        as (_ & _ & _ & _ & later & Ht & _).
      pose proof (step_one_more _ _ Hstep) as Hone.
      rewrite Hnil in Ht. symmetry in Ht. apply app_eq_nil in Ht as [Ht _].
      rewrite Ht in Hone. cbn in Hone. lia.
    + apply step_None in Hstep. apply Hstep. cbn. lia.
  - intros [Hd|Hc].
    + rewrite Hd. cbn [length Nat.add].
      destruct (length cs); [reflexivity|]. cbn [run].
      destruct cs; reflexivity.
    + rewrite Hc. rewrite Nat.add_0_r.
      destruct (length ds) eqn:E; [reflexivity|]. cbn [run].
      replace (step (start ds [])) with (@None walk); [reflexivity|].
      symmetry. apply step_None. cbn. lia.
Qed.

(** ** The sort *)

Lemma insert_desc_head (x : party) (l : list party) (z : party) :
  HdRel amount_ge z l -> amount_ge z x -> HdRel amount_ge z (insert_desc x l).
Proof.
  intros Hl Hx. destruct l as [|y l]; cbn [insert_desc].
  - constructor. exact Hx.
  - destruct (Qle_bool (p_amount y) (p_amount x)); constructor;
      [exact Hx | inversion Hl; assumption].
Qed.

Lemma insert_desc_sorted (x : party) (l : list party) :
  Sorted amount_ge l -> Sorted amount_ge (insert_desc x l).
Proof.
  induction 1 as [|y l Hl IH Hy]; cbn [insert_desc].
  - repeat constructor.
  - destruct (Qle_bool (p_amount y) (p_amount x)) eqn:E.
    + apply Qle_bool_iff in E. repeat constructor; assumption.
    + constructor; [exact IH|]. apply insert_desc_head; [exact Hy|].
      unfold amount_ge. destruct (Qlt_le_dec (p_amount x) (p_amount y)) as [H|H].
      * lra.
      * apply Qle_bool_iff in H. congruence.
Qed.

Lemma insert_desc_with_amount (q : Q) (x : party) (l : list party) :
  with_amount q (insert_desc x l) = with_amount q (x :: l).
Proof.
  unfold with_amount. induction l as [|y l IH]; cbn [insert_desc]; [reflexivity|].
  destruct (Qle_bool (p_amount y) (p_amount x)) eqn:E; [reflexivity|].
  rewrite filter_cons, IH, !filter_cons.
  destruct (decide (p_amount y == q)) as [Hy|Hy]; [|reflexivity].
  destruct (decide (p_amount x == q)) as [Hx|Hx]; [|reflexivity].
  exfalso. assert (Hle : p_amount y <= p_amount x) by lra.
  apply Qle_bool_iff in Hle. congruence.
Qed.

(** X4: [sort(key=amount, reverse=True)] returns its input reordered, from
    the largest amount to the smallest, and parties with equal amounts
    stay in the order they had. *)
Theorem sort_desc_stable_descending (l : list party) :
  Sorted amount_ge (sort_desc l) /\
  sort_desc l ≡ₚ l /\
  forall q, with_amount q (sort_desc l) = with_amount q l.
Proof.
  split; [|split].
  - induction l as [|x l IH]; [constructor|]. apply insert_desc_sorted, IH.
  - apply sort_desc_perm.
  - intros q. induction l as [|x l IH]; [reflexivity|].
    change (sort_desc (x :: l)) with (insert_desc x (sort_desc l)).
    rewrite insert_desc_with_amount. unfold with_amount in *.
    rewrite !filter_cons, IH. reflexivity.
Qed.

(** ** Balances in whole cents *)













(** ** Shares that miss the amount *)

Lemma Qsum_minus {A : Type} (f g : A -> Q) (l : list A) :
  Qsum (map (fun x => f x - g x) l) == Qsum (map f l) - Qsum (map g l).
Proof.
  induction l as [|x l IH]; [reflexivity|].
  change (Qsum (map (fun x => f x - g x) (x :: l)))
    with (f x - g x + Qsum (map (fun x => f x - g x) l)).
  change (Qsum (map f (x :: l))) with (f x + Qsum (map f l)).
  change (Qsum (map g (x :: l))) with (g x + Qsum (map g l)).
  lra.
Qed.

Lemma Qsum_abs_bound {A : Type} (f : A -> Q) (c : Q) (l : list A) :
  (forall x, x ∈ l -> Qabs (f x) <= c) ->
  Qabs (Qsum (map f l)) <= c * Qnat (length l).
Proof.
  induction l as [|x l IH]; intros H.
  - change (Qsum (map f [])) with 0. change (Qnat (length (@nil A))) with 0.
    destruct (Qabs_cases 0) as [[_ E]|[_ E]]; rewrite E; lra.
  - change (Qsum (map f (x :: l))) with (f x + Qsum (map f l)).
    change (length (x :: l)) with (S (length l)).
    pose proof (Qnat_S (length l)) as En.
    pose proof (H x (list_elem_of_here _ _)) as Hx.
    assert (IH' : Qabs (Qsum (map f l)) <= c * Qnat (length l))
      by (apply IH; intros y Hy; apply H, list_elem_of_further, Hy).
    rewrite En.
    destruct (Qabs_cases (f x)) as [[? E1]|[? E1]];
      destruct (Qabs_cases (Qsum (map f l))) as [[? E2]|[? E2]];
      destruct (Qabs_cases (f x + Qsum (map f l))) as [[? E3]|[? E3]];
      rewrite E1 in Hx; rewrite E2 in IH'; rewrite E3; lra.
Qed.

Lemma Qsum_fmap {A B : Type} (g : A -> B) (f : B -> Q) (l : list A) :
  Qsum (map f (g <$> l)) = Qsum (map (fun x => f (g x)) l).
Proof.
  induction l as [|x l IH]; [reflexivity|].
  cbn [fmap list_fmap map]. unfold Qsum in *. cbn [foldr]. rewrite IH. reflexivity.
Qed.

(** The balances sum to what the shares miss, expense by expense. *)
Lemma calculate_balances_gap (db : Database) (b : balances_t) :
  splits_owned db -> calculate_balances db = Some b ->
  sum_balances b ==
  Qsum (map (fun e => e_amount e - split_total db (e_id e)) (expense db)).
Proof.
  intros Hown Hb. rewrite (calculate_balances_sum _ _ Hb).
  rewrite (regroup_splits _ _ (expense_ids_unique _ Hown) (split_expense_known _ Hown)).
  change (fun eid : Z =>
    Qsum (map s_share_amount
      (filter (fun s : split_row => s_expense_id s = eid) (expense_split db))))
    with (split_total db).
  rewrite Qsum_fmap, Qsum_minus. reflexivity.
Qed.

(** X6: on a database that keeps its keys, if the shares of every expense
    are within [tol] of its amount, the balances sum to within [tol] times
    the number of expenses of 0. *)
Theorem balances_sum_within_tolerance (db : Database) (tol : Q) :
  persons_known db ->
  splits_owned db ->
  (forall e, e ∈ expense db -> Qabs (split_total db (e_id e) - e_amount e) <= tol) ->
  exists b, calculate_balances db = Some b /\
    Qabs (sum_balances b) <= tol * Qnat (length (expense db)).
Proof.
  intros Hdb Hown Htol.
  destruct (calculate_balances_spec db Hdb) as (b & Hb & _).
  exists b. split; [exact Hb|].
  rewrite (calculate_balances_gap _ _ Hown Hb).
  apply Qsum_abs_bound. intros e He. specialize (Htol e He).
  destruct (Qabs_cases (split_total db (e_id e) - e_amount e)) as [[? E1]|[? E1]];
    destruct (Qabs_cases (e_amount e - split_total db (e_id e))) as [[? E2]|[? E2]];
    rewrite E1 in Htol; rewrite E2; lra.
Qed.

(** ** Row ids *)

Lemma foldr_max_le (seq : Z) (ids : list Z) :
  (seq <= foldr Z.max seq ids)%Z /\ forall x, x ∈ ids -> (x <= foldr Z.max seq ids)%Z.
Proof.
  induction ids as [|y ids [IH1 IH2]]; cbn [foldr].
  - split; [lia | intros x Hx; inversion Hx].
  - split; [lia|]. intros x Hx. apply elem_of_cons in Hx as [->|Hx]; [lia|].
    specialize (IH2 x Hx). lia.
Qed.

(** A new row id is above the sequence and above every id in the table. *)
Lemma next_rowid_fresh (seq : Z) (ids : list Z) :
  (seq < next_rowid seq ids)%Z /\ forall x, x ∈ ids -> (x < next_rowid seq ids)%Z.
Proof.
  unfold next_rowid. destruct (foldr_max_le seq ids) as [H1 H2].
  split; [lia|]. intros x Hx. specialize (H2 x Hx). lia.
Qed.

Lemma next_rowid_not_in (seq : Z) (ids : list Z) : next_rowid seq ids ∉ ids.
Proof. intros H. pose proof (proj2 (next_rowid_fresh seq ids) _ H). lia. Qed.

(** ** The split rows of one call *)

(** The loop of [add_expense] and [update_expense] appends one row per
    item of [splits], in order, all under the given expense id and with
    fresh, distinct row ids. *)
Lemma insert_splits_spec (eid : Z) (splits : list (Z * Q)) (rows : list split_row) (seq : Z) :
  exists new,
    fst (ExpenseManager.insert_splits eid splits rows seq) = rows ++ new /\
    (fun r => (s_person_id r, s_share_amount r)) <$> new = splits /\
    Forall (fun r => s_expense_id r = eid) new /\
    (seq <= snd (ExpenseManager.insert_splits eid splits rows seq))%Z /\
    ((forall r, r ∈ rows -> (s_id r <= seq)%Z) ->
     forall r, r ∈ rows ++ new ->
       (s_id r <= snd (ExpenseManager.insert_splits eid splits rows seq))%Z) /\
    (NoDup (s_id <$> rows) -> NoDup (s_id <$> rows ++ new)).
Proof.
  unfold ExpenseManager.insert_splits.
  revert rows seq. induction splits as [|[pid share] splits IH]; intros rows seq.
  - exists []. cbn [fold_left fst snd]. rewrite app_nil_r.
    repeat split; auto; try constructor; lia.
  - cbn [fold_left].
    set (sid := next_rowid seq (s_id <$> rows)).
    set (row := {| s_id := sid; s_expense_id := eid;
                   s_person_id := pid; s_share_amount := share |}).
    change (ExpenseManager.insert_split eid (rows, seq) (pid, share))
      with (rows ++ [row], sid).
    destruct (IH (rows ++ [row]) sid) as (new & Hrows & Hsplits & Hall & Hseq & Hle & Hnd).
    exists (row :: new). rewrite Hrows, <- app_assoc. cbn [app].
    destruct (next_rowid_fresh seq (s_id <$> rows)) as [Hfresh1 Hfresh2]. fold sid in Hfresh1, Hfresh2.
    split; [reflexivity|]. split; [cbn [fmap list_fmap]; rewrite Hsplits; reflexivity|].
    split; [constructor; [reflexivity | exact Hall]|].
    split; [lia|]. split.
    + intros Hold r Hr. replace (rows ++ row :: new) with ((rows ++ [row]) ++ new) in Hr
        by (rewrite <- app_assoc; reflexivity).
      apply Hle; [|exact Hr]. intros r' Hr'.
      apply elem_of_app in Hr' as [Hr'|Hr'].
      * specialize (Hold r' Hr'). lia.
      * apply elem_of_cons in Hr' as [->|Hr']; [cbn; lia | inversion Hr'].
    + intros Hnd0. replace (rows ++ row :: new) with ((rows ++ [row]) ++ new)
        by (rewrite <- app_assoc; reflexivity).
      apply Hnd. rewrite fmap_app. cbn [fmap list_fmap].
      apply NoDup_app. split; [exact Hnd0|]. split.
      * intros x Hx Hx'. apply elem_of_cons in Hx' as [->|Hx']; [|inversion Hx'].
        cbn in Hx. specialize (Hfresh2 _ Hx). cbn in Hfresh2. lia.
      * apply NoDup_singleton.
Qed.

(** ** What the managers keep *)

Lemma NoDup_fmap_filter {A B : Type} (f : A -> B) (P : A -> Prop)
    `{!forall x, Decision (P x)} (l : list A) :
  NoDup (f <$> l) -> NoDup (f <$> filter P l).
Proof.
  induction l as [|x l IH]; cbn [fmap list_fmap]; [intros; constructor|].
  rewrite NoDup_cons. intros [Hx Hnd]. rewrite filter_cons.
  destruct (decide (P x)); [|apply IH, Hnd].
  cbn [fmap list_fmap]. apply NoDup_cons. split; [|apply IH, Hnd].
  intros Hin. apply Hx. apply list_elem_of_fmap in Hin as (y & -> & Hy).
  apply list_elem_of_fmap. exists y. split; [reflexivity|].
  apply list_elem_of_filter in Hy as [_ Hy]. exact Hy.
Qed.

Lemma empty_store_ok : store_ok empty_store.
Proof. split; cbn; try constructor; intros x Hx; inversion Hx. Qed.

Lemma add_person_ok (n : string) (st : Store) :
  store_ok st -> store_ok (snd (PersonManager.add_person n st)).
Proof.
  intros [H1 H2 H3 H4 H5 H6 H7]. unfold PersonManager.add_person.
  destruct (decide (n ∈ (person (tables st)).*2)) as [Hin|Hnin];
    [split; assumption|].
  split; cbn [snd tables person expense expense_split expense_seq split_seq];
    try assumption.
  - rewrite fmap_app. cbn [fmap list_fmap fst]. apply NoDup_app.
    split; [exact H1|]. split; [|apply NoDup_singleton].
    intros x Hx Hx'. apply elem_of_cons in Hx' as [->|Hx']; [|inversion Hx'].
    exact (next_rowid_not_in _ _ Hx).
  - rewrite fmap_app. cbn [fmap list_fmap snd]. apply NoDup_app.
    split; [exact H2|]. split; [|apply NoDup_singleton].
    intros x Hx Hx'. apply elem_of_cons in Hx' as [->|Hx']; [|inversion Hx'].
    exact (Hnin Hx).
Qed.

Lemma rename_ids (pid : Z) (n : string) (l : list (Z * string)) :
  ((fun p => if Z.eqb (fst p) pid then (fst p, n) else p) <$> l).*1 = l.*1.
Proof.
  induction l as [|[q m] l IH]; [reflexivity|].
  cbn [fmap list_fmap fst]. f_equal; [|exact IH].
  destruct (Z.eqb q pid); reflexivity.
Qed.

Lemma rename_absent (pid : Z) (n : string) (l : list (Z * string)) :
  pid ∉ l.*1 -> (fun p => if Z.eqb (fst p) pid then (fst p, n) else p) <$> l = l.
Proof.
  induction l as [|[q m] l IH]; [reflexivity|].
  cbn [fmap list_fmap fst]. rewrite not_elem_of_cons. intros [Hne Hnin].
  destruct (Z.eqb_spec q pid) as [->|_]; [congruence|]. rewrite IH by exact Hnin.
  reflexivity.
Qed.

Lemma rename_names (pid : Z) (n : string) (l : list (Z * string)) :
  NoDup l.*1 -> NoDup l.*2 ->
  (forall p, p ∈ l -> fst p <> pid -> snd p <> n) ->
  NoDup ((fun p => if Z.eqb (fst p) pid then (fst p, n) else p) <$> l).*2.
Proof.
  induction l as [|[q m] l IH]; [intros; constructor|].
  cbn [fmap list_fmap fst snd]. rewrite !NoDup_cons.
  intros [Hq Hids] [Hm Hnames] Hother.
  assert (Hother' : forall p, p ∈ l -> fst p <> pid -> snd p <> n)
    by (intros p Hp; apply Hother, list_elem_of_further, Hp).
  destruct (Z.eqb_spec q pid) as [->|Hne]; cbn [snd].
  - rewrite (rename_absent _ _ _ Hq). split; [|exact Hnames].
    intros Hin. apply list_elem_of_fmap in Hin as ([q' m'] & Hn & Hp). cbn in Hn. subst m'.
    apply (Hother' _ Hp); [|reflexivity]. cbn. intros ->. apply Hq.
    apply list_elem_of_fmap. exists (pid, n). split; [reflexivity | exact Hp].
  - split; [|apply IH; assumption].
    intros Hin. apply list_elem_of_fmap in Hin as (x & Hx & Hp).
    apply list_elem_of_fmap in Hp as ([q' m'] & -> & Hp). cbn [fst] in Hx.
    destruct (Z.eqb_spec q' pid) as [->|Hne']; cbn [snd] in Hx.
    + subst m. apply (Hother (q, n)); [apply list_elem_of_here | exact Hne | reflexivity].
    + subst m'. apply Hm. apply list_elem_of_fmap. exists (q', m).
      split; [reflexivity | exact Hp].
Qed.

Lemma existsb_false_elem {A : Type} (f : A -> bool) (l : list A) (x : A) :
  existsb f l = false -> x ∈ l -> f x = false.
Proof.
  intros H Hx. destruct (f x) eqn:E; [|reflexivity].
  assert (Hex : existsb f l = true)
    by (apply existsb_exists; exists x; split; [apply list_elem_of_In, Hx | exact E]).
  congruence.
Qed.

Lemma update_person_ok (pid : Z) (n : string) (st : Store) :
  store_ok st -> store_ok (snd (PersonManager.update_person pid n st)).
Proof.
  intros Hok. pose proof Hok as [H1 H2 H3 H4 H5 H6 H7].
  unfold PersonManager.update_person. cbn zeta.
  destruct (existsb (fun p => Z.eqb (fst p) pid) (person (tables st))) eqn:Hhit;
    cbn [andb].
  - destruct (existsb
        (fun p => negb (Z.eqb (fst p) pid) && String.eqb (snd p) n)
        (person (tables st))) eqn:Hclash; [exact Hok|].
    split; cbn [snd tables person expense expense_split expense_seq split_seq];
      try assumption.
    + rewrite rename_ids. exact H1.
    + apply rename_names; [exact H1 | exact H2 |].
      intros p Hp Hne Hn. pose proof (existsb_false_elem _ _ _ Hclash Hp) as E.
      cbn beta in E. destruct (Z.eqb_spec (fst p) pid) as [|_]; [contradiction|].
      rewrite Hn, String.eqb_refl in E. discriminate.
  - split; cbn [snd tables person expense expense_split expense_seq split_seq];
      try assumption.
    + rewrite rename_ids. exact H1.
    + rewrite rename_absent; [exact H2|].
      intros Hin. apply list_elem_of_fmap in Hin as (p & Hp1 & Hp).
      pose proof (existsb_false_elem _ _ _ Hhit Hp) as E. cbn beta in E.
      rewrite <- Hp1, Z.eqb_refl in E. discriminate.
Qed.

Lemma delete_person_ok (pid : Z) (st : Store) :
  store_ok st -> store_ok (PersonManager.delete_person pid st).
Proof.
  intros [H1 H2 H3 H4 H5 H6 H7].
  split; cbn [PersonManager.delete_person tables person expense expense_split
              expense_seq split_seq]; try assumption;
    apply NoDup_fmap_filter; assumption.
Qed.

Lemma add_expense_ok (d : string) (a : Q) (dt : string) (pb : Z)
    (splits : list (Z * Q)) (st : Store) :
  store_ok st -> store_ok (snd (ExpenseManager.add_expense d a dt pb splits st)).
Proof.
  intros [H1 H2 H3 H4 H5 H6 H7]. unfold ExpenseManager.add_expense. cbn zeta.
  set (eid := next_rowid (expense_seq st) (e_id <$> expense (tables st))).
  destruct (insert_splits_spec eid splits (expense_split (tables st)) (split_seq st))
    as (new & Hrows & _ & Hall & _ & Hle & Hnd).
  destruct (next_rowid_fresh (expense_seq st) (e_id <$> expense (tables st)))
    as [Hseq Hfresh]. fold eid in Hseq, Hfresh.
  split; cbn [snd tables person expense expense_split expense_seq split_seq];
    try assumption.
  - rewrite fmap_app. cbn [fmap list_fmap e_id]. apply NoDup_app.
    split; [exact H3|]. split; [|apply NoDup_singleton].
    intros x Hx Hx'. apply elem_of_cons in Hx' as [->|Hx']; [|inversion Hx'].
    specialize (Hfresh _ Hx). lia.
  - rewrite Hrows. apply Hnd, H4.
  - intros e He. apply elem_of_app in He as [He|He].
    + specialize (H5 e He). lia.
    + apply elem_of_cons in He as [->|He]; [cbn; lia | inversion He].
  - intros r Hr. rewrite Hrows in Hr. apply Hle; assumption.
  - intros r Hr. rewrite Hrows in Hr. apply elem_of_app in Hr as [Hr|Hr].
    + specialize (H7 r Hr). lia.
    + rewrite Forall_forall in Hall. rewrite (Hall r Hr). lia.
Qed.

Lemma rewrite_expense_ids (eid : Z) (d : string) (a : Q) (dt : string) (pb : Z)
    (l : list expense_row) :
  e_id <$> ((fun e => if Z.eqb (e_id e) eid
                      then {| e_id := e_id e; e_description := d; e_amount := a;
                              e_date := dt; e_paid_by := pb |}
                      else e) <$> l) = e_id <$> l.
Proof.
  induction l as [|e l IH]; [reflexivity|].
  cbn [fmap list_fmap]. f_equal; [|exact IH].
  destruct (Z.eqb (e_id e) eid); reflexivity.
Qed.

Lemma update_expense_ok (eid : Z) (d : string) (a : Q) (dt : string) (pb : Z)
    (splits : list (Z * Q)) (st : Store) :
  store_ok st -> (eid <= expense_seq st)%Z ->
  store_ok (snd (ExpenseManager.update_expense eid d a dt pb splits st)).
Proof.
  intros [H1 H2 H3 H4 H5 H6 H7] Heid. unfold ExpenseManager.update_expense. cbn zeta.
  set (kept := filter (fun es => s_expense_id es <> eid) (expense_split (tables st))).
  destruct (insert_splits_spec eid splits kept (split_seq st))
    as (new & Hrows & _ & Hall & _ & Hle & Hnd).
  assert (Hkept : forall r, r ∈ kept -> r ∈ expense_split (tables st))
    by (intros r Hr; apply list_elem_of_filter in Hr as [_ Hr]; exact Hr).
  split; cbn [snd tables person expense expense_split expense_seq split_seq];
    try assumption.
  - rewrite rewrite_expense_ids. exact H3.
  - rewrite Hrows. apply Hnd. apply NoDup_fmap_filter, H4.
  - intros e He. apply list_elem_of_fmap in He as (e0 & -> & He0).
    specialize (H5 e0 He0). destruct (Z.eqb (e_id e0) eid); exact H5.
  - intros r Hr. rewrite Hrows in Hr. apply Hle; [|exact Hr].
    intros r' Hr'. apply H6, Hkept, Hr'.
  - intros r Hr. rewrite Hrows in Hr. apply elem_of_app in Hr as [Hr|Hr].
    + apply H7, Hkept, Hr.
    + rewrite Forall_forall in Hall. rewrite (Hall r Hr). exact Heid.
Qed.

Lemma delete_expense_ok (eid : Z) (st : Store) :
  store_ok st -> store_ok (snd (ExpenseManager.delete_expense eid st)).
Proof.
  intros [H1 H2 H3 H4 H5 H6 H7].
  split; cbn [ExpenseManager.delete_expense snd tables person expense expense_split
              expense_seq split_seq]; try assumption.
  - apply NoDup_fmap_filter, H3.
  - intros e He. apply list_elem_of_filter in He as [_ He]. apply H5, He.
Qed.

(** X7: every write of the two managers keeps the ids of each table
    unique, the person names unique, the expense ids at most the last id
    handed out, and the split rows pointing only at expense ids that were
    handed out; [update_expense] does so for an expense id that was. *)
Theorem managers_keep_store_ok (st : Store) :
  store_ok st ->
  (forall n, store_ok (snd (PersonManager.add_person n st))) /\
  (forall pid n, store_ok (snd (PersonManager.update_person pid n st))) /\
  (forall pid, store_ok (PersonManager.delete_person pid st)) /\
  (forall d a dt pb splits,
     store_ok (snd (ExpenseManager.add_expense d a dt pb splits st))) /\
  (forall eid d a dt pb splits, (eid <= expense_seq st)%Z ->
     store_ok (snd (ExpenseManager.update_expense eid d a dt pb splits st))) /\
  (forall eid, store_ok (snd (ExpenseManager.delete_expense eid st))).
Proof.
  intros Hok. split; [|split; [|split; [|split; [|split]]]]; intros.
  - apply add_person_ok, Hok.
  - apply update_person_ok, Hok.
  - apply delete_person_ok, Hok.
  - apply add_expense_ok, Hok.
  - apply update_expense_ok; assumption.
  - apply delete_expense_ok, Hok.
Qed.

Lemma managers_keep_store_ok_witness :
  store_ok empty_store /\
  store_ok (snd (PersonManager.add_person "Alice" empty_store)).
Proof.
  split; [exact empty_store_ok|].
  exact (proj1 (managers_keep_store_ok empty_store empty_store_ok) "Alice"%string).
Defined.

(** ** Filters that keep nothing, or everything *)

Lemma filter_none {A : Type} (P : A -> Prop) `{!forall x, Decision (P x)} (l : list A) :
  (forall x, x ∈ l -> ~ P x) -> filter P l = [].
Proof.
  induction l as [|x l IH]; intros Hall; [reflexivity|].
  rewrite filter_cons, decide_False by (apply Hall, list_elem_of_here).
  apply IH. intros y Hy. apply Hall, list_elem_of_further, Hy.
Qed.

Lemma filter_all {A : Type} (P : A -> Prop) `{!forall x, Decision (P x)} (l : list A) :
  (forall x, x ∈ l -> P x) -> filter P l = l.
Proof.
  induction l as [|x l IH]; intros Hall; [reflexivity|].
  rewrite filter_cons, decide_True by (apply Hall, list_elem_of_here).
  f_equal. apply IH. intros y Hy. apply Hall, list_elem_of_further, Hy.
Qed.

(** ** Persons *)

(** X8: [add_person] refuses a name that is taken and then changes
    nothing; otherwise it appends the person under an id no row has and
    above every id handed out before, and [get_person_by_id] of that id
    returns the new row. *)
Theorem add_person_spec (n : string) (st : Store) :
  (n ∈ (person (tables st)).*2 -> PersonManager.add_person n st = (false, st)) /\
  ((n ∉ (person (tables st)).*2) ->
   exists pid st',
     PersonManager.add_person n st = (true, st') /\
     (pid ∉ (person (tables st)).*1) /\ (person_seq st < pid)%Z /\
     person (tables st') = person (tables st) ++ [(pid, n)] /\
     expense (tables st') = expense (tables st) /\
     expense_split (tables st') = expense_split (tables st) /\
     PersonManager.get_person_by_id pid st' = Some (pid, n)).
Proof.
  unfold PersonManager.add_person. split; intros H.
  - rewrite decide_True by exact H. reflexivity.
  - rewrite decide_False by exact H.
    set (pid := next_rowid (person_seq st) (person (tables st)).*1).
    exists pid. eexists. split; [reflexivity|].
    cbn [tables person expense expense_split].
    split; [exact (next_rowid_not_in _ _)|].
    split; [exact (proj1 (next_rowid_fresh _ _))|].
    repeat (split; [reflexivity|]).
    unfold PersonManager.get_person_by_id. cbn [tables person].
    rewrite filter_app, filter_cons, filter_nil. cbn [fst].
    rewrite decide_True by reflexivity.
    replace (filter (fun p : Z * string => fst p = pid) (person (tables st)))
      with (@nil (Z * string)); [reflexivity|].
    symmetry. apply filter_none. intros p Hp Heq.
    apply (next_rowid_not_in (person_seq st) (person (tables st)).*1).
    fold pid. rewrite <- Heq. apply list_elem_of_fmap. exists p. split; [reflexivity|exact Hp].
Qed.

(** X9: once a person who paid an expense or has a share in one is
    deleted, [calculate_balances] raises [KeyError]: the rows that name
    the person are still there. *)
Theorem delete_person_breaks_balances (pid : Z) (st : Store) :
  (exists e, e ∈ expense (tables st) /\ e_paid_by e = pid) \/
  (exists r, r ∈ expense_split (tables st) /\ s_person_id r = pid) ->
  calculate_balances (tables (PersonManager.delete_person pid st)) = None.
Proof.
  intros Href.
  destruct (calculate_balances (tables (PersonManager.delete_person pid st)))
    as [b|] eqn:Hb; [|reflexivity]. exfalso.
  destruct (proj1 (balances_defined_iff _) (ex_intro _ b Hb)) as [Hpay Hsh].
  cbn [PersonManager.delete_person tables person expense expense_split] in Hpay, Hsh.
  assert (Hgone : pid ∉ (filter (fun p : Z * string => fst p <> pid) (person (tables st))).*1).
  { intros Hin. apply list_elem_of_fmap in Hin as (p & Hp & Hin).
    apply list_elem_of_filter in Hin as [Hne _]. congruence. }
  destruct Href as [(e & He & <-)|(r & Hr & <-)]; apply Hgone; auto.
Qed.

Lemma delete_person_breaks_balances_witness :
  calculate_balances
    (tables (PersonManager.delete_person 2%Z
       {| tables := scenario_A; person_seq := 3; expense_seq := 1; split_seq := 3 |}))
  = None.
Proof.
  apply delete_person_breaks_balances. right.
  exists {| s_id := 2; s_expense_id := 1; s_person_id := 2; s_share_amount := 10 |}.
  split; [|reflexivity]. cbn. apply list_elem_of_further, list_elem_of_here.
Defined.

(** ** How the writes move the sum of the balances *)

Lemma Qsum_filter {A : Type} (f : A -> Q) (P : A -> Prop)
    `{!forall x, Decision (P x)} (l : list A) :
  Qsum (map f l) ==
  Qsum (map f (filter P l)) + Qsum (map f (filter (fun x => ~ P x) l)).
Proof.
  induction l as [|x l IH]; [reflexivity|].
  rewrite !filter_cons.
  change (Qsum (map f (x :: l))) with (f x + Qsum (map f l)).
  destruct (decide (P x)) as [Hx|Hx].
  - rewrite decide_False by tauto.
    change (Qsum (map f (x :: filter P l))) with (f x + Qsum (map f (filter P l))).
    lra.
  - rewrite decide_True by exact Hx.
    change (Qsum (map f (x :: filter (fun x => ~ P x) l)))
      with (f x + Qsum (map f (filter (fun x => ~ P x) l))).
    lra.
Qed.

Lemma new_rows_shares (new : list split_row) (splits : list (Z * Q)) :
  (fun r => (s_person_id r, s_share_amount r)) <$> new = splits ->
  Qsum (map s_share_amount new) = Qsum (map snd splits).
Proof. intros <-. symmetry. apply Qsum_rows. Qed.

Lemma new_rows_known (new : list split_row) (splits : list (Z * Q)) (ids : list Z) :
  (fun r => (s_person_id r, s_share_amount r)) <$> new = splits ->
  (forall sp, sp ∈ splits -> fst sp ∈ ids) ->
  forall r, r ∈ new -> s_person_id r ∈ ids.
Proof.
  intros <- Hall r Hr.
  apply (Hall (s_person_id r, s_share_amount r)).
  apply list_elem_of_fmap. exists r. split; [reflexivity | exact Hr].
Qed.

(** The balances after [add_expense], against the balances before. *)
Lemma add_expense_sum (d : string) (a : Q) (dt : string) (pb : Z)
    (splits : list (Z * Q)) (st : Store) (b : balances_t) :
  calculate_balances (tables st) = Some b ->
  pb ∈ (person (tables st)).*1 ->
  (forall sp, sp ∈ splits -> fst sp ∈ (person (tables st)).*1) ->
  exists b',
    calculate_balances (tables (snd (ExpenseManager.add_expense d a dt pb splits st)))
      = Some b' /\
    sum_balances b' == sum_balances b + (a - Qsum (map snd splits)).
Proof.
  intros Hb Hpb Hsp.
  destruct (proj1 (balances_defined_iff _) (ex_intro _ b Hb)) as [Hpay Hsh].
  unfold ExpenseManager.add_expense. cbn zeta. cbn [snd].
  set (eid := next_rowid (expense_seq st) (e_id <$> expense (tables st))).
  destruct (insert_splits_spec eid splits (expense_split (tables st)) (split_seq st))
    as (new & Hrows & Hnew & _).
  match goal with |- exists b', calculate_balances ?db = _ /\ _ => set (db' := db) end.
  destruct (proj2 (balances_defined_iff db')) as [b' Hb'].
  { subst db'. cbn [tables person expense expense_split]. split.
    - intros e He. apply elem_of_app in He as [He|He]; [apply Hpay, He|].
      apply elem_of_cons in He as [->|He]; [exact Hpb | inversion He].
    - intros r Hr. rewrite Hrows in Hr. apply elem_of_app in Hr as [Hr|Hr];
        [apply Hsh, Hr | eapply new_rows_known; eauto]. }
  exists b'. split; [exact Hb'|].
  rewrite (calculate_balances_sum _ _ Hb'), (calculate_balances_sum _ _ Hb).
  subst db'. cbn [tables expense expense_split].
  rewrite Hrows, !map_app, !Qsum_app, (new_rows_shares _ _ Hnew).
  change (Qsum (map e_amount [ {| e_id := eid; e_description := d; e_amount := a;
                                   e_date := dt; e_paid_by := pb |} ])) with (a + 0).
  lra.
Qed.

(** X10: adding an expense whose payer and sharers are persons keeps
    [calculate_balances] defined, and moves the sum of the balances by the
    amount minus the shares: not at all when the shares add up to the
    amount. *)
Theorem add_expense_shifts_sum (d : string) (a : Q) (dt : string) (pb : Z)
    (splits : list (Z * Q)) (st : Store) (b : balances_t) :
  calculate_balances (tables st) = Some b ->
  pb ∈ (person (tables st)).*1 ->
  (forall sp, sp ∈ splits -> fst sp ∈ (person (tables st)).*1) ->
  exists b',
    calculate_balances (tables (snd (ExpenseManager.add_expense d a dt pb splits st)))
      = Some b' /\
    sum_balances b' == sum_balances b + (a - Qsum (map snd splits)).
Proof. exact (add_expense_sum d a dt pb splits st b). Qed.

Lemma add_expense_shifts_sum_witness :
  exists b',
    calculate_balances
      (tables (snd (ExpenseManager.add_expense "Taxi" 12 "2024-01-02" 2%Z
                      [(1%Z, 6); (2%Z, 6)]
                      {| tables := scenario_A; person_seq := 3;
                         expense_seq := 1; split_seq := 3 |}))) = Some b' /\
    sum_balances b' ==
      sum_balances [ (1%Z, {| name := "Alice"; balance := 20 |});
                     (2%Z, {| name := "Bob"; balance := -10 |});
                     (3%Z, {| name := "Carol"; balance := -10 |}) ]
      + (12 - Qsum (map snd [(1%Z, 6); (2%Z, 6)])).
Proof.
  apply (add_expense_shifts_sum "Taxi" 12 "2024-01-02" 2%Z [(1%Z, 6); (2%Z, 6)]
           {| tables := scenario_A; person_seq := 3; expense_seq := 1; split_seq := 3 |}).
  - vm_compute. reflexivity.
  - apply (bool_decide_unpack _). vm_compute. reflexivity.
  - apply Forall_forall. repeat constructor;
      apply (bool_decide_unpack _); vm_compute; reflexivity.
Defined.

Lemma Qsum_delete (eid : Z) (e : expense_row) (l : list expense_row) :
  NoDup (e_id <$> l) -> e ∈ l -> e_id e = eid ->
  Qsum (map e_amount (filter (fun x => e_id x <> eid) l))
  == Qsum (map e_amount l) - e_amount e.
Proof.
  intros Hnd Hin <-. induction l as [|x l IH]; [inversion Hin|].
  cbn [fmap list_fmap] in Hnd. apply NoDup_cons in Hnd as [Hx Hnd].
  rewrite filter_cons.
  change (Qsum (map e_amount (x :: l))) with (e_amount x + Qsum (map e_amount l)).
  apply elem_of_cons in Hin as [->|Hin].
  - rewrite decide_False by tauto.
    replace (filter (fun x0 => e_id x0 <> e_id x) l) with l; [lra|].
    symmetry. apply filter_all. intros y Hy Heq. apply Hx.
    rewrite <- Heq. apply list_elem_of_fmap. exists y. split; [reflexivity | exact Hy].
  - rewrite decide_True.
    + change (Qsum (map e_amount (x :: filter (fun x0 => e_id x0 <> e_id e) l)))
        with (e_amount x + Qsum (map e_amount (filter (fun x0 => e_id x0 <> e_id e) l))).
      rewrite (IH Hnd Hin). lra.
    + intros Heq. apply Hx. rewrite Heq. apply list_elem_of_fmap.
      exists e. split; [reflexivity | exact Hin].
Qed.

(** X11: [delete_expense] removes the expense row and no split row: the
    shares of the deleted expense are still subtracted, and the balances
    then sum to what they summed to before minus the deleted amount. *)
Theorem delete_expense_keeps_shares (eid : Z) (e : expense_row) (st : Store)
    (b : balances_t) :
  calculate_balances (tables st) = Some b ->
  NoDup (e_id <$> expense (tables st)) ->
  e ∈ expense (tables st) -> e_id e = eid ->
  expense_split (tables (snd (ExpenseManager.delete_expense eid st)))
    = expense_split (tables st) /\
  (e ∉ expense (tables (snd (ExpenseManager.delete_expense eid st)))) /\
  exists b',
    calculate_balances (tables (snd (ExpenseManager.delete_expense eid st))) = Some b' /\
    sum_balances b' == sum_balances b - e_amount e.
Proof.
  intros Hb Hnd He Heid.
  destruct (proj1 (balances_defined_iff _) (ex_intro _ b Hb)) as [Hpay Hsh].
  cbn [ExpenseManager.delete_expense snd tables expense_split expense].
  split; [reflexivity|]. split.
  { intros Hin. apply list_elem_of_filter in Hin as [Hne _]. congruence. }
  match goal with |- exists b', calculate_balances ?db = _ /\ _ => set (db' := db) end.
  destruct (proj2 (balances_defined_iff db')) as [b' Hb'].
  { subst db'. cbn [tables person expense expense_split]. split; [|exact Hsh].
    intros x Hx. apply list_elem_of_filter in Hx as [_ Hx]. apply Hpay, Hx. }
  exists b'. split; [exact Hb'|].
  rewrite (calculate_balances_sum _ _ Hb'), (calculate_balances_sum _ _ Hb).
  subst db'. cbn [tables expense expense_split].
  rewrite (Qsum_delete eid e _ Hnd He Heid). lra.
Qed.

Lemma delete_expense_keeps_shares_witness :
  exists b',
    calculate_balances (tables (snd (ExpenseManager.delete_expense 1%Z store_A)))
      = Some b' /\
    sum_balances b' ==
      sum_balances [ (1%Z, {| name := "Alice"; balance := 20 |});
                     (2%Z, {| name := "Bob"; balance := -10 |});
                     (3%Z, {| name := "Carol"; balance := -10 |}) ] - 30.
Proof.
  refine (proj2 (proj2 (delete_expense_keeps_shares 1%Z
    {| e_id := 1; e_description := "Dinner"; e_amount := 30;
       e_date := "2024-01-01"; e_paid_by := 1 |} store_A _ _ _ _ _)));
    [vm_compute; reflexivity
    |apply (bool_decide_unpack _); vm_compute; reflexivity
    |apply list_elem_of_here
    |reflexivity].
Defined.

Lemma fmap_fixed {A : Type} (f : A -> A) (l : list A) :
  (forall x, x ∈ l -> f x = x) -> f <$> l = l.
Proof.
  induction l as [|x l IH]; intros H; [reflexivity|].
  cbn [fmap list_fmap]. rewrite (H x) by apply list_elem_of_here.
  f_equal. apply IH. intros y Hy. apply H, list_elem_of_further, Hy.
Qed.

Lemma Qsum_rewrite_row (eid : Z) (e : expense_row) (d : string) (a : Q)
    (dt : string) (pb : Z) (l : list expense_row) :
  NoDup (e_id <$> l) -> e ∈ l -> e_id e = eid ->
  Qsum (map e_amount
    ((fun x => if Z.eqb (e_id x) eid
               then {| e_id := e_id x; e_description := d; e_amount := a;
                       e_date := dt; e_paid_by := pb |}
               else x) <$> l))
  == Qsum (map e_amount l) - e_amount e + a.
Proof.
  intros Hnd Hin <-. induction l as [|x l IH]; [inversion Hin|].
  cbn [fmap list_fmap] in *. apply NoDup_cons in Hnd as [Hx Hnd].
  match goal with
  | |- Qsum (map e_amount (?h :: ?t)) == _ =>
      change (Qsum (map e_amount (h :: t))) with (e_amount h + Qsum (map e_amount t))
  end.
  change (Qsum (map e_amount (x :: l))) with (e_amount x + Qsum (map e_amount l)).
  apply elem_of_cons in Hin as [->|Hin].
  - rewrite Z.eqb_refl. cbn [e_amount].
    rewrite fmap_fixed; [lra|].
    intros y Hy. destruct (Z.eqb_spec (e_id y) (e_id x)) as [Heq|_]; [|reflexivity].
    exfalso. apply Hx. rewrite <- Heq. apply list_elem_of_fmap.
    exists y. split; [reflexivity | exact Hy].
  - destruct (Z.eqb_spec (e_id x) (e_id e)) as [Heq|_].
    + exfalso. apply Hx. rewrite Heq. apply list_elem_of_fmap.
      exists e. split; [reflexivity | exact Hin].
    + rewrite (IH Hnd Hin). lra.
Qed.

(** X12: [update_expense] of an existing expense, to a payer and sharers
    who are persons, keeps [calculate_balances] defined and moves the sum
    of the balances by what the new row and shares miss minus what the old
    ones missed: the old shares are gone, the new ones are in. *)
Theorem update_expense_shifts_sum (eid : Z) (e : expense_row) (d : string) (a : Q)
    (dt : string) (pb : Z) (splits : list (Z * Q)) (st : Store) (b : balances_t) :
  calculate_balances (tables st) = Some b ->
  NoDup (e_id <$> expense (tables st)) ->
  e ∈ expense (tables st) -> e_id e = eid ->
  pb ∈ (person (tables st)).*1 ->
  (forall sp, sp ∈ splits -> fst sp ∈ (person (tables st)).*1) ->
  exists b',
    calculate_balances
      (tables (snd (ExpenseManager.update_expense eid d a dt pb splits st))) = Some b' /\
    sum_balances b' ==
      sum_balances b - (e_amount e - split_total (tables st) eid)
                     + (a - Qsum (map snd splits)).
Proof.
  intros Hb Hnd He Heid Hpb Hsp.
  destruct (proj1 (balances_defined_iff _) (ex_intro _ b Hb)) as [Hpay Hsh].
  unfold ExpenseManager.update_expense. cbn zeta. cbn [snd].
  set (kept := filter (fun es => s_expense_id es <> eid) (expense_split (tables st))).
  destruct (insert_splits_spec eid splits kept (split_seq st))
    as (new & Hrows & Hnew & _).
  match goal with |- exists b', calculate_balances ?db = _ /\ _ => set (db' := db) end.
  destruct (proj2 (balances_defined_iff db')) as [b' Hb'].
  { subst db'. cbn [tables person expense expense_split]. split.
    - intros x Hx. apply list_elem_of_fmap in Hx as (x0 & -> & Hx0).
      destruct (Z.eqb (e_id x0) eid); [exact Hpb | apply Hpay, Hx0].
    - intros r Hr. rewrite Hrows in Hr. apply elem_of_app in Hr as [Hr|Hr].
      + apply list_elem_of_filter in Hr as [_ Hr]. apply Hsh, Hr.
      + eapply new_rows_known; eauto. }
  exists b'. split; [exact Hb'|].
  rewrite (calculate_balances_sum _ _ Hb'), (calculate_balances_sum _ _ Hb).
  subst db'. cbn [tables expense expense_split].
  rewrite Hrows, map_app, Qsum_app, (new_rows_shares _ _ Hnew).
  rewrite (Qsum_rewrite_row eid e d a dt pb _ Hnd He Heid).
  rewrite (Qsum_filter s_share_amount (fun es => s_expense_id es = eid)
             (expense_split (tables st))).
  fold kept. unfold split_total. lra.
Qed.

Lemma update_expense_shifts_sum_witness :
  exists b',
    calculate_balances
      (tables (snd (ExpenseManager.update_expense 1%Z "Dinner" 40 "2024-01-01" 1%Z
                      [(2%Z, 20); (3%Z, 20)] store_A))) = Some b' /\
    sum_balances b' ==
      sum_balances [ (1%Z, {| name := "Alice"; balance := 20 |});
                     (2%Z, {| name := "Bob"; balance := -10 |});
                     (3%Z, {| name := "Carol"; balance := -10 |}) ]
      - (30 - split_total (tables store_A) 1%Z)
      + (40 - Qsum (map snd [(2%Z, 20); (3%Z, 20)])).
Proof.
  refine (update_expense_shifts_sum 1%Z
    {| e_id := 1; e_description := "Dinner"; e_amount := 30;
       e_date := "2024-01-01"; e_paid_by := 1 |}
    "Dinner" 40 "2024-01-01" 1%Z [(2%Z, 20); (3%Z, 20)] store_A _ _ _ _ _ _ _);
    [vm_compute; reflexivity
    |apply (bool_decide_unpack _); vm_compute; reflexivity
    |apply list_elem_of_here
    |reflexivity
    |apply (bool_decide_unpack _); vm_compute; reflexivity
    |apply Forall_forall; repeat constructor;
       apply (bool_decide_unpack _); vm_compute; reflexivity].
Defined.

(** ** Reading back what was written *)

Lemma person_row (persons : list (Z * string)) (p : Z) (n : string) :
  NoDup persons.*1 -> (p, n) ∈ persons ->
  filter (fun x => fst x = p) persons = [(p, n)].
Proof.
  induction persons as [|[q m] l IH]; intros Hnd Hin; [inversion Hin|].
  cbn [fmap list_fmap fst] in Hnd. apply NoDup_cons in Hnd as [Hq Hnd].
  rewrite filter_cons. cbn [fst].
  apply elem_of_cons in Hin as [[= <- <-]|Hin].
  - rewrite decide_True by reflexivity. f_equal.
    apply filter_none. intros x Hx Heq. apply Hq. rewrite <- Heq.
    apply list_elem_of_fmap. exists x. split; [reflexivity | exact Hx].
  - rewrite decide_False; [apply IH; assumption|].
    intros ->. apply Hq. apply list_elem_of_fmap. exists (p, n). split; [reflexivity|exact Hin].
Qed.

Lemma person_row_absent (persons : list (Z * string)) (p : Z) :
  p ∉ persons.*1 -> filter (fun x => fst x = p) persons = [].
Proof.
  intros H. apply filter_none. intros x Hx Heq. apply H. rewrite <- Heq.
  apply list_elem_of_fmap. exists x. split; [reflexivity | exact Hx].
Qed.

(** The join of split rows with unique, known persons keeps every row, in
    order, and attaches the person's name. *)
Lemma join_split_rows (persons : list (Z * string)) (rows : list split_row) :
  NoDup persons.*1 ->
  (forall r, r ∈ rows -> s_person_id r ∈ persons.*1) ->
  let joined :=
    es ← rows;
    p ← filter (fun p => fst p = s_person_id es) persons;
    [(s_id es, s_expense_id es, s_person_id es, snd p, s_share_amount es)] in
  (fun x => (row_person x, row_share x)) <$> joined
    = (fun r => (s_person_id r, s_share_amount r)) <$> rows /\
  forall x, x ∈ joined -> (row_person x, row_name x) ∈ persons.
Proof.
  intros Hnd. induction rows as [|r rows IH]; intros Hknown joined.
  - split; [reflexivity | intros x Hx; inversion Hx].
  - assert (Hr : s_person_id r ∈ persons.*1) by apply Hknown, list_elem_of_here.
    apply list_elem_of_fmap in Hr as ([p n] & Hp & Hin). cbn [fst] in Hp.
    destruct IH as [IH1 IH2];
      [intros y Hy; apply Hknown, list_elem_of_further, Hy|].
    subst joined. rewrite bind_cons.
    rewrite Hp, (person_row _ _ _ Hnd Hin), bind_singleton. cbn [snd app].
    split.
    + cbn [fmap list_fmap]. rewrite <- Hp. f_equal. exact IH1.
    + intros x Hx. apply elem_of_cons in Hx as [->|Hx]; [exact Hin | apply IH2, Hx].
Qed.

Lemma filter_other_expense (eid eid' : Z) (rows : list split_row) :
  eid' <> eid ->
  filter (fun es => s_expense_id es = eid')
         (filter (fun es => s_expense_id es <> eid) rows)
  = filter (fun es => s_expense_id es = eid') rows.
Proof.
  intros Hne. induction rows as [|r rows IH]; [reflexivity|].
  rewrite (filter_cons _ r rows).
  destruct (decide (s_expense_id r <> eid)) as [H|H].
  - rewrite !filter_cons. destruct (decide (s_expense_id r = eid')); rewrite IH; reflexivity.
  - rewrite IH, filter_cons. rewrite decide_False; [reflexivity|].
    intros Heq. apply H. congruence.
Qed.

Lemma filter_new_rows (eid eid' : Z) (new : list split_row) :
  Forall (fun r => s_expense_id r = eid) new ->
  filter (fun es => s_expense_id es = eid') new = if decide (eid' = eid) then new else [].
Proof.
  intros Hall. rewrite Forall_forall in Hall. destruct (decide (eid' = eid)) as [->|Hne].
  - apply filter_all. exact Hall.
  - apply filter_none. intros r Hr Heq. apply Hne. rewrite <- Heq. apply Hall, Hr.
Qed.

(** X13: after [add_expense] with sharers who are persons,
    [get_expense_splits] of the new id returns exactly the given splits,
    in order, each with its person's name; the splits of every other
    expense read as before, also those left behind by a deleted expense,
    whose id is never handed out again. *)
Theorem add_expense_round_trip (d : string) (a : Q) (dt : string) (pb : Z)
    (splits : list (Z * Q)) (st : Store) :
  store_ok st ->
  (forall sp, sp ∈ splits -> fst sp ∈ (person (tables st)).*1) ->
  let eid := next_rowid (expense_seq st) (e_id <$> expense (tables st)) in
  let st' := snd (ExpenseManager.add_expense d a dt pb splits st) in
  (fun x => (row_person x, row_share x)) <$> ExpenseManager.get_expense_splits eid st'
    = splits /\
  (forall x, x ∈ ExpenseManager.get_expense_splits eid st' ->
     (row_person x, row_name x) ∈ person (tables st)) /\
  (forall eid', eid' <> eid ->
     ExpenseManager.get_expense_splits eid' st'
     = ExpenseManager.get_expense_splits eid' st).
Proof.
  intros Hok Hknown eid st'.
  destruct (insert_splits_spec eid splits (expense_split (tables st)) (split_seq st))
    as (new & Hrows & Hnew & Hall & _).
  assert (Hst' : expense_split (tables st') = expense_split (tables st) ++ new
                 /\ person (tables st') = person (tables st)).
  { subst st'. unfold ExpenseManager.add_expense. cbn zeta.
    cbn [snd tables expense_split person]. fold eid. split; [exact Hrows | reflexivity]. }
  destruct Hst' as [Hsp Hpe].
  assert (Hold : filter (fun es => s_expense_id es = eid) (expense_split (tables st)) = []).
  { apply filter_none. intros r Hr Heq.
    pose proof (ok_split_refs _ Hok r Hr) as Hle.
    pose proof (proj1 (next_rowid_fresh (expense_seq st) (e_id <$> expense (tables st)))) as Hlt.
    fold eid in Hlt. lia. }
  unfold ExpenseManager.get_expense_splits. rewrite Hsp, Hpe.
  split; [|split].
  - rewrite filter_app, Hold, (filter_new_rows eid eid new Hall), decide_True by reflexivity.
    cbn [app].
    destruct (join_split_rows (person (tables st)) new (ok_person_ids _ Hok)) as [H1 _].
    { eapply new_rows_known; eauto. }
    cbn zeta in H1. rewrite H1. exact Hnew.
  - rewrite filter_app, Hold, (filter_new_rows eid eid new Hall), decide_True by reflexivity.
    cbn [app].
    destruct (join_split_rows (person (tables st)) new (ok_person_ids _ Hok)) as [_ H2].
    { eapply new_rows_known; eauto. }
    exact H2.
  - intros eid' Hne.
    rewrite filter_app, (filter_new_rows eid eid' new Hall), decide_False by exact Hne.
    rewrite app_nil_r. reflexivity.
Qed.

Lemma add_expense_round_trip_witness :
  (fun x => (row_person x, row_share x)) <$>
    ExpenseManager.get_expense_splits 2%Z
      (snd (ExpenseManager.add_expense "Taxi" 12 "2024-01-02" 2%Z
              [(1%Z, 6); (2%Z, 6)] store_A))
  = [(1%Z, 6); (2%Z, 6)].
Proof.
  assert (Hok : store_ok store_A).
  { split; try (apply (bool_decide_unpack _); vm_compute; reflexivity);
      apply Forall_forall; repeat constructor; cbn; lia. }
  assert (Hknown : forall sp, sp ∈ [(1%Z, 6); (2%Z, 6)] ->
                     fst sp ∈ (person (tables store_A)).*1).
  { apply Forall_forall. repeat constructor;
      apply (bool_decide_unpack _); vm_compute; reflexivity. }
  exact (proj1 (add_expense_round_trip "Taxi" 12 "2024-01-02" 2%Z
                  [(1%Z, 6); (2%Z, 6)] store_A Hok Hknown)).
Defined.

(** The splits of an expense after [update_expense], read back. *)
Lemma update_expense_reads_back (eid : Z) (d : string) (a : Q) (dt : string)
    (pb : Z) (splits : list (Z * Q)) (st : Store) :
  NoDup (person (tables st)).*1 ->
  (forall sp, sp ∈ splits -> fst sp ∈ (person (tables st)).*1) ->
  let st' := snd (ExpenseManager.update_expense eid d a dt pb splits st) in
  (fun x => (row_person x, row_share x)) <$> ExpenseManager.get_expense_splits eid st'
    = splits /\
  (forall eid', eid' <> eid ->
     ExpenseManager.get_expense_splits eid' st'
     = ExpenseManager.get_expense_splits eid' st).
Proof.
  intros Hnd Hknown st'.
  set (kept := filter (fun es => s_expense_id es <> eid) (expense_split (tables st))).
  destruct (insert_splits_spec eid splits kept (split_seq st))
    as (new & Hrows & Hnew & Hall & _).
  assert (Hst' : expense_split (tables st') = kept ++ new
                 /\ person (tables st') = person (tables st)).
  { subst st'. unfold ExpenseManager.update_expense. cbn zeta.
    cbn [snd tables expense_split person]. fold kept. split; [exact Hrows | reflexivity]. }
  destruct Hst' as [Hsp Hpe].
  unfold ExpenseManager.get_expense_splits. rewrite Hsp, Hpe. split.
  - rewrite filter_app, (filter_new_rows eid eid new Hall), decide_True by reflexivity.
    replace (filter (fun es => s_expense_id es = eid) kept) with (@nil split_row).
    + cbn [app].
      destruct (join_split_rows (person (tables st)) new Hnd) as [H1 _].
      { eapply new_rows_known; eauto. }
      cbn zeta in H1. rewrite H1. exact Hnew.
    + symmetry. apply filter_none. intros r Hr Heq.
      apply list_elem_of_filter in Hr as [Hne _]. contradiction.
  - intros eid' Hne.
    rewrite filter_app, (filter_new_rows eid eid' new Hall), decide_False by exact Hne.
    rewrite app_nil_r. unfold kept. rewrite filter_other_expense by exact Hne.
    reflexivity.
Qed.

(** X14: after [update_expense] with sharers who are persons,
    [get_expense_splits] of that expense returns exactly the new splits,
    and the splits of every other expense read as before. *)
Theorem update_expense_round_trip (eid : Z) (d : string) (a : Q) (dt : string)
    (pb : Z) (splits : list (Z * Q)) (st : Store) :
  NoDup (person (tables st)).*1 ->
  (forall sp, sp ∈ splits -> fst sp ∈ (person (tables st)).*1) ->
  let st' := snd (ExpenseManager.update_expense eid d a dt pb splits st) in
  (fun x => (row_person x, row_share x)) <$> ExpenseManager.get_expense_splits eid st'
    = splits /\
  (forall eid', eid' <> eid ->
     ExpenseManager.get_expense_splits eid' st'
     = ExpenseManager.get_expense_splits eid' st).
Proof. exact (update_expense_reads_back eid d a dt pb splits st). Qed.

Lemma update_expense_round_trip_witness :
  (fun x => (row_person x, row_share x)) <$>
    ExpenseManager.get_expense_splits 1%Z
      (snd (ExpenseManager.update_expense 1%Z "Dinner" 40 "2024-01-01" 1%Z
              [(2%Z, 20); (3%Z, 20)] store_A))
  = [(2%Z, 20); (3%Z, 20)].
Proof.
  assert (Hnd : NoDup (person (tables store_A)).*1)
    by (apply (bool_decide_unpack _); vm_compute; reflexivity).
  assert (Hknown : forall sp, sp ∈ [(2%Z, 20); (3%Z, 20)] ->
                     fst sp ∈ (person (tables store_A)).*1).
  { apply Forall_forall. repeat constructor;
      apply (bool_decide_unpack _); vm_compute; reflexivity. }
  exact (proj1 (update_expense_round_trip 1%Z "Dinner" 40 "2024-01-01" 1%Z
                  [(2%Z, 20); (3%Z, 20)] store_A Hnd Hknown)).
Defined.

Lemma expense_row_unique (l : list expense_row) (e : expense_row) :
  NoDup (e_id <$> l) -> e ∈ l -> filter (fun x => e_id x = e_id e) l = [e].
Proof.
  induction l as [|x l IH]; intros Hnd Hin; [inversion Hin|].
  cbn [fmap list_fmap] in Hnd. apply NoDup_cons in Hnd as [Hx Hnd].
  rewrite filter_cons. apply elem_of_cons in Hin as [->|Hin].
  - rewrite decide_True by reflexivity. f_equal.
    apply filter_none. intros y Hy Heq. apply Hx. rewrite <- Heq.
    apply list_elem_of_fmap. exists y. split; [reflexivity | exact Hy].
  - rewrite decide_False; [apply IH; assumption|].
    intros Heq. apply Hx. rewrite Heq. apply list_elem_of_fmap.
    exists e. split; [reflexivity | exact Hin].
Qed.

Lemma joined_expense_filter (eid : Z) (persons : list (Z * string)) (l : list expense_row) :
  filter (fun r : Z * string * Q * string * Z * string =>
            fst (fst (fst (fst (fst r)))) = eid)
    (e ← l;
     p ← filter (fun p => fst p = e_paid_by e) persons;
     [(e_id e, e_description e, e_amount e, e_date e, e_paid_by e, snd p)])
  = (e ← filter (fun e => e_id e = eid) l;
     p ← filter (fun p => fst p = e_paid_by e) persons;
     [(e_id e, e_description e, e_amount e, e_date e, e_paid_by e, snd p)]).
Proof.
  induction l as [|e l IH]; [reflexivity|].
  rewrite bind_cons, filter_app, IH, (filter_cons _ e l).
  destruct (decide (e_id e = eid)) as [Heq|Hne].
  - rewrite bind_cons. f_equal. apply filter_all.
    intros r Hr. apply list_elem_of_bind in Hr as (p & Hr & _).
    apply elem_of_cons in Hr as [->|Hr]; [exact Heq | inversion Hr].
  - replace (filter _ (filter (fun p => fst p = e_paid_by e) persons ≫= _))
      with (@nil (Z * string * Q * string * Z * string)); [reflexivity|].
    symmetry. apply filter_none.
    intros r Hr. apply list_elem_of_bind in Hr as (p & Hr & _).
    apply elem_of_cons in Hr as [->|Hr]; [exact Hne | inversion Hr].
Qed.

(** X15: with unique ids, [get_expense_by_id] of an existing expense
    returns its row with the payer's name when the payer is a person, and
    nothing when the payer is not (the join drops the row); an id no
    expense has returns nothing. *)
Theorem get_expense_by_id_spec (st : Store) :
  NoDup (e_id <$> expense (tables st)) ->
  NoDup (person (tables st)).*1 ->
  (forall e n, e ∈ expense (tables st) -> (e_paid_by e, n) ∈ person (tables st) ->
     ExpenseManager.get_expense_by_id (e_id e) st
     = Some (e_id e, e_description e, e_amount e, e_date e, e_paid_by e, n)) /\
  (forall e, e ∈ expense (tables st) -> e_paid_by e ∉ (person (tables st)).*1 ->
     ExpenseManager.get_expense_by_id (e_id e) st = None) /\
  (forall eid, eid ∉ (e_id <$> expense (tables st)) ->
     ExpenseManager.get_expense_by_id eid st = None).
Proof.
  intros Hne Hnp.
  unfold ExpenseManager.get_expense_by_id, ExpenseManager.expense_with_payer.
  split; [|split].
  - intros e n He Hp.
    rewrite joined_expense_filter, (expense_row_unique _ _ Hne He), bind_singleton.
    rewrite (person_row _ _ _ Hnp Hp). reflexivity.
  - intros e He Hp.
    rewrite joined_expense_filter, (expense_row_unique _ _ Hne He), bind_singleton.
    rewrite (person_row_absent _ _ Hp). reflexivity.
  - intros eid Heid. rewrite joined_expense_filter.
    rewrite filter_none; [reflexivity|].
    intros e He Heq. apply Heid. rewrite <- Heq. apply list_elem_of_fmap.
    exists e. split; [reflexivity | exact He].
Qed.

Lemma get_expense_by_id_spec_witness :
  ExpenseManager.get_expense_by_id 1%Z store_A
  = Some (1%Z, "Dinner"%string, 30, "2024-01-01"%string, 1%Z, "Alice"%string).
Proof.
  refine (proj1 (get_expense_by_id_spec store_A _ _)
            {| e_id := 1; e_description := "Dinner"; e_amount := 30;
               e_date := "2024-01-01"; e_paid_by := 1 |} "Alice"%string _ _);
    [apply (bool_decide_unpack _); vm_compute; reflexivity
    |apply (bool_decide_unpack _); vm_compute; reflexivity
    |apply list_elem_of_here
    |apply list_elem_of_here].
Defined.

(** ** The splits a form builds *)

(** Filling a dictionary in a loop over distinct keys appends one item per
    key that passes the test, in order. *)
Lemma fill_distinct (keep : Z -> bool) (g : Z -> Q) (persons : list (Z * string))
    (acc : list (Z * Q)) :
  NoDup (Dict.keys acc ++ persons.*1) ->
  fold_left (fun splits p =>
               if keep (fst p) then Dict.set (fst p) (g (fst p)) splits else splits)
            persons acc
  = acc ++ ((fun p => (fst p, g (fst p))) <$> filter (fun p => keep (fst p) = true) persons).
Proof.
  revert acc. induction persons as [|[p n] persons IH]; intros acc Hnd.
  - cbn. rewrite app_nil_r. reflexivity.
  - cbn [fold_left fmap list_fmap fst] in *. rewrite filter_cons. cbn [fst].
    assert (Hfresh : p ∉ Dict.keys acc).
    { apply NoDup_app in Hnd as (_ & Hdis & _). intros Hin.
      apply (Hdis p Hin). apply list_elem_of_here. }
    assert (Hrest : NoDup (Dict.keys acc ++ persons.*1)).
    { apply NoDup_app in Hnd as (H1 & H2 & H3). apply NoDup_cons in H3 as [_ H3].
      apply NoDup_app. split; [exact H1|]. split; [|exact H3].
      intros x Hx Hx'. apply (H2 x Hx), list_elem_of_further, Hx'. }
    destruct (keep p) eqn:E.
    + rewrite decide_True by reflexivity.
      rewrite (set_fresh _ _ _ Hfresh), IH.
      * cbn [fmap list_fmap fst]. rewrite <- app_assoc. reflexivity.
      * unfold Dict.keys in *. rewrite fmap_app, <- app_assoc. exact Hnd.
    + rewrite decide_False by discriminate. apply IH, Hrest.
Qed.

Lemma amount_splits_spec (persons : list (Z * string)) (share_of : Z -> Q) :
  NoDup persons.*1 ->
  Form.amount_splits persons share_of
  = (fun p => (fst p, share_of (fst p)))
      <$> filter (fun p => Qltb 0 (share_of (fst p)) = true) persons.
Proof.
  intros Hnd. unfold Form.amount_splits.
  exact (fill_distinct (fun k => Qltb 0 (share_of k)) share_of persons [] Hnd).
Qed.

Lemma percentage_splits_spec (persons : list (Z * string)) (amount : Q)
    (percentage_of : Z -> Q) :
  NoDup persons.*1 ->
  Form.percentage_splits persons amount percentage_of
  = (fun p => (fst p, amount * (percentage_of (fst p) / 100)))
      <$> filter (fun p => Qltb 0 (percentage_of (fst p)) = true) persons.
Proof.
  intros Hnd. unfold Form.percentage_splits.
  exact (fill_distinct (fun k => Qltb 0 (percentage_of k))
           (fun k => amount * (percentage_of k / 100)) persons [] Hnd).
Qed.

Lemma equal_fill (c : Q) (involved : list Z) (acc : list (Z * Q)) :
  NoDup (Dict.keys acc ++ involved) ->
  fold_left (fun splits pid => Dict.set pid c splits) involved acc
  = acc ++ ((fun p => (p, c)) <$> involved).
Proof.
  revert acc. induction involved as [|p involved IH]; intros acc Hnd.
  - cbn. rewrite app_nil_r. reflexivity.
  - cbn [fold_left fmap list_fmap].
    assert (Hfresh : p ∉ Dict.keys acc).
    { apply NoDup_app in Hnd as (_ & Hdis & _). intros Hin.
      apply (Hdis p Hin). apply list_elem_of_here. }
    rewrite (set_fresh _ _ _ Hfresh), IH.
    + rewrite <- app_assoc. reflexivity.
    + unfold Dict.keys in *. rewrite fmap_app, <- app_assoc. exact Hnd.
Qed.

Lemma equal_splits_spec (amount : Q) (involved : list Z) :
  NoDup involved ->
  Form.equal_splits amount involved
  = (fun p => (p, amount / Qnat (length involved))) <$> involved.
Proof.
  intros Hnd. unfold Form.equal_splits. destruct involved as [|p l]; [reflexivity|].
  exact (equal_fill _ (p :: l) [] Hnd).
Qed.

Lemma fold_left_Qplus (l : list Q) (a : Q) : fold_left Qplus l a == a + Qsum l.
Proof.
  revert a. induction l as [|x l IH]; intros a; cbn [fold_left].
  - change (Qsum []) with 0. lra.
  - rewrite IH. change (Qsum (x :: l)) with (x + Qsum l). lra.
Qed.

Lemma sum_values_Qsum (splits : list (Z * Q)) :
  Form.sum_values splits == Qsum (map snd splits).
Proof.
  unfold Form.sum_values. rewrite fold_left_Qplus.
  replace (Qsum splits.*2) with (Qsum (map snd splits)); [lra|].
  induction splits as [|x l IH]; [reflexivity|].
  cbn [map fmap list_fmap]. unfold Qsum in *. cbn [foldr]. rewrite IH. reflexivity.
Qed.

Lemma Qsum_const {A : Type} (c : Q) (l : list A) :
  Qsum (map (fun _ => c) l) == c * Qnat (length l).
Proof.
  induction l as [|x l IH].
  - change (Qsum (map (fun _ : A => c) [])) with 0. change (Qnat (length (@nil A))) with 0. lra.
  - change (Qsum (map (fun _ : A => c) (x :: l))) with (c + Qsum (map (fun _ : A => c) l)).
    change (length (x :: l)) with (S (length l)). rewrite IH, Qnat_S. lra.
Qed.

Lemma Qnat_pos (n : nat) : (0 < n)%nat -> 0 < Qnat n.
Proof.
  intros H. destruct n as [|n]; [lia|].
  pose proof (Qnat_S n). pose proof (Qnat_nonneg n). lra.
Qed.

(** The equal split: its keys, its shares and their sum. *)
Lemma equal_splits_facts (amount : Q) (involved : list Z) :
  NoDup involved -> involved <> [] ->
  (Form.equal_splits amount involved).*1 = involved /\
  Forall (fun sp => snd sp = amount / Qnat (length involved))
         (Form.equal_splits amount involved) /\
  Form.sum_values (Form.equal_splits amount involved) == amount.
Proof.
  intros Hnd Hne. rewrite (equal_splits_spec _ _ Hnd). split; [|split].
  - rewrite <- list_fmap_compose. apply list_fmap_id.
  - apply Forall_forall. intros sp Hsp.
    apply list_elem_of_fmap in Hsp as (p & -> & _). reflexivity.
  - rewrite sum_values_Qsum.
    assert (E : map snd ((fun p => (p, amount / Qnat (length involved))) <$> involved)
                = map (fun _ => amount / Qnat (length involved)) involved).
    { clear. generalize (amount / Qnat (length involved)). intros c.
      induction involved as [|x l IH]; [reflexivity|].
      cbn [fmap list_fmap map snd]. rewrite IH. reflexivity. }
    rewrite E, Qsum_const.
    assert (Hpos : 0 < Qnat (length involved)).
    { apply Qnat_pos. destruct involved; [congruence | cbn; lia]. }
    field. lra.
Qed.

(** X16: split equally among distinct persons, at least one, every
    person gets the amount divided by their number and the shares add up
    to the amount exactly. *)
Theorem equal_splits_exact (amount : Q) (involved : list Z) :
  NoDup involved -> involved <> [] ->
  (Form.equal_splits amount involved).*1 = involved /\
  Forall (fun sp => snd sp = amount / Qnat (length involved))
         (Form.equal_splits amount involved) /\
  Form.sum_values (Form.equal_splits amount involved) == amount.
Proof. exact (equal_splits_facts amount involved). Qed.

Lemma equal_splits_exact_witness :
  Form.sum_values (Form.equal_splits 30 [1%Z; 2%Z; 3%Z]) == 30.
Proof.
  refine (proj2 (proj2 (equal_splits_exact 30 [1%Z; 2%Z; 3%Z] _ _)));
    [apply (bool_decide_unpack _); vm_compute; reflexivity | discriminate].
Defined.

(** ** What an accepted form stores *)

Lemma splits_of_sound (persons : list (Z * string)) (inp : Form.input) :
  NoDup persons.*1 ->
  NoDup (Form.involved_persons inp) ->
  (forall p, p ∈ Form.involved_persons inp -> p ∈ persons.*1) ->
  0 < Form.amount inp ->
  NoDup (Form.splits_of persons inp).*1 /\
  forall sp, sp ∈ Form.splits_of persons inp -> fst sp ∈ persons.*1 /\ 0 < snd sp.
Proof.
  intros Hnd Hinv Hsub Hpos. unfold Form.splits_of.
  destruct (Form.method inp).
  - rewrite (equal_splits_spec _ _ Hinv). split.
    + rewrite <- list_fmap_compose. rewrite list_fmap_id. exact Hinv.
    + intros sp Hsp. apply list_elem_of_fmap in Hsp as (p & -> & Hp). cbn [fst snd].
      split; [apply Hsub, Hp|].
      apply Qlt_shift_div_l; [|lra].
      apply Qnat_pos. destruct (Form.involved_persons inp); [inversion Hp | cbn; lia].
  - rewrite (amount_splits_spec _ _ Hnd). split.
    + rewrite <- list_fmap_compose. apply (NoDup_fmap_filter fst). exact Hnd.
    + intros sp Hsp. apply list_elem_of_fmap in Hsp as (p & -> & Hp). cbn [fst snd].
      apply list_elem_of_filter in Hp as [Hk Hp]. apply Qltb_true in Hk.
      split; [|exact Hk]. apply list_elem_of_fmap. exists p. split; [reflexivity|exact Hp].
  - rewrite (percentage_splits_spec _ _ _ Hnd). split.
    + rewrite <- list_fmap_compose. apply (NoDup_fmap_filter fst). exact Hnd.
    + intros sp Hsp. apply list_elem_of_fmap in Hsp as (p & -> & Hp). cbn [fst snd].
      apply list_elem_of_filter in Hp as [Hk Hp]. apply Qltb_true in Hk.
      split; [apply list_elem_of_fmap; exists p; split; [reflexivity|exact Hp]|].
      apply Qmult_lt_0_compat; [exact Hpos|].
      apply Qlt_shift_div_l; lra.
Qed.

(** What the handler checked before it called [add_expense]. *)
Lemma submit_added_facts (persons : list (Z * string)) (inp : Form.input)
    (st st' : Store) (r : Form.result) :
  NoDup persons.*1 ->
  NoDup (Form.involved_persons inp) ->
  (forall p, p ∈ Form.involved_persons inp -> p ∈ persons.*1) ->
  Form.submit persons inp st = (r, st') ->
  (r <> Form.Added -> st' = st) /\
  (r = Form.Added ->
   let splits := Form.splits_of persons inp in
   st' = snd (ExpenseManager.add_expense (Form.description inp) (Form.amount inp)
                (Form.date inp) (Form.paid_by inp) splits st) /\
   Form.description inp <> EmptyString /\
   0 < Form.amount inp /\
   splits <> [] /\
   NoDup splits.*1 /\
   (forall sp, sp ∈ splits -> fst sp ∈ persons.*1 /\ 0 < snd sp) /\
   Qabs (Qsum (map snd splits) - Form.amount inp) <= epsilon).
Proof.
  intros Hnd Hinv Hsub. unfold Form.submit. cbn zeta.
  destruct (bool_decide (persons = [])); [intros [= <- <-]; split; [reflexivity|discriminate]|].
  destruct (String.eqb_spec (Form.description inp) EmptyString) as [|Hdesc];
    [intros [= <- <-]; split; [reflexivity|discriminate]|].
  destruct (Qle_bool (Form.amount inp) 0) eqn:Hamt;
    [intros [= <- <-]; split; [reflexivity|discriminate]|].
  destruct (bool_decide (Form.splits_of persons inp = [])) eqn:Hempty;
    [intros [= <- <-]; split; [reflexivity|discriminate]|].
  destruct (Form.is_custom (Form.method inp)
            && Qltb epsilon (Qabs (Form.sum_values (Form.splits_of persons inp)
                                   - Form.amount inp))) eqn:Hsum;
    [intros [= <- <-]; split; [reflexivity|discriminate]|].
  cbn [ExpenseManager.add_expense fst snd]. intros [= <- <-].
  split; [congruence|]. intros _.
  assert (Hpos : 0 < Form.amount inp).
  { destruct (Qlt_le_dec 0 (Form.amount inp)) as [H|H]; [exact H|].
    apply Qle_bool_iff in H. congruence. }
  destruct (splits_of_sound persons inp Hnd Hinv Hsub Hpos) as [Hkeys Hall].
  split; [reflexivity|]. split; [exact Hdesc|]. split; [exact Hpos|].
  split; [apply bool_decide_eq_false in Hempty; exact Hempty|].
  split; [exact Hkeys|]. split; [exact Hall|].
  rewrite <- sum_values_Qsum.
  apply andb_false_iff in Hsum as [Hm|Hs].
  - unfold Form.splits_of in *. destruct (Form.method inp); try discriminate.
    assert (Hne : Form.involved_persons inp <> []).
    { intros E. apply bool_decide_eq_false in Hempty. apply Hempty.
      rewrite E. reflexivity. }
    destruct (equal_splits_facts (Form.amount inp) _ Hinv Hne) as (_ & _ & Hex).
    rewrite Hex. qabs_lra.
  - apply Qltb_false in Hs. exact Hs.
Qed.



(** X18: an accepted form, filled for the persons of the database with
    one of them as payer, keeps [calculate_balances] defined and moves the
    sum of the balances by at most [epsilon]; split equally, it does not
    move it at all. *)
Theorem submit_shifts_sum (persons : list (Z * string)) (inp : Form.input)
    (st st' : Store) (b : balances_t) :
  NoDup persons.*1 ->
  persons ≡ₚ person (tables st) ->
  NoDup (Form.involved_persons inp) ->
  (forall p, p ∈ Form.involved_persons inp -> p ∈ persons.*1) ->
  Form.paid_by inp ∈ persons.*1 ->
  calculate_balances (tables st) = Some b ->
  Form.submit persons inp st = (Form.Added, st') ->
  exists b',
    calculate_balances (tables st') = Some b' /\
    Qabs (sum_balances b' - sum_balances b) <= epsilon /\
    (Form.method inp = Form.Equally -> sum_balances b' == sum_balances b).
Proof.
  intros Hnd Hperm Hinv Hsub Hpb Hb Hsubmit.
  destruct (submit_added_facts _ _ _ _ _ Hnd Hinv Hsub Hsubmit) as [_ Hadded].
  destruct (Hadded eq_refl) as (-> & _ & _ & Hne & _ & Hall & Hsum).
  destruct (add_expense_sum (Form.description inp) (Form.amount inp)
              (Form.date inp) (Form.paid_by inp) (Form.splits_of persons inp) st b Hb)
    as (b' & Hb' & Hshift).
  { rewrite <- Hperm. exact Hpb. }
  { intros sp Hsp. rewrite <- Hperm. apply Hall, Hsp. }
  exists b'. split; [exact Hb'|]. split; [qabs_lra|].
  intros Hm. unfold Form.splits_of in *. rewrite Hm in *.
  assert (Hne' : Form.involved_persons inp <> [])
    by (intros E; apply Hne; rewrite E; reflexivity).
  destruct (equal_splits_facts (Form.amount inp) _ Hinv Hne') as (_ & _ & Hex).
  rewrite sum_values_Qsum in Hex. lra.
Qed.

Lemma submit_shifts_sum_witness :
  exists b',
    calculate_balances
      (tables (snd (Form.submit (person scenario_A)
         {| Form.description := "Taxi"; Form.amount := 12; Form.date := "2024-01-02";
            Form.paid_by := 2; Form.method := Form.Equally;
            Form.involved_persons := [1%Z; 2%Z];
            Form.share_of := fun _ => 0;
            Form.percentage_of := fun _ => 0 |} store_A))) = Some b' /\
    Qabs (sum_balances b'
          - sum_balances [ (1%Z, {| name := "Alice"; balance := 20 |});
                           (2%Z, {| name := "Bob"; balance := -10 |});
                           (3%Z, {| name := "Carol"; balance := -10 |}) ]) <= epsilon.
Proof.
  destruct (submit_shifts_sum (person scenario_A)
    {| Form.description := "Taxi"; Form.amount := 12; Form.date := "2024-01-02";
       Form.paid_by := 2; Form.method := Form.Equally;
       Form.involved_persons := [1%Z; 2%Z];
       Form.share_of := fun _ => 0;
       Form.percentage_of := fun _ => 0 |} store_A _
    [ (1%Z, {| name := "Alice"; balance := 20 |});
      (2%Z, {| name := "Bob"; balance := -10 |});
      (3%Z, {| name := "Carol"; balance := -10 |}) ]
    ltac:(apply (bool_decide_unpack _); vm_compute; reflexivity)
    ltac:(reflexivity)
    ltac:(apply (bool_decide_unpack _); vm_compute; reflexivity)
    ltac:(apply Forall_forall; repeat constructor;
          apply (bool_decide_unpack _); vm_compute; reflexivity)
    ltac:(apply (bool_decide_unpack _); vm_compute; reflexivity)
    ltac:(vm_compute; reflexivity)
    eq_refl) as (b' & Hb' & Hs & _).
  exists b'. split; [exact Hb' | exact Hs].
Defined.

(** ** The names in a plan *)

Lemma step_emits_named (s s' : walk) :
  step s = Some s' ->
  (debtors s').*1 = (debtors s).*1 /\ (creditors s').*1 = (creditors s).*1 /\
  exists t, transactions s' = transactions s ++ [t] /\
            (debtors s).*1 !! i s = Some (t_debtor t, t_debtor_name t) /\
            (creditors s).*1 !! j s = Some (t_creditor t, t_creditor_name t).
Proof.
  intros H. apply step_inv in H.
  destruct H as [did dn debt cid cn credit Hd Hc _
                |did dn debt cid cn credit Hd Hc _ _
                |did dn debt cid cn credit Hd Hc _ _];
    cbn [debtors creditors i j transactions];
    rewrite ?(keys_insert _ _ _ _ _ Hd), ?(keys_insert _ _ _ _ _ Hc);
    (split; [reflexivity|]); (split; [reflexivity|]);
    eexists; (split; [reflexivity|]);
    rewrite !list_lookup_fmap, Hd, Hc; split; reflexivity.
Qed.

Lemma reach_named (ds cs : list party) (s : walk) :
  rtc step_rel (start ds cs) s ->
  (debtors s).*1 = ds.*1 /\ (creditors s).*1 = cs.*1 /\
  Forall (fun t => (t_debtor t, t_debtor_name t) ∈ ds.*1 /\
                   (t_creditor t, t_creditor_name t) ∈ cs.*1) (transactions s).
Proof.
  intros Hr. refine (rtc_ind_r (fun s => _) _ _ _ s Hr); cbn beta.
  - cbn. repeat split; constructor.
  - intros y z _ Hyz (Hd & Hc & Hall).
    destruct (step_emits_named _ _ Hyz) as (Hd' & Hc' & t & Ht & Htd & Htc).
    split; [congruence|]. split; [congruence|].
    rewrite Ht. apply Forall_app. split; [exact Hall|]. repeat constructor.
    + rewrite Hd in Htd. eapply list_elem_of_lookup_2, Htd.
    + rewrite Hc in Htc. eapply list_elem_of_lookup_2, Htc.
Qed.

(** X19: on a database that keeps its keys, [get_settlement_plan]
    returns a plan, and every transaction of it is from a person of the
    database to another person of the database, each under the name the
    database has for them. *)
Theorem plan_names_persons (db : Database) :
  persons_known db ->
  exists plan, get_settlement_plan db = Some plan /\
    forall t, t ∈ plan ->
      (t_debtor t, t_debtor_name t) ∈ person db /\
      (t_creditor t, t_creditor_name t) ∈ person db /\
      t_debtor t <> t_creditor t.
Proof.
  intros Hdb.
  destruct (calculate_balances_spec db Hdb) as (b & Hb & Hkeys & Hget).
  assert (Hnd : NoDup (Dict.keys b))
    by (rewrite Hkeys; apply (person_ids_unique _ Hdb)).
  exists (plan_settlement b). unfold get_settlement_plan. rewrite Hb.
  split; [reflexivity|]. intros t Ht.
  assert (Hentry : forall p e, (p, e) ∈ b -> (p, name e) ∈ person db).
  { intros p e Hin.
    assert (Hp : p ∈ (person db).*1).
    { rewrite <- Hkeys. apply list_elem_of_fmap. exists (p, e). split; [reflexivity|exact Hin]. }
    apply list_elem_of_fmap in Hp as ([p' n] & Hp' & Hpn). cbn in Hp'. subst p'.
    pose proof (Hget p n Hpn) as Hg. cbn zeta in Hg.
    rewrite (elem_get _ _ _ Hnd Hin) in Hg. injection Hg as ->.
    destruct (Dict.get p (payments db)), (Dict.get p (shares db)); exact Hpn. }
  destruct (reach_named _ _ _ (settle_reach b)) as (_ & _ & Hall).
  fold (plan_settlement b) in Hall. rewrite Forall_forall in Hall.
  destruct (Hall t Ht) as [Hd Hc].
  split; [|split].
  - rewrite sort_desc_perm in Hd. apply list_elem_of_fmap in Hd as (x & Hx & Hin).
    apply debtors_of_elem in Hin as (e & Hin & _ & Hn & _).
    destruct x as [[xi xn] xa]. cbn in Hx, Hn, Hin. injection Hx as -> ->.
    rewrite Hn. apply Hentry, Hin.
  - rewrite sort_desc_perm in Hc. apply list_elem_of_fmap in Hc as (x & Hx & Hin).
    apply creditors_of_elem in Hin as (e & Hin & _ & Hn & _).
    destruct x as [[xi xn] xa]. cbn in Hx, Hn, Hin. injection Hx as -> ->.
    rewrite Hn. apply Hentry, Hin.
  - apply plan_parties in Ht as [Htd Htc].
    destruct (debtor_id_balance _ _ Hnd Htd) as (ed & Hgd & Hlt).
    destruct (creditor_id_balance _ _ Hnd Htc) as (ec & Hgc & Hgt).
    intros Heq. rewrite Heq in Hgd. rewrite Hgd in Hgc. injection Hgc as ->. lra.
Qed.

Lemma plan_names_persons_witness :
  exists plan, get_settlement_plan scenario_A = Some plan /\
    forall t, t ∈ plan ->
      (t_debtor t, t_debtor_name t) ∈ person scenario_A /\
      (t_creditor t, t_creditor_name t) ∈ person scenario_A /\
      t_debtor t <> t_creditor t.
Proof. exact (plan_names_persons scenario_A scenario_A_known). Defined.

Lemma balances_sum_within_tolerance_witness :
  exists b, calculate_balances scenario_A = Some b /\
    Qabs (sum_balances b) <= epsilon * Qnat (length (expense scenario_A)).
Proof.
  refine (balances_sum_within_tolerance scenario_A epsilon scenario_A_known _ _).
  - split.
    + apply (bool_decide_unpack _). vm_compute. reflexivity.
    + apply Forall_forall. repeat constructor;
        apply (bool_decide_unpack _); vm_compute; reflexivity.
  - apply Forall_forall. repeat constructor.
    apply Qle_bool_iff. vm_compute. reflexivity.
Defined.

(** ** Percentages *)

Lemma Qsum_scale {A : Type} (c : Q) (f : A -> Q) (l : list A) :
  Qsum (map (fun x => c * (f x / 100)) l) == c * (Qsum (map f l) / 100).
Proof.
  induction l as [|x l IH].
  - change (Qsum (map (fun x => c * (f x / 100)) [])) with 0.
    change (Qsum (map f [])) with 0. field.
  - change (Qsum (map (fun x => c * (f x / 100)) (x :: l)))
      with (c * (f x / 100) + Qsum (map (fun x => c * (f x / 100)) l)).
    change (Qsum (map f (x :: l))) with (f x + Qsum (map f l)).
    rewrite IH. field.
Qed.

(** X20: split by percentages among persons with distinct ids, the shares
    add up to the amount times the sum of the percentages above 0,
    divided by 100: to the amount itself when those percentages sum to
    100. *)
Theorem percentage_splits_total (persons : list (Z * string)) (amount : Q)
    (percentage_of : Z -> Q) :
  NoDup persons.*1 ->
  let entered :=
    Qsum (map (fun p => percentage_of (fst p))
              (filter (fun p => Qltb 0 (percentage_of (fst p)) = true) persons)) in
  Form.sum_values (Form.percentage_splits persons amount percentage_of)
    == amount * (entered / 100) /\
  (entered == 100 ->
   Form.sum_values (Form.percentage_splits persons amount percentage_of) == amount).
Proof.
  intros Hnd entered.
  assert (E : Form.sum_values (Form.percentage_splits persons amount percentage_of)
              == amount * (entered / 100)).
  { rewrite (percentage_splits_spec _ _ _ Hnd), sum_values_Qsum.
    subst entered.
    generalize (filter (fun p : Z * string => Qltb 0 (percentage_of (fst p)) = true) persons).
    intros l. rewrite <- (Qsum_scale amount (fun p => percentage_of (fst p)) l).
    induction l as [|x l IH]; [reflexivity|].
    cbn [fmap list_fmap map snd].
    change (Qsum (amount * (percentage_of (fst x) / 100)
                  :: map snd ((fun p : Z * string =>
                        (fst p, amount * (percentage_of (fst p) / 100))) <$> l)))
      with (amount * (percentage_of (fst x) / 100)
            + Qsum (map snd ((fun p : Z * string =>
                        (fst p, amount * (percentage_of (fst p) / 100))) <$> l))).
    change (Qsum (amount * (percentage_of (fst x) / 100)
                  :: map (fun p : Z * string => amount * (percentage_of (fst p) / 100)) l))
      with (amount * (percentage_of (fst x) / 100)
            + Qsum (map (fun p : Z * string => amount * (percentage_of (fst p) / 100)) l)).
    rewrite IH. reflexivity. }
  split; [exact E|]. intros H100. rewrite E, H100. field.
Qed.

Lemma percentage_splits_total_witness :
  Form.sum_values
    (Form.percentage_splits [(1%Z, "Alice"%string); (2%Z, "Bob"%string)] 12
       (fun _ => 50)) == 12.
Proof.
  refine (proj2 (percentage_splits_total [(1%Z, "Alice"%string); (2%Z, "Bob"%string)]
                   12 (fun _ => 50) _) _).
  - apply (bool_decide_unpack _). vm_compute. reflexivity.
  - vm_compute. reflexivity.
Defined.

(** ** The edit form *)


